(** * FeedMe: the feed update script [scripts/update-feeds.js]

    A shallow embedding of the merge step, the throttled summarisation
    loop, the per-source update and the run-level driver of
    [scripts/update-feeds.js], together with the properties the
    specification states about them.

    Conventions of the embedding:
    - a feed entry is the plain object built by [fetchRssFeed]
      (lines 216-232), extended with the optional [summary] the script
      attaches; every field but [enclosure] and [summary] is a string;
    - the JS [Map] keyed by link is a [gmap string Item];
    - module-level mutable variables are threaded as an explicit state;
    - the collaborators (file system, clock, feed parser, text
      generation service) are given by a record of the answers the code
      observes;
    - of the console output, the lines that mark the start of a source's
      update, a token pause, a failed summary and a failed source are
      recorded. *)

From stdpp Require Import gmap strings list.
From Stdlib Require Import ZArith Lia Ascii.

Local Open Scope Z_scope.

(** ** JavaScript values and operators used by the script *)

Module JS.

(** Truthiness of a string: every string but the empty one. *)
Definition truthyStr (s : string) : bool := negb (String.eqb s EmptyString).

(** Truthiness of a value that is [undefined] or a string. *)
Definition truthy (v : option string) : bool :=
  match v with
  | Some s => truthyStr s
  | None => false
  end.

(** [a || b] on such values. *)
Definition or (a b : option string) : option string :=
  if truthy a then a else b.

(** [a || d] where [d] is a string literal: the result is a string. *)
Definition orStr (a : option string) (d : string) : string :=
  default d (or a (Some d)).

(** [Array.prototype.slice(0, end)] for an integer [end]: a negative
    [end] counts from the end of the array. *)
Definition slice0 {A} (end_ : Z) (l : list A) : list A :=
  let len := Z.of_nat (length l) in
  let final := if end_ <? 0 then Z.max (len + end_) 0 else Z.min end_ len in
  take (Z.to_nat final) l.

End JS.

(** ** Feed entries *)

Module Enclosure.
Record t := mk { url : string; type : string }.
End Enclosure.

Record Item := mkItem {
  title : string;
  link : string;
  pubDate : string;
  isoDate : string;
  content : string;
  contentSnippet : string;
  creator : string;
  enclosure : option Enclosure.t;
  summary : option string
}.

(** [{ ...item, summary: s }] *)
Definition withSummary (item : Item) (s : option string) : Item :=
  {| title := title item; link := link item; pubDate := pubDate item;
     isoDate := isoDate item; content := content item;
     contentSnippet := contentSnippet item; creator := creator item;
     enclosure := enclosure item; summary := s |}.

(** [item.link] used as a condition. *)
Definition hasLink (item : Item) : bool := JS.truthyStr (link item).

(** ** mergeFeedItems (lines 250-292) *)

Module Merge.

(** Body of the first loop (lines 255-259). *)
Definition addOld (itemsMap : gmap string Item) (item : Item) : gmap string Item :=
  if hasLink item then <[link item := item]> itemsMap else itemsMap.

(** [existingItem?.summary] *)
Definition summaryOf (existingItem : option Item) : option string :=
  match existingItem with
  | Some e => summary e
  | None => None
  end.

(** Body of the second loop (lines 265-282); the state is [itemsMap]
    and [newItemsForSummary]. *)
Definition addNew (st : gmap string Item * list Item) (item : Item)
  : gmap string Item * list Item :=
  let '(itemsMap, newItemsForSummary) := st in
  if hasLink item then
    let existingItem := itemsMap !! link item in
    let newItemsForSummary' :=
      match existingItem with
      | None => newItemsForSummary ++ [item]
      | Some _ => newItemsForSummary
      end in
    let serializedItem :=
      withSummary item (JS.or (summaryOf existingItem) (summary item)) in
    (<[link item := serializedItem]> itemsMap, newItemsForSummary')
  else st.

(** [itemsMap.has(k)] *)
Definition has (itemsMap : gmap string Item) (k : string) : bool :=
  match itemsMap !! k with Some _ => true | None => false end.

(** [item.link ? itemsMap.get(item.link) : item]; [get] answers
    [undefined] only for a missing key, which the preceding filter
    excludes (lemma [get_present]), so the entry itself stands in for
    that unreachable case. *)
Definition pick (itemsMap : gmap string Item) (item : Item) : Item :=
  if hasLink item then default item (itemsMap !! link item) else item.

Record Result := mkResult {
  mergedItems : list Item;
  newItemsForSummary : list Item
}.

Definition mergeFeedItems (oldItems newItems : list Item) (maxItems : Z) : Result :=
  let itemsMap0 := fold_left addOld oldItems ∅ in
  let '(itemsMap, newItemsForSummary) := fold_left addNew newItems (itemsMap0, []) in
  let mergedItems :=
    JS.slice0 maxItems
      (map (pick itemsMap)
         (List.filter (fun item => hasLink item && has itemsMap (link item)) newItems)) in
  {| mergedItems := mergedItems; newItemsForSummary := newItemsForSummary |}.

End Merge.

(** An entry that carries only a link (and possibly a summary). *)
Definition entry (l : string) (s : option string) : Item :=
  mkItem EmptyString l EmptyString EmptyString EmptyString EmptyString EmptyString None s.

(** ** Auxiliary notions for reasoning about the merge *)

Module MergeInv.
Import Merge.

(** The lookup table of the second loop evolves on its own: the first
    component of [addNew]. *)
Definition nextMap (m : gmap string Item) (item : Item) : gmap string Item :=
  if hasLink item then
    <[link item := withSummary item (JS.or (summaryOf (m !! link item)) (summary item))]> m
  else m.

(** The table after the first loop, and after both loops. *)
Definition oldMap (oldItems : list Item) : gmap string Item :=
  fold_left addOld oldItems ∅.

Definition finalMap (oldItems newItems : list Item) : gmap string Item :=
  fold_left nextMap newItems (oldMap oldItems).

(** The key [k] maps to an entry carrying the link [k]. *)
Definition keyed (m : gmap string Item) (k : string) : Prop :=
  exists e, m !! k = Some e /\ link e = k.

(** The key [k] maps to an entry with link [k] and summary [s]. *)
Definition holds (s : option string) (m : gmap string Item) (k : string) : Prop :=
  exists e, m !! k = Some e /\ link e = k /\ summary e = s.

(** The summary of [e] is the summary of a fresh entry with link [k]. *)
Definition fromFresh (newItems : list Item) (k : string) (e : Item) : Prop :=
  exists f, In f newItems /\ link f = k /\ summary e = summary f.

Definition fresh (newItems : list Item) (m : gmap string Item) (k : string) : Prop :=
  exists e, m !! k = Some e /\ link e = k /\ fromFresh newItems k e.

(** The key [k] maps to an entry whose summary is falsy. *)
Definition stale (m : gmap string Item) (k : string) : Prop :=
  exists e, m !! k = Some e /\ JS.truthy (summary e) = false.

(** Summary preservation as the specification words it: every previous
    entry with a non-empty summary, for which the fresh list has an entry
    with the same link and no summary, has a merged entry with that link
    and the old summary. *)
Definition summaryPreserved (oldItems newItems : list Item) (maxItems : Z) : Prop :=
  forall o, In o oldItems -> JS.truthy (summary o) = true ->
    (exists f, In f newItems /\ link f = link o /\ summary f = None) ->
    exists m, In m (mergedItems (mergeFeedItems oldItems newItems maxItems))
              /\ link m = link o /\ summary m = summary o.

End MergeInv.

(** ** What the feed parser returns *)

Module RawEnclosure.
Record t := mk { url : option string; type : option string }.
End RawEnclosure.

Module RawItem.
Record t := mk {
  title : option string;
  link : option string;
  pubDate : option string;
  isoDate : option string;
  content : option string;
  contentSnippet : option string;
  creator : option string;
  enclosure : option RawEnclosure.t
}.
End RawItem.

Module RawFeed.
Record t := mk {
  title : option string;
  description : option string;
  link : option string;
  items : list RawItem.t
}.
End RawFeed.

(** The object returned by [fetchRssFeed] (lines 237-242). *)
Module Feed.
Record t := mk {
  title : string;
  description : string;
  link : string;
  items : list Item
}.
End Feed.

(** The object persisted per source, [updatedData] (lines 357-364);
    [lastUpdated] is kept as the clock reading it is printed from. *)
Module FeedData.
Record t := mk {
  sourceUrl : string;
  title : string;
  description : string;
  link : string;
  items : list Item;
  lastUpdated : Z
}.
End FeedData.

(** ** Configuration ([config/rss-config.js], a parameter of the script) *)

Module Source.
Record t := mk { name : string; url : string }.
End Source.

(** [sources] is [None] when the configuration has no iterable
    [sources]. *)
Module Config.
Record t := mk {
  sources : option (list Source.t);
  maxItemsPerFeed : Z;
  dataPath : string
}.
End Config.

(** ** Errors, state and the monad of the script *)

Inductive Error :=
| Err (message : string)
| AbortError (message : string)
| ReferenceError (name : string)
| TypeError (message : string)
| SyntaxError (message : string).

Inductive Res (A : Type) :=
| Ret (a : A)
| Throw (e : Error).
Arguments Ret {A} a.
Arguments Throw {A} e.

Definition isRet {A} (r : Res A) : bool :=
  match r with Ret _ => true | Throw _ => false end.

(** A file of the data directory. *)
Inductive File :=
| Unreadable
| Malformed (text : string)
| Document (data : FeedData.t).

Inductive LogLine :=
| LogUpdate (sourceUrl : string)
| LogTokenPause
| LogSummaryFailed (title : string)
| LogUpdateError (sourceUrl : string)
| LogSourceFailed (sourceUrl : string).

(** The answer of the text generation service to one request: the
    promise of [fetch] rejects (no response), which it does with a
    [TypeError] of the given message; or a response arrives with a
    status and a body that is not JSON, so that [response.json()]
    rejects with a [SyntaxError] of the given message; or a response
    arrives with a status and possibly a generated text
    ([candidates[0].content.parts[0].text], trimmed). *)
Inductive ApiResponse :=
| Rejected (message : string)
| Response (status : Z) (text : option string)
| NotJson (status : Z) (message : string).

(** The module-level variables [currentMinuteTokens] and
    [lastResetTime], the data directory, the console, and the number of
    requests sent and of clock readings taken so far. *)
Record State := mkState {
  currentMinuteTokens : Z;
  lastResetTime : Z;
  files : gmap string File;
  console : list LogLine;
  apiCalls : nat;
  clockReads : nat
}.

(** The surroundings of one run: the configuration, the path of the
    file of a source (lines 90-95; the data directory is taken to
    exist or to be creatable), the clock by reading, the feed parser
    ([None] when [parseURL] throws), the service by request number,
    title and content, the paths that cannot be written, and what a
    write that fails leaves at a path, given what was there:
    [fs.writeFileSync] opens the file with truncation before it writes,
    so that a failure of the open leaves the file as it was and a later
    failure leaves an empty or partial file. *)
Record Env := mkEnv {
  config : Config.t;
  getSourceFilePath : string -> string;
  clock : nat -> Z;
  parseURL : string -> option RawFeed.t;
  api : nat -> string -> string -> ApiResponse;
  writeFails : string -> bool;
  afterFailedWrite : string -> option File -> option File
}.

Definition M (A : Type) : Type := State -> Res A * State.

Definition ret {A} (a : A) : M A := fun st => (Ret a, st).

Definition throw {A} (e : Error) : M A := fun st => (Throw e, st).

Definition bind {A B} (m : M A) (k : A -> M B) : M B :=
  fun st =>
    match m st with
    | (Ret a, st') => k a st'
    | (Throw e, st') => (Throw e, st')
    end.

(** [try { m } catch (error) { handler error }] *)
Definition catch {A} (m : M A) (handler : Error -> M A) : M A :=
  fun st =>
    match m st with
    | (Ret a, st') => (Ret a, st')
    | (Throw e, st') => handler e st'
    end.

Definition get : M State := fun st => (Ret st, st).

Definition modify (f : State -> State) : M unit := fun st => (Ret tt, f st).

Declare Scope script_scope.
Delimit Scope script_scope with script.
Notation "'do' x <- m ; k" := (bind m (fun x => k))
  (at level 10, x name, m at level 100, k at level 200) : script_scope.
Notation "'do_' m ; k" := (bind m (fun _ => k))
  (at level 10, m at level 100, k at level 200) : script_scope.
Local Open Scope script_scope.

Definition setTokens (n : Z) (st : State) : State :=
  mkState n (lastResetTime st) (files st) (console st) (apiCalls st) (clockReads st).

Definition setLastResetTime (t : Z) (st : State) : State :=
  mkState (currentMinuteTokens st) t (files st) (console st) (apiCalls st) (clockReads st).

Definition setFile (path : string) (f : File) (st : State) : State :=
  mkState (currentMinuteTokens st) (lastResetTime st) (<[path := f]> (files st))
    (console st) (apiCalls st) (clockReads st).

(** The file at [filePath] becomes [left], no file when [left] is
    [None]. *)
Definition leaveFile (filePath : string) (left : option File) (st : State) : State :=
  mkState (currentMinuteTokens st) (lastResetTime st)
    (partial_alter (fun _ => left) filePath (files st))
    (console st) (apiCalls st) (clockReads st).

Definition addLog (l : LogLine) (st : State) : State :=
  mkState (currentMinuteTokens st) (lastResetTime st) (files st)
    (console st ++ [l]) (apiCalls st) (clockReads st).

Definition countApiCall (st : State) : State :=
  mkState (currentMinuteTokens st) (lastResetTime st) (files st)
    (console st) (S (apiCalls st)) (clockReads st).

Definition countClockRead (st : State) : State :=
  mkState (currentMinuteTokens st) (lastResetTime st) (files st)
    (console st) (apiCalls st) (S (clockReads st)).

Definition log (l : LogLine) : M unit := modify (addLog l).

(** ** Name resolution *)

(** The names bound by the declarations of the script, and the globals
    of the platform it refers to. *)
Definition moduleBindings : list string :=
  [ "path"; "fs"; "dotenvPath"; "Parser"; "config"; "parser";
    "GEMINI_API_KEY"; "GEMINI_API_BASE"; "GEMINI_MODEL_NAME";
    "ensureDataDir"; "getSourceFilePath"; "saveFeedData"; "loadFeedData";
    "PQueue"; "retry"; "apiQueue"; "RETRY_CONFIG"; "TOKEN_PER_CHAR";
    "currentMinuteTokens"; "lastResetTime"; "generateSummaryWithLimit";
    "fetchRssFeed"; "mergeFeedItems"; "updateFeed"; "updateAllFeeds";
    "main" ]%string.

Definition platformGlobals : list string :=
  [ "require"; "process"; "console"; "Buffer"; "Date"; "Math"; "JSON";
    "Map"; "Error"; "fetch" ]%string.

Definition resolvable (name : string) : bool :=
  existsb (String.eqb name) (moduleBindings ++ platformGlobals).

(** ** The script *)

(** [RETRY_CONFIG] (lines 139-143) *)
Record RetryConfig := mkRetryConfig {
  retries : nat;
  minTimeout : Z;
  factor : Z
}.

Definition RETRY_CONFIG : RetryConfig :=
  {| retries := 3; minTimeout := 2000; factor := 2 |}.

(** [TOKEN_PER_CHAR = 0.4], as the fraction 2/5. *)
Definition TOKEN_PER_CHAR : Z * Z := (2, 5).

(** [Math.floor(promptLength * TOKEN_PER_CHAR)]: on the lengths of
    strings the rounded floating-point product has the same integer
    part as the exact [2 * promptLength / 5]. *)
Definition estimateTokens (promptLength : nat) : Z :=
  (TOKEN_PER_CHAR.1 * Z.of_nat promptLength) / TOKEN_PER_CHAR.2.

(** The text attached when no summary could be generated (line 349). *)
Definition SUMMARY_FAILED : string := "摘要生成失败（请稍后重试）".

(** The text returned when the response carries no text (line 200). *)
Definition NO_SUMMARY : string := "无有效摘要生成".

(** The serialised entry of lines 216-234; it has no [summary]. *)
Definition serializeItem (item : RawItem.t) : Item :=
  {| title := JS.orStr (RawItem.title item) EmptyString;
     link := JS.orStr (RawItem.link item) EmptyString;
     pubDate := JS.orStr (RawItem.pubDate item) EmptyString;
     isoDate := JS.orStr (RawItem.isoDate item) EmptyString;
     content := JS.orStr (RawItem.content item) EmptyString;
     contentSnippet := JS.orStr (RawItem.contentSnippet item) EmptyString;
     creator := JS.orStr (RawItem.creator item) EmptyString;
     enclosure :=
       match RawItem.enclosure item with
       | Some e =>
           Some {| Enclosure.url := JS.orStr (RawEnclosure.url e) EmptyString;
                   Enclosure.type := JS.orStr (RawEnclosure.type e) EmptyString |}
       | None => None
       end;
     summary := None |}.

(** [response.ok] *)
Definition responseOk (status : Z) : bool := (200 <=? status) && (status <=? 299).

(** The messages by which the [p-retry] package recognises the
    [TypeError] of a network failure. *)
Definition networkErrorMsgs : list string :=
  [ "Failed to fetch";
    "NetworkError when attempting to fetch resource.";
    "The Internet connection appears to be offline.";
    "Network request failed" ]%string.

Definition isNetworkError (message : string) : bool :=
  existsb (String.eqb message) networkErrorMsgs.

(** The errors after which the package does not try again: a
    [TypeError] whose message is not that of a network failure. *)
Definition notRetried (error : Error) : bool :=
  match error with
  | TypeError message => negb (isNetworkError message)
  | _ => false
  end.

(** [retry] is the function of the [p-retry] package (line 129), which
    is not part of the sources of the script; it is modelled from the
    contract of the package in its version 4.6 (later major versions
    cannot be loaded with [require]): [input] is run; when it throws an [AbortError] the retrying
    stops and the promise rejects with the original error; when it
    throws a [TypeError] that is not a network failure the retrying
    stops and the promise rejects with it; when it throws another error
    it is run again, as long as retries are left, of which there are
    [retries] after the first attempt; with none left the promise
    rejects with the error. The waits between attempts ([minTimeout],
    [factor]) only take time. *)
Fixpoint attempts {A} (input : nat -> M A) (retriesLeft attemptNumber : nat) : M A :=
  catch (input attemptNumber)
    (fun error =>
       match error with
       | AbortError message => throw (Err message)
       | _ =>
           if notRetried error then throw error
           else
             match retriesLeft with
             | O => throw error
             | S n => attempts input n (S attemptNumber)
             end
       end).

Definition retry {A} (input : nat -> M A) (options : RetryConfig) : M A :=
  attempts input (retries options) 1.

Section Script.
Context (env : Env).

Local Open Scope script_scope.

(** [Date.now()] *)
Definition dateNow : M Z :=
  fun st => (Ret (clock env (clockReads st)), countClockRead st).

(** [saveFeedData] (lines 98-108) *)
Definition saveFeedData (sourceUrl : string) (data : FeedData.t) : M unit :=
  let filePath := getSourceFilePath env sourceUrl in
  catch
    (if writeFails env filePath then
       do st <- get;
       do_ modify (leaveFile filePath
                     (afterFailedWrite env filePath (files st !! filePath)));
       throw (Err "writeFileSync")
     else modify (setFile filePath (Document data)))
    (fun error => throw (Err "保存源数据失败")).

(** [loadFeedData] (lines 111-125) *)
Definition loadFeedData (sourceUrl : string) : M (option FeedData.t) :=
  let filePath := getSourceFilePath env sourceUrl in
  catch
    (do st <- get;
     match files st !! filePath with
     | None => ret None
     | Some Unreadable => throw (Err "readFileSync")
     | Some (Malformed text) => throw (SyntaxError text)
     | Some (Document data) => ret (Some data)
     end)
    (fun error => ret None).

(** [generateSummaryWithLimit] (lines 151-205): one request to the
    service, sent through [apiQueue]; the loop of [updateFeed] awaits
    each request before the next, so the queue only delays it. *)
Definition generateSummaryWithLimit (title content : string) : M string :=
  catch
    (do st <- get;
     do_ modify countApiCall;
     match api env (apiCalls st) title content with
     | Rejected message => throw (TypeError message)
     | Response status text =>
         if status =? 429 then throw (AbortError "API速率限制已触发")
         else if negb (responseOk status) then throw (Err "API错误")
         else ret (JS.orStr text NO_SUMMARY)
     | NotJson status message =>
         if status =? 429 then throw (AbortError "API速率限制已触发")
         else if negb (responseOk status) then throw (Err "API错误")
         else throw (SyntaxError message)
     end)
    (fun error => throw error).

(** [fetchRssFeed] (lines 208-247) *)
Definition fetchRssFeed (url : string) : M Feed.t :=
  catch
    (match parseURL env url with
     | None => throw (Err "parseURL")
     | Some feed =>
         ret {| Feed.title := JS.orStr (RawFeed.title feed) EmptyString;
                Feed.description := JS.orStr (RawFeed.description feed) EmptyString;
                Feed.link := JS.orStr (RawFeed.link feed) EmptyString;
                Feed.items := map serializeItem (RawFeed.items feed) |}
     end)
    (fun error => throw (Err "获取RSS源失败")).

(** [await delay(60000 - (Date.now() - lastResetTime))] (line 334): the
    callee is looked up before the argument is evaluated. *)
Definition delay : M unit :=
  if resolvable "delay" then
    do now <- dateNow;
    ret tt
  else throw (ReferenceError "delay").

(** [newItemsForSummary.some(newItem => newItem.link === item.link)] *)
Definition isNewItem (newItemsForSummary : list Item) (item : Item) : bool :=
  existsb (fun newItem => String.eqb (link newItem) (link item)) newItemsForSummary.

Definition needsSummary (newItemsForSummary : list Item) (item : Item) : bool :=
  isNewItem newItemsForSummary item && negb (JS.truthy (summary item)).

Definition estimatedTokens (item : Item) : Z :=
  estimateTokens (String.length (title item ++ content item)).

(** Body of the loop of lines 323-354; the result is the entry pushed
    to [itemsWithSummaries]. *)
Definition summarizeItem (newItemsForSummary : list Item) (item : Item) : M Item :=
  if needsSummary newItemsForSummary item then
    do st <- get;
    do_ (if currentMinuteTokens st + estimatedTokens item >? 900000 then
           do_ log LogTokenPause;
           do_ delay;
           do_ modify (setTokens 0);
           do now <- dateNow;
           modify (setLastResetTime now)
         else ret tt);
    catch
      (do summary <- retry (fun _ => generateSummaryWithLimit (title item) (content item))
                       RETRY_CONFIG;
       do st <- get;
       do_ modify (setTokens (currentMinuteTokens st + estimatedTokens item));
       ret (withSummary item (Some summary)))
      (fun error =>
         do_ log (LogSummaryFailed (title item));
         ret (withSummary item (Some SUMMARY_FAILED)))
  else ret item.

Fixpoint summarizeLoop (newItemsForSummary items itemsWithSummaries : list Item)
  : M (list Item) :=
  match items with
  | [] => ret itemsWithSummaries
  | item :: rest =>
      do pushed <- summarizeItem newItemsForSummary item;
      summarizeLoop newItemsForSummary rest (itemsWithSummaries ++ [pushed])
  end.

(** [updateFeed] from line 310 on, given the loaded [existingData]. *)
Definition updateFrom (sourceUrl : string) (existingData : option FeedData.t)
  : M FeedData.t :=
  do newFeed <- fetchRssFeed sourceUrl;
  let merged :=
    Merge.mergeFeedItems
      (match existingData with Some data => FeedData.items data | None => [] end)
      (Feed.items newFeed)
      (Config.maxItemsPerFeed (config env)) in
  do itemsWithSummaries <-
    summarizeLoop (Merge.newItemsForSummary merged) (Merge.mergedItems merged) [];
  do now <- dateNow;
  let updatedData :=
    {| FeedData.sourceUrl := sourceUrl;
       FeedData.title := Feed.title newFeed;
       FeedData.description := Feed.description newFeed;
       FeedData.link := Feed.link newFeed;
       FeedData.items := itemsWithSummaries;
       FeedData.lastUpdated := now |} in
  do_ saveFeedData sourceUrl updatedData;
  ret updatedData.

(** [updateFeed] (lines 295-374) *)
Definition updateFeed (sourceUrl : string) : M FeedData.t :=
  do_ log (LogUpdate sourceUrl);
  catch
    (do now <- dateNow;
     do st <- get;
     do_ (if now - lastResetTime st >? 60 * 1000 then
            do_ modify (setTokens 0);
            modify (setLastResetTime now)
          else ret tt);
     do existingData <- loadFeedData sourceUrl;
     updateFrom sourceUrl existingData)
    (fun error =>
       do_ log (LogUpdateError sourceUrl);
       throw error).

(** The loop of [updateAllFeeds] (lines 382-390). *)
Fixpoint forSources (sources : list Source.t) (results : gmap string bool)
  : M (gmap string bool) :=
  match sources with
  | [] => ret results
  | source :: rest =>
      do ok <-
        catch
          (do_ updateFeed (Source.url source);
           ret true)
          (fun error =>
             do_ log (LogSourceFailed (Source.url source));
             ret false);
      forSources rest (<[Source.url source := ok]> results)
  end.

(** [updateAllFeeds] (lines 377-394) *)
Definition updateAllFeeds : M (gmap string bool) :=
  match Config.sources (config env) with
  | None => throw (TypeError "config.sources is not iterable")
  | Some sources => forSources sources ∅
  end.

(** [main] (lines 397-406); the result is the exit code. *)
Definition main : M Z :=
  catch
    (do_ updateAllFeeds;
     ret 0)
    (fun error => ret 1).

End Script.

(** The state in which [main] starts: no tokens counted,
    [lastResetTime] read from the clock. *)
Definition initialState (env : Env) (fs : gmap string File) : State :=
  {| currentMinuteTokens := 0; lastResetTime := clock env 0; files := fs;
     console := []; apiCalls := 0; clockReads := 1 |}.

(** ** Auxiliary notions for reasoning about the script *)

(** Two answers of the service that make a request fail: the status of
    the rate limit, which aborts the retrying, and another status that
    is not a success, after which the request is retried. *)
Definition rateLimited (r : ApiResponse) : bool :=
  match r with
  | Rejected _ => false
  | Response status _ | NotJson status _ => status =? 429
  end.

Definition failed (r : ApiResponse) : bool :=
  match r with
  | Rejected _ => false
  | Response status _ | NotJson status _ =>
      negb (status =? 429) && negb (responseOk status)
  end.

(** The requests sent while [m] runs from [st]. *)
Definition callsOf {A} (m : M A) (st : State) : nat :=
  (apiCalls (m st).2 - apiCalls st)%nat.

(** The retry bound as the specification words it. *)
Definition invokedAtMost (maxAttempts : nat) (env : Env) (title content : string)
    (st : State) : Prop :=
  (callsOf (retry (fun _ => generateSummaryWithLimit env title content) RETRY_CONFIG) st
   <= maxAttempts)%nat.

(** The tokens the entries of [items] still to be summarised would
    add. *)
Definition pendingTokens (newItemsForSummary items : list Item) : Z :=
  fold_right
    (fun item acc =>
       if needsSummary newItemsForSummary item then estimatedTokens item + acc else acc)
    0 items.

(** The sources whose update was started, in the order of the console. *)
Definition updatesStarted (lines : list LogLine) : list string :=
  flat_map (fun l => match l with LogUpdate u => [u] | _ => [] end) lines.

(** [m] starts no update of a source. *)
Definition quiet {A} (m : M A) : Prop :=
  forall st, updatesStarted (console (m st).2) = updatesStarted (console st).

(** The state in which the loop of [updateAllFeeds] goes on after the
    update of [sourceUrl] ended with [r] in [st]. *)
Definition afterSource (sourceUrl : string) {A} (r : Res A) (st : State) : State :=
  if isRet r then st else addLog (LogSourceFailed sourceUrl) st.

(** The previous entries [updateFeed] merges with, as [loadFeedData]
    finds them. *)
Definition previousItems (env : Env) (sourceUrl : string) (st : State) : list Item :=
  match files st !! getSourceFilePath env sourceUrl with
  | Some (Document data) => FeedData.items data
  | _ => []
  end.




(** The state a failed write of the snapshot of [sourceUrl] leaves. *)
Definition afterFailedSave (env : Env) (sourceUrl : string) (st : State) : State :=
  leaveFile (getSourceFilePath env sourceUrl)
    (afterFailedWrite env (getSourceFilePath env sourceUrl)
       (files st !! getSourceFilePath env sourceUrl)) st.

(** *** Sample surroundings *)

Definition rawEntry (l title content : string) : RawItem.t :=
  RawItem.mk (Some title) (Some l) None None (Some content) None None None.

Definition sampleFeed (entries : list RawItem.t) : RawFeed.t :=
  RawFeed.mk (Some "feed"%string) None None entries.

Definition sampleConfig (urls : list string) : Config.t :=
  Config.mk (Some (map (Source.mk "source") urls)) 10 "data".

(** A service that answers every request with status 500. *)
Definition serviceDown : nat -> string -> string -> ApiResponse :=
  fun _ _ _ => Response 500 None.

(** A service that answers every request with the text ["ok"]. *)
Definition serviceUp : nat -> string -> string -> ApiResponse :=
  fun _ _ _ => Response 200 (Some "ok"%string).

Definition sampleEnv (urls : list string) (feeds : string -> option RawFeed.t)
    (service : nat -> string -> string -> ApiResponse) : Env :=
  {| config := sampleConfig urls;
     getSourceFilePath := fun u => u;
     clock := fun n => 1000 * Z.of_nat n;
     parseURL := feeds;
     api := service;
     writeFails := fun _ => false;
     afterFailedWrite := fun _ previous => previous |}.

Definition oneFeed (u : string) (entries : list RawItem.t) : string -> option RawFeed.t :=
  fun v => if String.eqb v u then Some (sampleFeed entries) else None.

(** A service that fails the first [n] requests with status 500 and
    rejects the following ones by the rate limit. *)
Definition serviceLimitedAfter (n : nat) : nat -> string -> string -> ApiResponse :=
  fun i _ _ => if (i <? n)%nat then Response 500 None else Response 429 None.

(** The state after lines 296-304 of [updateFeed]: the start is logged,
    the clock is read and the token window is reset when it is over. *)
Definition enterUpdate (env : Env) (sourceUrl : string) (st : State) : State :=
  let now := clock env (clockReads st) in
  let st1 := countClockRead (addLog (LogUpdate sourceUrl) st) in
  if now - lastResetTime st >? 60 * 1000 then setLastResetTime now (setTokens 0 st1)
  else st1.

(** One source ["u"] whose feed has the entries [entries]. *)
Definition singleSource (entries : list RawItem.t)
    (service : nat -> string -> string -> ApiResponse) : Env :=
  sampleEnv ["u"%string] (oneFeed "u" entries) service.


(** A text of [n] characters. *)
Definition pad (n : N) : string := N.iter n (String "x"%char) EmptyString.

(** One source whose feed has one entry, with link ["a"], title ["t"]
    and the given content; the service is up. *)
Definition oneEntryEnv (content : string) : Env :=
  singleSource [rawEntry "a" "t" content] serviceUp.

(** Three sources, the second of which cannot be fetched. *)
Definition threeSources : Env :=
  sampleEnv ["a"; "b"; "c"]%string
    (fun u => if String.eqb u "b" then None else Some (sampleFeed [rawEntry u "t" "c"]))
    serviceUp.

(** A data directory in which the file of the source ["u"] is not JSON. *)
Definition corruptedFiles : gmap string File :=
  {[ "u"%string := Malformed "{ items: ["%string ]}.


(** ** Further auxiliary notions *)

(** While the second loop of [mergeFeedItems] runs from the table
    [m0]: the table [m] keeps the keys of [m0]; every other key of [m]
    is the link of an entry of [acc]; every entry of [acc] has a link
    that is no key of [m0] and is a key of [m]; the links of [acc] are
    pairwise distinct. *)
Definition tracks (m0 m : gmap string Item) (acc : list Item) : Prop :=
  (forall k, is_Some (m0 !! k) -> is_Some (m !! k))
  /\ (forall k, is_Some (m !! k) ->
        is_Some (m0 !! k) \/ exists x, In x acc /\ link x = k)
  /\ (forall x, In x acc ->
        hasLink x = true /\ m0 !! link x = None /\ is_Some (m !! link x))
  /\ NoDup (map link acc).

(** An answer of the service that makes a request succeed. *)
Definition succeeds (r : ApiResponse) : bool :=
  match r with
  | Rejected _ | NotJson _ _ => false
  | Response status _ => negb (status =? 429) && responseOk status
  end.

(** The text a successful answer is turned into. *)
Definition textOf (r : ApiResponse) : string :=
  match r with
  | Rejected _ | NotJson _ _ => NO_SUMMARY
  | Response _ text => JS.orStr text NO_SUMMARY
  end.

(** [st] but for the number of requests. *)
Definition withApiCalls (n : nat) (st : State) : State :=
  mkState (currentMinuteTokens st) (lastResetTime st) (files st) (console st)
    n (clockReads st).

(** Every run of [m] relates the state it starts from to the state it
    ends in by [R], whether it returns or throws. *)
Definition respects {A} (R : State -> State -> Prop) (m : M A) : Prop :=
  forall st, R st (m st).2.

(** The token count is within its bounds. *)
Definition tokensInBounds (st : State) : Prop :=
  0 <= currentMinuteTokens st <= 900000.

Definition keepsTokensInBounds (st st' : State) : Prop :=
  tokensInBounds st -> tokensInBounds st'.

Definition sameFiles (st st' : State) : Prop := files st' = files st.

(** At most [n] requests are sent between [st] and [st']. *)
Definition atMostCalls (n : nat) (st st' : State) : Prop :=
  (apiCalls st <= apiCalls st' <= apiCalls st + n)%nat.

(** The character [c] occurs in [s]. *)
Definition occurs (c : ascii) (s : string) : Prop :=
  In c (String.list_ascii_of_string s).

(** ** The name of the file of a source (lines 90-95) *)

(** [Buffer.from(sourceUrl).toString('base64').replace(/[/+=]/g, '_')];
    the address is given by the bytes [Buffer.from] yields, those of its
    UTF-8 encoding, one character of the string per byte. *)
Module FileName.

Definition alphabet : string :=
  "ABCDEFGHIJKLMNOPQRSTUVWXYZabcdefghijklmnopqrstuvwxyz0123456789+/".

Definition padding : ascii := "="%char.

Definition digitAt (n : nat) : ascii := default padding (String.get n alphabet).

(** The character of the 6-bit value [i]. *)
Definition digit (i : Z) : ascii := digitAt (Z.to_nat i).

Definition byte (c : ascii) : Z := Z.of_N (N_of_ascii c).

(** The base64 text of a sequence of bytes: three bytes give four
    characters, and an incomplete last group is padded. *)
Fixpoint encode (bytes : list ascii) : list ascii :=
  match bytes with
  | [] => []
  | [a] =>
      [digit (byte a / 4); digit (byte a mod 4 * 16); padding; padding]
  | [a; b] =>
      [digit (byte a / 4); digit (byte a mod 4 * 16 + byte b / 16);
       digit (byte b mod 16 * 4); padding]
  | a :: b :: c :: rest =>
      digit (byte a / 4)
      :: digit (byte a mod 4 * 16 + byte b / 16)
      :: digit (byte b mod 16 * 4 + byte c / 64)
      :: digit (byte c mod 64)
      :: encode rest
  end.

(** [.replace(/[/+=]/g, '_')] on one character. *)
Definition sanitize (c : ascii) : ascii :=
  if Ascii.eqb c "/" || Ascii.eqb c "+" || Ascii.eqb c "=" then "_"%char else c.

Definition sourceHash (sourceUrl : string) : string :=
  String.string_of_list_ascii (map sanitize (encode (String.list_ascii_of_string sourceUrl))).

(** The last component of [getSourceFilePath sourceUrl]. *)
Definition sourceFileName (sourceUrl : string) : string :=
  (sourceHash sourceUrl ++ ".json")%string.

(** A letter, a digit or the underscore. *)
Definition isWordChar (c : ascii) : bool :=
  let n := byte c in
  ((65 <=? n) && (n <=? 90)) || ((97 <=? n) && (n <=? 122))
  || ((48 <=? n) && (n <=? 57)) || (n =? 95).

(** An ASCII character other than [>] and DEL, the two characters that
    no address contains unescaped. *)
Definition plainChar (c : ascii) : Prop :=
  0 <= byte c < 128 /\ byte c <> 62 /\ byte c <> 127.

End FileName.

(** [getSourceFilePath sourceUrl] (lines 90-95) for the data directory
    [dataDir], a normalised path that does not end with a separator. *)
Definition sourceFilePath (dataDir sourceUrl : string) : string :=
  (dataDir ++ "/" ++ FileName.sourceFileName sourceUrl)%string.

(** The surroundings [env] with the files named as the script names
    them. *)
Definition onDisk (dataDir : string) (env : Env) : Env :=
  {| config := config env;
     getSourceFilePath := sourceFilePath dataDir;
     clock := clock env;
     parseURL := parseURL env;
     api := api env;
     writeFails := writeFails env;
     afterFailedWrite := afterFailedWrite env |}.

(** ** The content sent to the service (lines 153-156 and 171) *)

Module Clean.

(** [\s] on the code units below 256. *)
Definition isSpace (c : ascii) : bool :=
  let n := FileName.byte c in
  ((9 <=? n) && (n <=? 13)) || (n =? 32) || (n =? 160).

(** [.replace(/<[^>]*>?/gm, "")]: from every [<] outside of a match, the
    text up to and including the next [>], or up to the end when there
    is none, is removed; [inTag] tells whether a match is open. *)
Fixpoint stripFrom (inTag : bool) (s : string) : string :=
  match s with
  | EmptyString => EmptyString
  | String c rest =>
      if inTag then
        if Ascii.eqb c ">" then stripFrom false rest else stripFrom true rest
      else if Ascii.eqb c "<" then stripFrom true rest
      else String c (stripFrom false rest)
  end.

Definition stripTags (s : string) : string := stripFrom false s.

(** [.replace(/\s{2,}/g, " ")]: every maximal run of two or more
    white-space characters becomes one blank; a single one stays. *)
Inductive Run :=
| Outside
| One (c : ascii)
| Many.

Fixpoint collapseFrom (run : Run) (s : string) : string :=
  match s with
  | EmptyString =>
      match run with
      | One p => String p EmptyString
      | _ => EmptyString
      end
  | String c rest =>
      if isSpace c then
        match run with
        | Outside => collapseFrom (One c) rest
        | One _ => String " " (collapseFrom Many rest)
        | Many => collapseFrom Many rest
        end
      else
        match run with
        | One p => String p (String c (collapseFrom Outside rest))
        | _ => String c (collapseFrom Outside rest)
        end
  end.

Definition collapseSpaces (s : string) : string := collapseFrom Outside s.

(** [s.slice(0, n)] for a count [n]. *)
Definition sliceTo (n : Z) (s : string) : string := String.substring 0 (Z.to_nat n) s.

(** [cleanContent] (lines 153-156) *)
Definition cleanContent (content : string) : string :=
  sliceTo 3000 (collapseSpaces (stripTags content)).

(** [cleanContent.slice(0, 5000)], the content as the prompt has it
    (line 171). *)
Definition promptContent (content : string) : string :=
  sliceTo 5000 (cleanContent content).

(** The last character of [s] is white space. *)
Fixpoint endsInSpace (s : string) : bool :=
  match s with
  | EmptyString => false
  | String c EmptyString => isSpace c
  | String _ rest => endsInSpace rest
  end.

(** Every character of [s] is white space. *)
Fixpoint allSpace (s : string) : bool :=
  match s with
  | EmptyString => true
  | String c rest => isSpace c && allSpace rest
  end.

(** [s] starts with white space. *)
Definition startsWithSpace (s : string) : bool :=
  match s with
  | EmptyString => false
  | String c _ => isSpace c
  end.

(** No two neighbours in [s] are both white space. *)
Fixpoint noDoubleSpace (s : string) : Prop :=
  match s with
  | EmptyString => True
  | String c rest =>
      match rest with
      | EmptyString => True
      | String d _ => (isSpace c = true -> isSpace d = false) /\ noDoubleSpace rest
      end
  end.

End Clean.

(** ** The settings read from the environment (lines 60-78) *)

Module Settings.

Definition GEMINI_API_KEY (processEnv : gmap string string) : option string :=
  processEnv !! "LLM_API_KEY"%string.

Definition GEMINI_API_BASE (processEnv : gmap string string) : string :=
  JS.orStr (processEnv !! "LLM_API_BASE"%string)
    "https://generativelanguage.googleapis.com/v1beta/models/".

Definition GEMINI_MODEL_NAME (processEnv : gmap string string) : string :=
  JS.orStr (processEnv !! "LLM_NAME"%string) "gemini-2.0-flash".

(** The three checks of lines 65-78: the exit code when one of them
    ends the process. *)
Definition checkSettings (processEnv : gmap string string) : option Z :=
  if negb (JS.truthy (GEMINI_API_KEY processEnv)) then Some 1
  else if negb (JS.truthyStr (GEMINI_API_BASE processEnv)) then Some 1
  else if negb (JS.truthyStr (GEMINI_MODEL_NAME processEnv)) then Some 1
  else None.

(** The script from line 60 on: the checks, then [main]; the result is
    the exit code. *)
Definition script (processEnv : gmap string string) (env : Env) (st : State)
  : Res Z * State :=
  match checkSettings processEnv with
  | Some code => (Ret code, st)
  | None => main env st
  end.

End Settings.

(** ** The environment file (lines 7-42) *)

Module Dotenv.

(** [[\w.-]] *)
Definition isKeyChar (c : ascii) : bool :=
  FileName.isWordChar c || Ascii.eqb c "." || Ascii.eqb c "-".

(** [.]: any character but a line terminator. *)
Definition isDot (c : ascii) : bool :=
  negb (Ascii.eqb c "010" || Ascii.eqb c "013").

Definition quote : ascii := "034"%char.

(** Every character of [s] is in the class. *)
Fixpoint allChars (cls : ascii -> bool) (s : string) : bool :=
  match s with
  | EmptyString => true
  | String c rest => cls c && allChars cls rest
  end.

(** [s] starts with a character of the class. *)
Definition headIn (cls : ascii -> bool) (s : string) : bool :=
  match s with
  | EmptyString => false
  | String c _ => cls c
  end.

(** The matcher of the pattern of a line: each piece takes the text
    that is left and the continuation of the match, which is given the
    text the piece has matched and the text after it; a piece that can
    match in several ways tries them in the order of the pattern
    language, the longest first, until the continuation succeeds. *)
Section Matcher.
Context {R : Type}.

(** [cls*] *)
Fixpoint star (cls : ascii -> bool) (s : string)
    (k : string -> string -> option R) : option R :=
  match s with
  | EmptyString => k EmptyString s
  | String c rest =>
      if cls c then
        match star cls rest (fun matched => k (String c matched)) with
        | Some r => Some r
        | None => k EmptyString s
        end
      else k EmptyString s
  end.

(** [cls+] *)
Definition plus (cls : ascii -> bool) (s : string)
    (k : string -> string -> option R) : option R :=
  match s with
  | EmptyString => None
  | String c rest =>
      if cls c then star cls rest (fun matched => k (String c matched)) else None
  end.

(** One given character. *)
Definition chr (c : ascii) (s : string) (k : string -> option R) : option R :=
  match s with
  | EmptyString => None
  | String d rest => if Ascii.eqb d c then k rest else None
  end.

(** [(p)?]: the group first, where a match of the empty text does not
    count, then without it, the group being undefined. *)
Definition optional (p : string -> (string -> string -> option R) -> option R)
    (s : string) (k : option string -> string -> option R) : option R :=
  match p s (fun matched rest =>
               match matched with
               | EmptyString => None
               | _ => k (Some matched) rest
               end) with
  | Some r => Some r
  | None => k None s
  end.

(** [$] *)
Definition eol (s : string) (r : R) : option R :=
  match s with
  | EmptyString => Some r
  | _ => None
  end.

End Matcher.

(** [line.match] with the pattern of line 11, piece by piece: white
    space, the key (group 1), white space, [=], white space, the
    optional text without line terminators (group 2), white space, the
    end of the line. The result is the two groups, or [None] when the
    line does not match. *)
Definition matchLine (line : string) : option (string * option string) :=
  star Clean.isSpace line (fun _ s1 =>
  plus isKeyChar s1 (fun key s2 =>
  star Clean.isSpace s2 (fun _ s3 =>
  chr "=" s3 (fun s4 =>
  star Clean.isSpace s4 (fun _ s5 =>
  optional (star isDot) s5 (fun value s6 =>
  star Clean.isSpace s6 (fun _ s7 =>
  eol s7 (key, value)))))))).

Fixpoint endsWith (c : ascii) (s : string) : bool :=
  match s with
  | EmptyString => false
  | String d EmptyString => Ascii.eqb d c
  | String _ rest => endsWith c rest
  end.

(** A quote at the end of [s] is removed. *)
Fixpoint dropLastQuote (s : string) : string :=
  match s with
  | EmptyString => EmptyString
  | String d EmptyString => if Ascii.eqb d quote then EmptyString else s
  | String d rest => String d (dropLastQuote rest)
  end.

(** The [replace] of line 16, which removes every match of: a quote
    at the start, or a quote at the end. The quote at the start is
    removed, and a quote at the end of what follows it. *)
Definition stripQuotes (s : string) : string :=
  match s with
  | EmptyString => EmptyString
  | String d rest => if Ascii.eqb d quote then dropLastQuote rest else dropLastQuote s
  end.

(** Lines 15-17: a value that starts and ends with a quote loses
    them. *)
Definition unquote (value : string) : string :=
  if headIn (Ascii.eqb quote) value && endsWith quote value
  then stripQuotes value
  else value.

(** The key and the value a line assigns (lines 11-17). *)
Definition assignment (line : string) : option (string * string) :=
  match matchLine line with
  | Some (key, group2) => Some (key, unquote (JS.orStr group2 EmptyString))
  | None => None
  end.

(** The line assigns the variable [key]. *)
Definition assigns (key line : string) : Prop :=
  exists value, assignment line = Some (key, value).

(** The body of the [forEach] (lines 10-20) for one line. *)
Definition setLine (processEnv : gmap string string) (line : string)
  : gmap string string :=
  match assignment line with
  | Some (key, value) => <[key := value]> processEnv
  | None => processEnv
  end.

(** [s.split('\n')] *)
Fixpoint splitLines (s : string) : list string :=
  match s with
  | EmptyString => [EmptyString]
  | String c rest =>
      if Ascii.eqb c "010" then EmptyString :: splitLines rest
      else match splitLines rest with
           | line :: lines => String c line :: lines
           | [] => [String c EmptyString]
           end
  end.

Definition loadContent (content : string) (processEnv : gmap string string)
  : gmap string string :=
  fold_left setLine (splitLines content) processEnv.

(** Lines 7-42: [dotenv] and [localEnv] are the contents of [.env] and
    of [.env.local], [None] for a file that does not exist; a file that
    exists is taken to be readable. *)
Definition loadDotenv (dotenv localEnv : option string)
    (processEnv : gmap string string) : gmap string string :=
  match dotenv with
  | Some content => loadContent content processEnv
  | None =>
      match localEnv with
      | Some content => loadContent content processEnv
      | None => processEnv
      end
  end.

(** The whole script: the environment file, the settings, [main]. *)
Definition run (dotenv localEnv : option string) (processEnv : gmap string string)
    (env : Env) (st : State) : Res Z * State :=
  Settings.script (loadDotenv dotenv localEnv processEnv) env st.

End Dotenv.
(** * Properties *)

(** ** Facts about the JavaScript operators *)

Module JSFacts.

Lemma truthyStr_true s : JS.truthyStr s = true <-> s <> EmptyString.
Proof.
  unfold JS.truthyStr. rewrite negb_true_iff. apply String.eqb_neq.
Qed.

Lemma or_truthy a b : JS.truthy a = true -> JS.or a b = a.
Proof. unfold JS.or. intros ->. reflexivity. Qed.

Lemma or_falsy a b : JS.truthy a = false -> JS.or a b = b.
Proof. unfold JS.or. intros ->. reflexivity. Qed.

Lemma or_same a : JS.or a a = a.
Proof. unfold JS.or. destruct (JS.truthy a); reflexivity. Qed.

Lemma slice0_nonneg {A} (n : Z) (l : list A) :
  0 <= n -> JS.slice0 n l = take (Z.to_nat n) l.
Proof.
  intros Hn. unfold JS.slice0.
  destruct (Z.ltb_spec n 0) as [Hlt|_]; [lia|].
  destruct (Z.le_gt_cases n (Z.of_nat (length l))) as [Hle|Hgt].
  - rewrite Z.min_l by assumption. reflexivity.
  - rewrite Z.min_r by lia. rewrite Nat2Z.id.
    rewrite firstn_all. symmetry. apply firstn_all2. lia.
Qed.

Lemma slice0_take {A} (n : Z) (l : list A) :
  exists k, JS.slice0 n l = take k l.
Proof. unfold JS.slice0. eexists. reflexivity. Qed.

Lemma slice0_map {A B} (f : A -> B) (n : Z) (l : list A) :
  map f (JS.slice0 n l) = JS.slice0 n (map f l).
Proof.
  unfold JS.slice0. rewrite length_map. symmetry. apply firstn_map.
Qed.

Lemma slice0_all {A} (n : Z) (l : list A) :
  Z.of_nat (length l) <= n -> JS.slice0 n l = l.
Proof.
  intros Hn. rewrite slice0_nonneg by lia. apply firstn_all2. lia.
Qed.

Lemma slice0_In {A} (n : Z) (l : list A) x : In x (JS.slice0 n l) -> In x l.
Proof.
  destruct (slice0_take n l) as [k ->]. intros Hx.
  rewrite <- (take_drop k l). apply in_or_app. left. exact Hx.
Qed.

Lemma slice0_NoDup {A} (n : Z) (l : list A) : NoDup l -> NoDup (JS.slice0 n l).
Proof.
  destruct (slice0_take n l) as [k ->]. intros Hl.
  rewrite <- (take_drop k l) in Hl. apply NoDup_app in Hl. tauto.
Qed.

Lemma slice0_length {A} (n : Z) (l : list A) :
  0 <= n -> Z.of_nat (length (JS.slice0 n l)) = Z.min n (Z.of_nat (length l)).
Proof.
  intros Hn. rewrite slice0_nonneg by assumption.
  rewrite length_firstn. lia.
Qed.

End JSFacts.

(** ** Facts about [mergeFeedItems] *)

Module MergeFacts.
Import Merge MergeInv JSFacts.

Lemma addNew_fst m acc item : (addNew (m, acc) item).1 = nextMap m item.
Proof. unfold addNew, nextMap. destruct (hasLink item); reflexivity. Qed.

Lemma fold_addNew_fst l : forall m acc,
  (fold_left addNew l (m, acc)).1 = fold_left nextMap l m.
Proof.
  induction l as [|x l IH]; intros m acc; cbn [fold_left]; [reflexivity|].
  destruct (addNew (m, acc) x) as [m' acc'] eqn:E.
  rewrite IH. f_equal. rewrite <- (addNew_fst m acc x), E. reflexivity.
Qed.

Lemma mergedItems_unfold oldItems newItems maxItems :
  mergedItems (mergeFeedItems oldItems newItems maxItems) =
  JS.slice0 maxItems
    (map (pick (finalMap oldItems newItems))
       (List.filter
          (fun item => hasLink item && has (finalMap oldItems newItems) (link item))
          newItems)).
Proof.
  unfold mergeFeedItems, finalMap, oldMap.
  pose proof (fold_addNew_fst newItems (fold_left addOld oldItems ∅) []) as E.
  destruct (fold_left addNew newItems (fold_left addOld oldItems ∅, []))
    as [m acc]. simpl in *. subst m. reflexivity.
Qed.

Lemma newItemsForSummary_unfold oldItems newItems maxItems :
  newItemsForSummary (mergeFeedItems oldItems newItems maxItems) =
  (fold_left addNew newItems (oldMap oldItems, [])).2.
Proof.
  unfold mergeFeedItems, oldMap.
  destruct (fold_left addNew newItems (fold_left addOld oldItems ∅, []))
    as [m acc]. reflexivity.
Qed.

(** *** Every key of the table maps to an entry carrying that link *)

Lemma link_withSummary item s : link (withSummary item s) = link item.
Proof. reflexivity. Qed.

Lemma summary_withSummary item s : summary (withSummary item s) = s.
Proof. reflexivity. Qed.

Lemma withSummary_same item : withSummary item (summary item) = item.
Proof. destruct item; reflexivity. Qed.

Lemma nextMap_other m item k : link item <> k -> nextMap m item !! k = m !! k.
Proof.
  intros Hne. unfold nextMap. destruct (hasLink item); [|reflexivity].
  apply lookup_insert_ne. exact Hne.
Qed.

Lemma nextMap_self m item :
  hasLink item = true ->
  nextMap m item !! link item =
  Some (withSummary item (JS.or (summaryOf (m !! link item)) (summary item))).
Proof. intros H. unfold nextMap. rewrite H. apply lookup_insert_eq. Qed.

Lemma nextMap_nolink m item : hasLink item = false -> nextMap m item = m.
Proof. intros H. unfold nextMap. rewrite H. reflexivity. Qed.

Lemma nextMap_keyed m item k : keyed m k -> keyed (nextMap m item) k.
Proof.
  intros (e & He & Hk).
  destruct (hasLink item) eqn:Hl; [|rewrite nextMap_nolink; [exists e|]; auto].
  destruct (decide (link item = k)) as [<-|Hne].
  - eexists. split; [apply nextMap_self; exact Hl|reflexivity].
  - exists e. rewrite nextMap_other by exact Hne. auto.
Qed.

Lemma fold_nextMap_keyed l : forall m k,
  keyed m k -> keyed (fold_left nextMap l m) k.
Proof.
  induction l as [|x l IH]; intros m k H; simpl; [exact H|].
  apply IH, nextMap_keyed, H.
Qed.

Lemma fold_nextMap_In l : forall m f,
  In f l -> hasLink f = true -> keyed (fold_left nextMap l m) (link f).
Proof.
  induction l as [|x l IH]; intros m f Hin Hl; simpl; [destruct Hin|].
  destruct Hin as [->|Hin].
  - apply fold_nextMap_keyed. eexists.
    split; [apply nextMap_self; exact Hl|reflexivity].
  - apply IH; assumption.
Qed.

(** The [has] test of the final filter never rejects an entry. *)
Lemma get_present oldItems newItems f :
  In f newItems -> hasLink f = true ->
  has (finalMap oldItems newItems) (link f) = true.
Proof.
  intros Hin Hl. unfold has, finalMap.
  destruct (fold_nextMap_In newItems (oldMap oldItems) f Hin Hl) as (e & -> & _).
  reflexivity.
Qed.

Lemma filter_has oldItems newItems :
  List.filter
    (fun item => hasLink item && has (finalMap oldItems newItems) (link item))
    newItems
  = List.filter hasLink newItems.
Proof.
  apply filter_ext_in. intros f Hin.
  destruct (hasLink f) eqn:Hl; [|reflexivity].
  rewrite (get_present _ _ _ Hin Hl). reflexivity.
Qed.

Lemma mergedItems_pick oldItems newItems maxItems :
  mergedItems (mergeFeedItems oldItems newItems maxItems) =
  map (pick (finalMap oldItems newItems))
    (JS.slice0 maxItems (List.filter hasLink newItems)).
Proof.
  rewrite mergedItems_unfold, filter_has. symmetry. apply slice0_map.
Qed.

Lemma pick_link oldItems newItems f :
  In f newItems -> link (pick (finalMap oldItems newItems) f) = link f.
Proof.
  intros Hin. unfold pick. destruct (hasLink f) eqn:Hl; [|reflexivity].
  destruct (fold_nextMap_In newItems (oldMap oldItems) f Hin Hl) as (e & He & Hk).
  unfold finalMap. rewrite He. exact Hk.
Qed.

(** The links of the merged entries are those of the linked fresh
    entries, in order, cut by [slice]. *)
Lemma mergedItems_links oldItems newItems maxItems :
  map link (mergedItems (mergeFeedItems oldItems newItems maxItems)) =
  JS.slice0 maxItems (map link (List.filter hasLink newItems)).
Proof.
  rewrite mergedItems_unfold, filter_has, slice0_map, map_map.
  f_equal. apply map_ext_in. intros f Hf.
  apply pick_link. apply filter_In in Hf. tauto.
Qed.

End MergeFacts.

(** ** The merge properties of the specification *)

Module MergeProps.
Import Merge MergeInv JSFacts MergeFacts.

(** *** The scenarios of the specification *)

Example scenario_keep_summary :
  mergeFeedItems [entry "a" (Some "S")] [entry "a" None; entry "b" None] 10
  = mkResult [entry "a" (Some "S"); entry "b" None] [entry "b" None].
Proof. vm_compute. reflexivity. Qed.

Example scenario_truncate :
  mergedItems (mergeFeedItems [] [entry "x" None; entry "y" None] 1)
  = [entry "x" None].
Proof. vm_compute. reflexivity. Qed.

Example scenario_no_link :
  mergedItems (mergeFeedItems [] [entry EmptyString None; entry "y" None] 5)
  = [entry "y" None].
Proof. vm_compute. reflexivity. Qed.

(** *** The lookup built from the previous entries *)

Lemma addOld_other m item k : link item <> k -> addOld m item !! k = m !! k.
Proof.
  intros Hne. unfold addOld. destruct (hasLink item); [|reflexivity].
  apply lookup_insert_ne. exact Hne.
Qed.

Lemma fold_addOld_other l : forall m k,
  Forall (fun x => link x <> k) l -> fold_left addOld l m !! k = m !! k.
Proof.
  induction l as [|x l IH]; intros m k Hl; simpl; [reflexivity|].
  inversion Hl; subst. rewrite IH by assumption. apply addOld_other. assumption.
Qed.

(** The lookup holds, for a link, the last previous entry carrying it. *)
Lemma oldMap_last l1 o l2 :
  hasLink o = true -> Forall (fun x => link x <> link o) l2 ->
  oldMap (l1 ++ o :: l2) !! link o = Some o.
Proof.
  intros Ho Hl2. unfold oldMap. rewrite fold_left_app. simpl.
  rewrite fold_addOld_other by exact Hl2.
  unfold addOld. rewrite Ho. apply lookup_insert_eq.
Qed.

Lemma oldMap_NoDup items i :
  NoDup (map link items) -> In i items -> hasLink i = true ->
  oldMap items !! link i = Some i.
Proof.
  intros Hnd Hin Hl. destruct (in_split _ _ Hin) as (l1 & l2 & ->).
  apply oldMap_last; [exact Hl|].
  rewrite map_app in Hnd. simpl in Hnd.
  apply NoDup_app in Hnd as (_ & _ & Hnd).
  apply NoDup_cons in Hnd as [Hnotin _].
  apply List.Forall_forall. intros x Hx Heq. apply Hnotin.
  rewrite <- Heq. apply list_elem_of_In, in_map. exact Hx.
Qed.

(** *** A non-empty summary stays in the table *)

Lemma nextMap_holds s m item k :
  JS.truthy s = true -> holds s m k -> holds s (nextMap m item) k.
Proof.
  intros Hs (e & He & Hk & Hse).
  destruct (hasLink item) eqn:Hl.
  2:{ rewrite nextMap_nolink by exact Hl. exists e. auto. }
  destruct (decide (link item = k)) as [Heq|Hne].
  - rewrite <- Heq in He |- *. eexists.
    split; [apply nextMap_self; exact Hl|].
    split; [reflexivity|]. rewrite He. simpl. rewrite Hse.
    apply or_truthy. exact Hs.
  - exists e. rewrite nextMap_other by exact Hne. auto.
Qed.

Lemma fold_nextMap_holds s l : forall m k,
  JS.truthy s = true -> holds s m k -> holds s (fold_left nextMap l m) k.
Proof.
  induction l as [|x l IH]; intros m k Hs H; simpl; [exact H|].
  apply IH; [exact Hs|]. apply nextMap_holds; assumption.
Qed.

Lemma pick_lookup m f e :
  hasLink f = true -> m !! link f = Some e -> pick m f = e.
Proof. intros Hl He. unfold pick. rewrite Hl, He. reflexivity. Qed.

Lemma In_sliced_filter maxItems newItems f :
  In f (JS.slice0 maxItems (List.filter hasLink newItems)) ->
  In f newItems /\ hasLink f = true.
Proof. intros Hf. apply slice0_In in Hf. apply filter_In in Hf. exact Hf. Qed.

(** C1, as stated, fails: with [maxItems = 1] the fresh entry that
    shares the link of the summarised previous entry lies beyond the
    cut, so no merged entry carries that link. *)
Lemma summary_preserved_fails :
  ~ summaryPreserved [entry "a" (Some "S")] [entry "x" None; entry "a" None] 1.
Proof.
  intros H. destruct (H (entry "a" (Some "S"))) as (m & Hin & Hl & _).
  - left. reflexivity.
  - reflexivity.
  - exists (entry "a" None). split; [right; left; reflexivity|split; reflexivity].
  - vm_compute in Hin. destruct Hin as [<-|[]]. discriminate Hl.
Qed.

(** Two further inputs on which the statement of the specification
    fails: an entry without a link is never merged, and of two previous
    entries with one link only the later one is looked up. *)
Example summary_preserved_needs_link :
  ~ summaryPreserved [entry EmptyString (Some "S")] [entry EmptyString None] 10.
Proof.
  intros H. destruct (H (entry EmptyString (Some "S"))) as (m & Hin & _).
  - left. reflexivity.
  - reflexivity.
  - exists (entry EmptyString None). split; [left; reflexivity|split; reflexivity].
  - vm_compute in Hin. destruct Hin.
Qed.

Example summary_preserved_needs_last :
  ~ summaryPreserved [entry "a" (Some "S1"); entry "a" (Some "S2")] [entry "a" None] 10.
Proof.
  intros H. destruct (H (entry "a" (Some "S1"))) as (m & Hin & _ & Hs).
  - left. reflexivity.
  - reflexivity.
  - exists (entry "a" None). split; [left; reflexivity|split; reflexivity].
  - vm_compute in Hin. destruct Hin as [<-|[]]. discriminate Hs.
Qed.

(** C1 (amended): a previous entry [o] with a non-empty link and a
    non-empty summary, being the last previous entry with that link,
    keeps its summary: whenever a fresh entry with the same link is
    among the linked fresh entries that survive the cut at
    [maxItems], [mergedItems] contains an entry with that link whose
    summary is the one of [o]. *)
Theorem summary_preserved l1 o l2 newItems maxItems f :
  hasLink o = true ->
  JS.truthy (summary o) = true ->
  Forall (fun x => link x <> link o) l2 ->
  In f (JS.slice0 maxItems (List.filter hasLink newItems)) ->
  link f = link o ->
  exists m, In m (mergedItems (mergeFeedItems (l1 ++ o :: l2) newItems maxItems))
            /\ link m = link o /\ summary m = summary o.
Proof.
  intros Ho Hs Hl2 Hf Hk.
  destruct (In_sliced_filter _ _ _ Hf) as [Hin Hfl].
  assert (Hfin : holds (summary o) (finalMap (l1 ++ o :: l2) newItems) (link o)).
  { apply fold_nextMap_holds; [exact Hs|].
    exists o. split; [apply oldMap_last; assumption|]. split; reflexivity. }
  destruct Hfin as (e & He & Hke & Hse).
  exists e. split; [|split; assumption].
  rewrite mergedItems_pick.
  rewrite <- (pick_lookup (finalMap (l1 ++ o :: l2) newItems) f e Hfl).
  - apply in_map. exact Hf.
  - rewrite Hk. exact He.
Qed.

Lemma summary_preserved_witness :
  exists m,
    In m (mergedItems
            (mergeFeedItems ([] ++ entry "a" (Some "S") :: [entry "b" None])
               [entry "c" None; entry "a" None] 2))
    /\ link m = "a" /\ summary m = Some "S".
Proof.
  apply (summary_preserved [] (entry "a" (Some "S")) [entry "b" None]
           [entry "c" None; entry "a" None] 2 (entry "a" None)).
  - reflexivity.
  - reflexivity.
  - repeat constructor. discriminate.
  - vm_compute. right. left. reflexivity.
  - reflexivity.
Defined.

(** *** Uniqueness of links *)

(** Two fresh entries with one link both reach the merged output. *)
Lemma merged_links_not_unique :
  ~ NoDup (map link
             (mergedItems
                (mergeFeedItems [] [entry "a" None; entry "a" None] 10))).
Proof.
  vm_compute. intros H. apply NoDup_cons in H as [Hnotin _].
  apply Hnotin. left.
Qed.

(** Whenever the fresh entries that have a link carry pairwise distinct
    links, no two entries of [mergedItems] share a link, for every
    previous list and every [maxItems]. *)
Lemma merged_links_unique oldItems newItems maxItems :
  NoDup (map link (List.filter hasLink newItems)) ->
  NoDup (map link (mergedItems (mergeFeedItems oldItems newItems maxItems))).
Proof.
  intros Hnd. rewrite mergedItems_links. apply slice0_NoDup. exact Hnd.
Qed.

Lemma pick_same_link m f1 f2 :
  hasLink f1 = true -> link f2 = link f1 -> pick m f2 = pick m f1 \/ m !! link f1 = None.
Proof.
  intros Hl Heq. unfold pick, hasLink. rewrite Heq. fold (hasLink f1). rewrite Hl.
  destruct (m !! link f1) as [e|]; [left; reflexivity|right; reflexivity].
Qed.

(** C2: [mergeFeedItems] does not keep the links of [mergedItems]
    distinct. Whenever two fresh entries carry the same link and
    [maxItems] cuts nothing, whatever the previous list and the other
    fresh entries are, both reach [mergedItems]: the list has one and
    the same entry at both positions (the table built by link holds one
    entry per link, and the list is read off the fresh list position by
    position), so that the link occurs twice and the fields of one of
    the two fresh entries are lost. *)
Theorem duplicate_link_merged_twice oldItems l1 f1 l2 f2 l3 maxItems :
  hasLink f1 = true -> link f2 = link f1 ->
  Z.of_nat (length (List.filter hasLink (l1 ++ f1 :: l2 ++ f2 :: l3))) <= maxItems ->
  (exists a m b c,
     mergedItems (mergeFeedItems oldItems (l1 ++ f1 :: l2 ++ f2 :: l3) maxItems)
     = a ++ m :: b ++ m :: c
     /\ link m = link f1
     /\ length a = length (List.filter hasLink l1)
     /\ length b = length (List.filter hasLink l2))
  /\ ~ NoDup (map link
                (mergedItems
                   (mergeFeedItems oldItems (l1 ++ f1 :: l2 ++ f2 :: l3) maxItems))).
Proof.
  intros Hl Heq Hmax.
  assert (Hl2 : hasLink f2 = true) by (unfold hasLink in *; rewrite Heq; exact Hl).
  set (newItems := l1 ++ f1 :: l2 ++ f2 :: l3) in *.
  assert (Hin1 : In f1 newItems) by (apply in_or_app; right; left; reflexivity).
  assert (Hshape :
    mergedItems (mergeFeedItems oldItems newItems maxItems)
    = map (pick (finalMap oldItems newItems)) (List.filter hasLink l1)
      ++ pick (finalMap oldItems newItems) f1
      :: map (pick (finalMap oldItems newItems)) (List.filter hasLink l2)
      ++ pick (finalMap oldItems newItems) f1
      :: map (pick (finalMap oldItems newItems)) (List.filter hasLink l3)).
  { rewrite mergedItems_pick, slice0_all by exact Hmax.
    unfold newItems. rewrite List.filter_app. cbn [List.filter]. rewrite Hl.
    rewrite List.filter_app. cbn [List.filter]. rewrite Hl2.
    rewrite map_app. cbn [map]. rewrite map_app. cbn [map].
    destruct (pick_same_link (finalMap oldItems (l1 ++ f1 :: l2 ++ f2 :: l3)) f1 f2 Hl Heq)
      as [->|Hnone]; [reflexivity|].
    exfalso.
    destruct (fold_nextMap_In newItems (oldMap oldItems) f1 Hin1 Hl) as (e & He & _).
    unfold finalMap in Hnone. fold newItems in Hnone. rewrite He in Hnone.
    discriminate Hnone. }
  split.
  - eexists _, _, _, _. split; [exact Hshape|].
    split; [apply pick_link; exact Hin1|].
    split; apply length_map.
  - rewrite Hshape, map_app. cbn [map]. rewrite map_app. cbn [map].
    intros Hnd. apply NoDup_app in Hnd as (_ & _ & Hnd).
    apply NoDup_cons in Hnd as [Hnotin _]. apply Hnotin.
    apply list_elem_of_In, in_or_app. right. left. reflexivity.
Qed.

Lemma duplicate_link_merged_twice_witness :
  (exists a m b c,
     mergedItems
       (mergeFeedItems []
          ([] ++ mkItem "first" "a" EmptyString EmptyString EmptyString EmptyString
                   EmptyString None None
              :: [] ++ mkItem "second" "a" EmptyString EmptyString EmptyString EmptyString
                         EmptyString None None
              :: []) 10)
     = a ++ m :: b ++ m :: c
     /\ link m = "a"%string
     /\ length a = 0%nat
     /\ length b = 0%nat)
  /\ ~ NoDup (map link
                (mergedItems
                   (mergeFeedItems []
                      ([] ++ mkItem "first" "a" EmptyString EmptyString EmptyString
                               EmptyString EmptyString None None
                          :: [] ++ mkItem "second" "a" EmptyString EmptyString EmptyString
                                     EmptyString EmptyString None None
                          :: []) 10))).
Proof.
  apply (duplicate_link_merged_twice [] []
           (mkItem "first" "a" EmptyString EmptyString EmptyString EmptyString
              EmptyString None None) []
           (mkItem "second" "a" EmptyString EmptyString EmptyString EmptyString
              EmptyString None None) [] 10).
  - reflexivity.
  - reflexivity.
  - simpl. lia.
Defined.

(** The first of two fresh entries with one link is lost: both merged
    entries have the title of the second. *)
Example duplicate_link_loses_first :
  map title
    (mergedItems
       (mergeFeedItems []
          [ mkItem "first" "a" EmptyString EmptyString EmptyString EmptyString
              EmptyString None None;
            mkItem "second" "a" EmptyString EmptyString EmptyString EmptyString
              EmptyString None None ] 10))
  = ["second"; "second"]%string
  /\ length
       (newItemsForSummary
          (mergeFeedItems []
             [ mkItem "first" "a" EmptyString EmptyString EmptyString EmptyString
                 EmptyString None None;
               mkItem "second" "a" EmptyString EmptyString EmptyString EmptyString
                 EmptyString None None ] 10))
     = 1%nat.
Proof. split; vm_compute; reflexivity. Qed.

(** *** Truncation *)

Lemma merged_hasLink oldItems newItems maxItems m :
  In m (mergedItems (mergeFeedItems oldItems newItems maxItems)) ->
  hasLink m = true.
Proof.
  rewrite mergedItems_pick. intros Hm.
  apply in_map_iff in Hm as (f & <- & Hf).
  destruct (In_sliced_filter _ _ _ Hf) as [Hin Hl].
  unfold hasLink. rewrite (pick_link _ _ _ Hin). exact Hl.
Qed.

(** C3: for a count [maxItems] (a non-negative integer) the length of
    [mergedItems] is at most [maxItems] and equals the minimum of
    [maxItems] and the number of fresh entries that have a link; and,
    whatever [maxItems], every merged entry has a link. *)
Theorem merged_length oldItems newItems maxItems :
  let merged := mergedItems (mergeFeedItems oldItems newItems maxItems) in
  (0 <= maxItems ->
     Z.of_nat (length merged) <= maxItems /\
     Z.of_nat (length merged) =
       Z.min maxItems (Z.of_nat (length (List.filter hasLink newItems)))) /\
  Forall (fun m => hasLink m = true) merged.
Proof.
  intros merged. split.
  - intros Hn.
    assert (Hlen : Z.of_nat (length merged) =
              Z.min maxItems (Z.of_nat (length (List.filter hasLink newItems)))).
    { subst merged. rewrite mergedItems_pick, length_map.
      apply slice0_length. exact Hn. }
    split; [lia|exact Hlen].
  - apply List.Forall_forall. intros m Hm. eapply merged_hasLink. exact Hm.
Qed.

Lemma merged_length_witness :
  let merged :=
    mergedItems
      (mergeFeedItems [entry "y" (Some "S")]
         [entry "x" None; entry EmptyString None; entry "y" None; entry "z" None] 2) in
  Z.of_nat (length merged) <= 2 /\
  Z.of_nat (length merged) =
    Z.min 2 (Z.of_nat (length (List.filter hasLink
      [entry "x" None; entry EmptyString None; entry "y" None; entry "z" None]))).
Proof.
  apply (merged_length [entry "y" (Some "S")]
           [entry "x" None; entry EmptyString None; entry "y" None; entry "z" None] 2).
  lia.
Defined.

(** A negative [maxItems] is not a count: [slice] then drops entries
    from the end instead. *)
Example merged_negative_maxItems :
  mergedItems (mergeFeedItems [] [entry "x" None; entry "y" None] (-1))
  = [entry "x" None].
Proof. vm_compute. reflexivity. Qed.

(** *** Merging a list with itself *)

Lemma addNew_known m acc item :
  hasLink item = true -> m !! link item = Some item ->
  addNew (m, acc) item = (m, acc).
Proof.
  intros Hl He. unfold addNew. rewrite Hl, He. simpl.
  rewrite or_same, withSummary_same, (insert_id _ _ _ He). reflexivity.
Qed.

Lemma fold_addNew_known l : forall m acc,
  (forall i, In i l -> hasLink i = true /\ m !! link i = Some i) ->
  fold_left addNew l (m, acc) = (m, acc).
Proof.
  induction l as [|x l IH]; intros m acc H; cbn [fold_left]; [reflexivity|].
  destruct (H x (or_introl eq_refl)) as [Hl He].
  rewrite (addNew_known _ _ _ Hl He). apply IH.
  intros i Hi. apply H. right. exact Hi.
Qed.

Lemma filter_hasLink_all l :
  Forall (fun i => hasLink i = true) l -> List.filter hasLink l = l.
Proof.
  induction 1 as [|x l Hx _ IH]; simpl; [reflexivity|].
  rewrite Hx, IH. reflexivity.
Qed.

(** An entry without a link is dropped even when merged with itself. *)
Example merge_self_drops_linkless :
  mergedItems (mergeFeedItems [entry EmptyString (Some "S")] [entry EmptyString (Some "S")] 1) = [].
Proof. vm_compute. reflexivity. Qed.

(** C7: for a list of entries that all have a link, the links being
    pairwise distinct, merging the list with itself as the fresh input,
    with [maxItems] at least its length, returns the list itself as
    [mergedItems] (same entries, same order, same summaries) and an
    empty [newItemsForSummary]. *)
Theorem merge_self items maxItems :
  Forall (fun i => hasLink i = true) items ->
  NoDup (map link items) ->
  Z.of_nat (length items) <= maxItems ->
  mergeFeedItems items items maxItems =
  {| mergedItems := items; newItemsForSummary := [] |}.
Proof.
  intros Hall Hnd Hmax.
  assert (Hknown : forall i, In i items ->
            hasLink i = true /\ oldMap items !! link i = Some i).
  { intros i Hi. pose proof (proj1 (List.Forall_forall _ _) Hall i Hi) as Hl.
    split; [exact Hl|]. apply oldMap_NoDup; assumption. }
  unfold mergeFeedItems. fold (oldMap items).
  rewrite (fold_addNew_known items (oldMap items) [] Hknown).
  f_equal.
  assert (Hf : List.filter
                 (fun item => hasLink item && has (oldMap items) (link item)) items
               = items).
  { rewrite <- (filter_hasLink_all items Hall) at 2.
    apply filter_ext_in. intros i Hi. destruct (Hknown i Hi) as [Hl He].
    unfold has. rewrite Hl, He. reflexivity. }
  rewrite Hf.
  assert (Hm : map (pick (oldMap items)) items = items).
  { transitivity (map (fun i : Item => i) items); [|apply map_id].
    apply map_ext_in. intros i Hi.
    destruct (Hknown i Hi) as [Hl He]. apply pick_lookup; assumption. }
  rewrite Hm. apply slice0_all. exact Hmax.
Qed.

Lemma merge_self_witness :
  mergeFeedItems [entry "a" (Some "S"); entry "b" None; entry "c" (Some EmptyString)]
    [entry "a" (Some "S"); entry "b" None; entry "c" (Some EmptyString)] 3 =
  {| mergedItems := [entry "a" (Some "S"); entry "b" None; entry "c" (Some EmptyString)];
     newItemsForSummary := [] |}.
Proof.
  apply merge_self.
  - repeat constructor.
  - vm_compute. repeat (apply NoDup_cons; split);
      [| |  | apply NoDup_nil_2];
      intros H; apply list_elem_of_In in H; simpl in H;
      repeat (destruct H as [H|H]; [discriminate H|]); exact H.
  - simpl. lia.
Defined.

(** *** An empty previous summary *)

(** The rule [existingItem?.summary || item.summary] tests the
    truthiness of the old summary. *)
Lemma or_empty_summary s : JS.or (Some EmptyString) s = s.
Proof. reflexivity. Qed.

Lemma nextMap_fresh newItems m x k :
  In x newItems -> fresh newItems m k -> fresh newItems (nextMap m x) k.
Proof.
  intros Hx (e & He & Hk & (f & Hf & Hfk & Hfs)).
  destruct (hasLink x) eqn:Hl.
  2:{ rewrite nextMap_nolink by exact Hl. exists e.
      split; [exact He|]. split; [exact Hk|]. exists f. auto. }
  destruct (decide (link x = k)) as [Heq|Hne].
  - rewrite <- Heq in He |- *. eexists.
    split; [apply nextMap_self; exact Hl|]. split; [reflexivity|].
    rewrite He. simpl. unfold JS.or.
    destruct (JS.truthy (summary e)).
    + exists f. split; [exact Hf|]. split; [congruence|exact Hfs].
    + exists x. split; [exact Hx|]. split; reflexivity.
  - exists e. rewrite nextMap_other by exact Hne.
    split; [exact He|]. split; [exact Hk|]. exists f. auto.
Qed.

Lemma fold_nextMap_fresh newItems l : forall m k,
  incl l newItems -> fresh newItems m k -> fresh newItems (fold_left nextMap l m) k.
Proof.
  induction l as [|x l IH]; intros m k Hincl H; simpl; [exact H|].
  apply IH; [intros y Hy; apply Hincl; right; exact Hy|].
  apply nextMap_fresh; [apply Hincl; left; reflexivity|exact H].
Qed.

Lemma fold_nextMap_stale newItems l : forall m k f,
  incl l newItems -> stale m k ->
  In f l -> hasLink f = true -> link f = k ->
  fresh newItems (fold_left nextMap l m) k.
Proof.
  induction l as [|x l IH]; intros m k f Hincl Hst Hf Hl Hk; [destruct Hf|].
  assert (Hincl' : incl l newItems) by (intros y Hy; apply Hincl; right; exact Hy).
  assert (Hx : In x newItems) by (apply Hincl; left; reflexivity).
  cbn [fold_left].
  destruct (hasLink x) eqn:Hxl.
  2:{ rewrite nextMap_nolink by exact Hxl.
      destruct Hf as [->|Hf]; [congruence|]. eapply IH; eassumption. }
  destruct (decide (link x = k)) as [Heq|Hne].
  - apply fold_nextMap_fresh; [exact Hincl'|].
    destruct Hst as (e & He & Hfalsy).
    rewrite <- Heq in He |- *. eexists.
    split; [apply nextMap_self; exact Hxl|]. split; [reflexivity|].
    exists x. split; [exact Hx|]. split; [reflexivity|].
    rewrite He. simpl. apply or_falsy. exact Hfalsy.
  - destruct Hf as [->|Hf]; [congruence|].
    eapply IH; try eassumption.
    destruct Hst as (e & He & Hfalsy). exists e.
    rewrite nextMap_other by exact Hne. auto.
Qed.

(** C9: when the previous entry looked up for a link (the last one
    carrying it) has the empty string as summary, the summary of every
    merged entry with that link is the summary of a fresh entry with
    that link (possibly absent): the empty string is not preserved. *)
Theorem empty_summary_not_preserved l1 o l2 newItems maxItems m :
  summary o = Some EmptyString ->
  Forall (fun x => link x <> link o) l2 ->
  In m (mergedItems (mergeFeedItems (l1 ++ o :: l2) newItems maxItems)) ->
  link m = link o ->
  exists f, In f newItems /\ link f = link o /\ summary m = summary f.
Proof.
  intros Hs Hl2 Hm Hk.
  assert (Ho : hasLink o = true).
  { pose proof (merged_hasLink _ _ _ _ Hm) as Hml.
    unfold hasLink in *. rewrite <- Hk. exact Hml. }
  rewrite mergedItems_pick in Hm.
  apply in_map_iff in Hm as (f & Hpick & Hf).
  destruct (In_sliced_filter _ _ _ Hf) as [Hin Hfl].
  assert (Hfk : link f = link o).
  { rewrite <- Hk, <- Hpick. symmetry. apply pick_link. exact Hin. }
  assert (Hfin : fresh newItems (finalMap (l1 ++ o :: l2) newItems) (link o)).
  { apply (fold_nextMap_stale newItems newItems _ _ f);
      [apply incl_refl| |assumption..].
    exists o. split; [apply oldMap_last; assumption|].
    rewrite Hs. reflexivity. }
  destruct Hfin as (e & He & _ & Hfrom).
  rewrite <- Hfk in He. rewrite (pick_lookup _ _ _ Hfl He) in Hpick.
  subst e. exact Hfrom.
Qed.

Lemma empty_summary_not_preserved_witness :
  exists f, In f [entry "a" None; entry "b" (Some "T")] /\ link f = "a"
            /\ summary (entry "a" None) = summary f.
Proof.
  apply (empty_summary_not_preserved [] (entry "a" (Some EmptyString)) []
           [entry "a" None; entry "b" (Some "T")] 10 (entry "a" None)).
  - reflexivity.
  - constructor.
  - vm_compute. left. reflexivity.
  - reflexivity.
Defined.

(** With a fresh entry that has a summary of its own. *)
Example empty_summary_replaced :
  mergedItems
    (mergeFeedItems [entry "a" (Some EmptyString)] [entry "a" (Some "T")] 10)
  = [entry "a" (Some "T")].
Proof. vm_compute. reflexivity. Qed.

End MergeProps.

(** ** The retry wrapper *)

Module RetryProps.

Local Open Scope nat_scope.

Lemma generateSummaryWithLimit_run env title content st :
  generateSummaryWithLimit env title content st =
  (match api env (apiCalls st) title content with
   | Rejected message => Throw (TypeError message)
   | Response status text =>
       if (status =? 429)%Z then Throw (AbortError "API速率限制已触发")
       else if negb (responseOk status) then Throw (Err "API错误")
       else Ret (JS.orStr text NO_SUMMARY)
   | NotJson status message =>
       if (status =? 429)%Z then Throw (AbortError "API速率限制已触发")
       else if negb (responseOk status) then Throw (Err "API错误")
       else Throw (SyntaxError message)
   end, countApiCall st).
Proof.
  unfold generateSummaryWithLimit, catch, bind, get, modify, throw, ret.
  destruct (api env (apiCalls st) title content) as [message|status text|status message];
    [reflexivity| |].
  - destruct (status =? 429)%Z; [reflexivity|].
    destruct (negb (responseOk status)); reflexivity.
  - destruct (status =? 429)%Z; [reflexivity|].
    destruct (negb (responseOk status)); reflexivity.
Qed.

Lemma generate_failed env title content st :
  failed (api env (apiCalls st) title content) = true ->
  generateSummaryWithLimit env title content st
  = (Throw (Err "API错误"), countApiCall st).
Proof.
  intros H. rewrite generateSummaryWithLimit_run. unfold failed in H.
  destruct (api env (apiCalls st) title content) as [message|status text|status message];
    [discriminate H| |];
    apply andb_true_iff in H as [H1 H2]; apply negb_true_iff in H1;
    rewrite H1, H2; reflexivity.
Qed.

Lemma generate_rateLimited env title content st :
  rateLimited (api env (apiCalls st) title content) = true ->
  generateSummaryWithLimit env title content st =
  (Throw (AbortError "API速率限制已触发"), countApiCall st).
Proof.
  intros H. rewrite generateSummaryWithLimit_run. unfold rateLimited in H.
  destruct (api env (apiCalls st) title content) as [message|status text|status message];
    [discriminate| |]; rewrite H; reflexivity.
Qed.

(** One request changes nothing of the state but the number of
    requests, which it raises by one. *)
Lemma generate_state env title content st :
  (generateSummaryWithLimit env title content st).2 = countApiCall st.
Proof. rewrite generateSummaryWithLimit_run. reflexivity. Qed.

(** One step of the retrying. *)
Lemma attempts_step {A} (input : nat -> M A) r n st :
  attempts input r n st =
  match input n st with
  | (Ret a, st') => (Ret a, st')
  | (Throw (AbortError message), st') => (Throw (Err message), st')
  | (Throw e, st') =>
      if notRetried e then (Throw e, st')
      else
        match r with
        | O => (Throw e, st')
        | S r' => attempts input r' (S n) st'
        end
  end.
Proof.
  destruct r; simpl; unfold catch, throw;
    destruct (input n st) as [[a|e] st']; try reflexivity;
    destruct e; try reflexivity; destruct (notRetried _); reflexivity.
Qed.

(** The state after one step of the retrying: that of the attempt, or
    that of the retrying that follows it. *)
Lemma attempts_step_state {A} (input : nat -> M A) r n st :
  (attempts input r n st).2 = (input n st).2
  \/ exists r', r = S r' /\ (attempts input r n st).2
                          = (attempts input r' (S n) (input n st).2).2.
Proof.
  rewrite attempts_step. destruct (input n st) as [[a|e] st']; [left; reflexivity|].
  destruct e; try (left; reflexivity);
    try (destruct (notRetried _); [left; reflexivity|]);
    (destruct r as [|r']; [left; reflexivity|right; exists r'; split; reflexivity]).
Qed.

(** Retrying changes nothing of the state but the number of requests. *)
Lemma attempts_state env title content r : forall n st,
  let st' := (attempts (fun _ => generateSummaryWithLimit env title content) r n st).2 in
  st' = mkState (currentMinuteTokens st) (lastResetTime st) (files st) (console st)
          (apiCalls st') (clockReads st).
Proof.
  induction r as [|r IH]; intros n st; cbv zeta;
    match goal with
    | |- context [attempts ?f ?x n st] =>
        destruct (attempts_step_state f x n st) as [->|(r' & Hr & ->)]
    end;
    rewrite ?generate_state; try reflexivity; try discriminate Hr.
  injection Hr as <-.
  specialize (IH (S n) (countApiCall st)). cbv zeta in IH. exact IH.
Qed.

Lemma attempts_calls env title content r : forall n st,
  let st' := (attempts (fun _ => generateSummaryWithLimit env title content) r n st).2 in
  apiCalls st < apiCalls st' <= apiCalls st + r + 1.
Proof.
  induction r as [|r IH]; intros n st; cbv zeta;
    match goal with
    | |- context [attempts ?f ?x n st] =>
        destruct (attempts_step_state f x n st) as [->|(r' & Hr & ->)]
    end;
    rewrite ?generate_state; simpl; try lia; try discriminate Hr.
  injection Hr as <-.
  specialize (IH (S n) (countApiCall st)). simpl in IH. lia.
Qed.

Lemma attempts_abort env title content : forall k r n st,
  k <= r ->
  (forall j, j < k -> failed (api env (apiCalls st + j) title content) = true) ->
  rateLimited (api env (apiCalls st + k) title content) = true ->
  attempts (fun _ => generateSummaryWithLimit env title content) r n st =
  (Throw (Err "API速率限制已触发"),
   mkState (currentMinuteTokens st) (lastResetTime st) (files st) (console st)
     (apiCalls st + k + 1) (clockReads st)).
Proof.
  induction k as [|k IH]; intros r n st Hk Hfail Habort; rewrite attempts_step.
  - rewrite Nat.add_0_r in Habort. rewrite (generate_rateLimited _ _ _ _ Habort).
    unfold countApiCall. do 2 f_equal. lia.
  - destruct r as [|r]; [lia|].
    rewrite (generate_failed env title content st)
      by (rewrite <- (Nat.add_0_r (apiCalls st)); apply Hfail; lia).
    cbn [notRetried].
    rewrite (IH r (S n) (countApiCall st)).
    + simpl. do 2 f_equal. lia.
    + lia.
    + intros j Hj. simpl. replace (S (apiCalls st + j)) with (apiCalls st + S j) by lia.
      apply Hfail. lia.
    + simpl. replace (S (apiCalls st + k)) with (apiCalls st + S k) by lia.
      exact Habort.
Qed.

(** When every answer for these arguments is a failure, the retrying
    ends with an error. *)
Lemma attempts_all_fail env title content r : forall n st,
  (forall i, failed (api env i title content) = true
             \/ rateLimited (api env i title content) = true) ->
  exists e,
    (attempts (fun _ => generateSummaryWithLimit env title content) r n st).1 = Throw e.
Proof.
  induction r as [|r IH]; intros n st Hall; rewrite attempts_step;
    (destruct (Hall (apiCalls st)) as [Hf|Ha];
     [rewrite (generate_failed env title content st Hf); cbn [notRetried]
     |rewrite (generate_rateLimited _ _ _ _ Ha); eexists; reflexivity]).
  - eexists; reflexivity.
  - apply IH; exact Hall.
Qed.

(** C4, as stated, fails: when the service answers every request with
    status 500, the operation is invoked four times, one more than the
    three attempts the specification allows. *)
Lemma retry_three_attempts_fails :
  ~ invokedAtMost 3 (sampleEnv [] (fun _ => None) serviceDown) "title" "content"
      (initialState (sampleEnv [] (fun _ => None) serviceDown) ∅).
Proof. unfold invokedAtMost. vm_compute. lia. Qed.

(** C4 (amended): with [RETRY_CONFIG] the operation is invoked at least
    once and at most [retries + 1 = 4] times, the first attempt and up
    to three retries; and when the attempts before attempt [k + 1 <= 4]
    fail with a status that is retried and that attempt is rejected by
    the rate limit, the operation is invoked exactly [k + 1] times and
    the rate-limit error is the outcome. *)
Theorem retry_bound env title content st :
  let run := retry (fun _ => generateSummaryWithLimit env title content) RETRY_CONFIG st in
  (1 <= callsOf (retry (fun _ => generateSummaryWithLimit env title content) RETRY_CONFIG) st
     <= retries RETRY_CONFIG + 1) /\
  forall k, k <= retries RETRY_CONFIG ->
    (forall j, j < k -> failed (api env (apiCalls st + j) title content) = true) ->
    rateLimited (api env (apiCalls st + k) title content) = true ->
    callsOf (retry (fun _ => generateSummaryWithLimit env title content) RETRY_CONFIG) st
      = k + 1
    /\ run.1 = Throw (Err "API速率限制已触发").
Proof.
  intros run. split.
  - unfold callsOf, retry.
    pose proof (attempts_calls env title content (retries RETRY_CONFIG) 1 st) as H.
    cbv zeta in H. lia.
  - intros k Hk Hfail Habort. subst run. unfold callsOf, retry.
    rewrite (attempts_abort env title content k _ 1 st Hk Hfail Habort).
    simpl. split; [lia|reflexivity].
Qed.

Lemma retry_bound_witness :
  callsOf
    (retry (fun _ => generateSummaryWithLimit
                        (sampleEnv [] (fun _ => None) (serviceLimitedAfter 1))
                        "title" "content") RETRY_CONFIG)
    (initialState (sampleEnv [] (fun _ => None) (serviceLimitedAfter 1)) ∅) = 2
  /\ (retry (fun _ => generateSummaryWithLimit
                         (sampleEnv [] (fun _ => None) (serviceLimitedAfter 1))
                         "title" "content") RETRY_CONFIG
        (initialState (sampleEnv [] (fun _ => None) (serviceLimitedAfter 1)) ∅)).1
      = Throw (Err "API速率限制已触发").
Proof.
  apply (proj2 (retry_bound (sampleEnv [] (fun _ => None) (serviceLimitedAfter 1))
                  "title" "content"
                  (initialState (sampleEnv [] (fun _ => None) (serviceLimitedAfter 1)) ∅))
           1).
  - simpl. lia.
  - intros j Hj. assert (j = 0) as -> by lia. reflexivity.
  - reflexivity.
Defined.

End RetryProps.

(** ** The summarisation loop *)

Module LoopProps.
Import JSFacts RetryProps.

Lemma estimatedTokens_nonneg item : 0 <= estimatedTokens item.
Proof.
  unfold estimatedTokens, estimateTokens, TOKEN_PER_CHAR. simpl fst. simpl snd.
  apply Z.div_pos; lia.
Qed.

Lemma pendingTokens_nonneg newItems items : 0 <= pendingTokens newItems items.
Proof.
  induction items as [|x l IH]; simpl; [lia|].
  destruct (needsSummary newItems x); [|exact IH].
  pose proof (estimatedTokens_nonneg x). lia.
Qed.

(** [delay] is bound nowhere: calling it throws. *)
Lemma delay_throws env st : delay env st = (Throw (ReferenceError "delay"), st).
Proof. reflexivity. Qed.

Lemma summarizeItem_skip env newItems item st :
  needsSummary newItems item = false ->
  summarizeItem env newItems item st = (Ret item, st).
Proof. intros H. unfold summarizeItem. rewrite H. reflexivity. Qed.

Lemma summarizeItem_pause env newItems item st :
  needsSummary newItems item = true ->
  currentMinuteTokens st + estimatedTokens item > 900000 ->
  summarizeItem env newItems item st =
  (Throw (ReferenceError "delay"), addLog LogTokenPause st).
Proof.
  intros Hn Hover. unfold summarizeItem. rewrite Hn.
  unfold bind at 1. unfold get.
  assert (Hgt : (currentMinuteTokens st + estimatedTokens item >? 900000) = true)
    by (apply Z.gtb_lt; lia).
  rewrite Hgt. reflexivity.
Qed.

Lemma summarizeItem_ok env newItems item st :
  needsSummary newItems item = true ->
  currentMinuteTokens st + estimatedTokens item <= 900000 ->
  summarizeItem env newItems item st =
  match retry (fun _ => generateSummaryWithLimit env (title item) (content item))
          RETRY_CONFIG st with
  | (Ret s, st1) =>
      (Ret (withSummary item (Some s)),
       setTokens (currentMinuteTokens st1 + estimatedTokens item) st1)
  | (Throw e, st1) =>
      (Ret (withSummary item (Some SUMMARY_FAILED)),
       addLog (LogSummaryFailed (title item)) st1)
  end.
Proof.
  intros Hn Hfit. unfold summarizeItem. rewrite Hn.
  unfold bind at 1. unfold get.
  assert (Hgt : (currentMinuteTokens st + estimatedTokens item >? 900000) = false).
  { rewrite Z.gtb_ltb. apply Z.ltb_ge. lia. }
  rewrite Hgt. unfold bind at 1. unfold ret at 1. unfold catch, bind.
  destruct (retry _ RETRY_CONFIG st) as [[s|e] st1]; reflexivity.
Qed.

Lemma retry_tokens env title content st :
  currentMinuteTokens
    (retry (fun _ => generateSummaryWithLimit env title content) RETRY_CONFIG st).2
  = currentMinuteTokens st.
Proof.
  unfold retry.
  pose proof (attempts_state env title content (retries RETRY_CONFIG) 1 st) as H.
  cbv zeta in H. rewrite H. reflexivity.
Qed.

(** One turn of the loop within the budget: it returns, the token
    count grows by at most the estimate, and a failed summarisation
    leaves the placeholder. *)
Lemma summarizeItem_within env newItems item st :
  currentMinuteTokens st
  + (if needsSummary newItems item then estimatedTokens item else 0) <= 900000 ->
  exists pushed st',
    summarizeItem env newItems item st = (Ret pushed, st')
    /\ link pushed = link item
    /\ currentMinuteTokens st'
       <= currentMinuteTokens st
          + (if needsSummary newItems item then estimatedTokens item else 0)
    /\ (needsSummary newItems item = true ->
        forall e,
          (retry (fun _ => generateSummaryWithLimit env (title item) (content item))
             RETRY_CONFIG st).1 = Throw e ->
          pushed = withSummary item (Some SUMMARY_FAILED)).
Proof.
  intros Hfit. destruct (needsSummary newItems item) eqn:Hn.
  - rewrite (summarizeItem_ok _ _ _ _ Hn Hfit).
    pose proof (retry_tokens env (title item) (content item) st) as Htok.
    pose proof (estimatedTokens_nonneg item) as Hpos.
    destruct (retry _ RETRY_CONFIG st) as [[s|e] st1] eqn:Hrun; simpl in Htok.
    + eexists _, _. split; [reflexivity|]. split; [reflexivity|]. split.
      * simpl. lia.
      * intros _ e He. discriminate He.
    + eexists _, _. split; [reflexivity|]. split; [reflexivity|]. split.
      * simpl. lia.
      * reflexivity.
  - rewrite (summarizeItem_skip _ _ _ _ Hn). eexists _, _.
    split; [reflexivity|]. split; [reflexivity|]. split; [lia|discriminate].
Qed.

Lemma summarizeLoop_acc env newItems : forall items acc st,
  summarizeLoop env newItems items acc st =
  match summarizeLoop env newItems items [] st with
  | (Ret xs, st') => (Ret (acc ++ xs), st')
  | (Throw e, st') => (Throw e, st')
  end.
Proof.
  induction items as [|x l IH]; intros acc st; simpl.
  - unfold ret. rewrite app_nil_r. reflexivity.
  - unfold bind. destruct (summarizeItem env newItems x st) as [[p|e] st1];
      [|reflexivity].
    rewrite (IH (acc ++ [p])), (IH ([] ++ [p])).
    destruct (summarizeLoop env newItems l [] st1) as [[xs|e] st2]; [|reflexivity].
    simpl. rewrite <- app_assoc. reflexivity.
Qed.

Lemma summarizeLoop_cons env newItems x l st :
  summarizeLoop env newItems (x :: l) [] st =
  match summarizeItem env newItems x st with
  | (Ret p, st1) =>
      match summarizeLoop env newItems l [] st1 with
      | (Ret xs, st2) => (Ret (p :: xs), st2)
      | (Throw e, st2) => (Throw e, st2)
      end
  | (Throw e, st1) => (Throw e, st1)
  end.
Proof.
  simpl. unfold bind.
  destruct (summarizeItem env newItems x st) as [[p|e] st1]; [|reflexivity].
  apply summarizeLoop_acc.
Qed.

(** The state in which the loop reaches the entry at index [i]. *)
Lemma summarizeLoop_cons_state env newItems x l st p st1 :
  summarizeItem env newItems x st = (Ret p, st1) ->
  (summarizeLoop env newItems (x :: l) [] st).2
  = (summarizeLoop env newItems l [] st1).2.
Proof.
  intros H. rewrite summarizeLoop_cons, H.
  destruct (summarizeLoop env newItems l [] st1) as [[xs|e] st2]; reflexivity.
Qed.

(** Within the budget the loop returns one entry per merged entry, in
    order, and every entry whose summarisation ends with an error
    carries the placeholder. *)
Lemma summarizeLoop_within env newItems : forall items st,
  currentMinuteTokens st + pendingTokens newItems items <= 900000 ->
  exists xs st',
    summarizeLoop env newItems items [] st = (Ret xs, st')
    /\ map link xs = map link items
    /\ forall i m e, items !! i = Some m ->
         needsSummary newItems m = true ->
         (retry (fun _ => generateSummaryWithLimit env (title m) (content m))
            RETRY_CONFIG
            (summarizeLoop env newItems (take i items) [] st).2).1 = Throw e ->
         xs !! i = Some (withSummary m (Some SUMMARY_FAILED)).
Proof.
  induction items as [|x l IH]; intros st Hfit.
  - exists [], st. split; [reflexivity|]. split; [reflexivity|].
    intros i m e Hi. destruct i; discriminate Hi.
  - simpl in Hfit. pose proof (pendingTokens_nonneg newItems l) as Hpos.
    destruct (summarizeItem_within env newItems x st) as (p & st1 & Hrun & Hl & Htok & Hfail).
    { destruct (needsSummary newItems x); lia. }
    destruct (IH st1) as (xs & st2 & Hloop & Hlinks & Hrest).
    { destruct (needsSummary newItems x); lia. }
    exists (p :: xs), st2. rewrite summarizeLoop_cons, Hrun, Hloop.
    split; [reflexivity|]. split; [simpl; congruence|].
    intros i m e Hi Hn He. destruct i as [|i]; simpl in Hi.
    + injection Hi as ->. simpl. f_equal. eapply Hfail; [exact Hn|exact He].
    + simpl. eapply Hrest; [exact Hi|exact Hn|].
      rewrite firstn_cons, (summarizeLoop_cons_state _ _ _ _ _ _ _ Hrun) in He.
      exact He.
Qed.

End LoopProps.

(** ** The update of one source *)

Module UpdateProps.
Import JSFacts RetryProps LoopProps.

Lemma bind_Ret {A B} (m : M A) (k : A -> M B) st a st' :
  m st = (Ret a, st') -> bind m k st = k a st'.
Proof. intros H. unfold bind. rewrite H. reflexivity. Qed.

Lemma bind_Throw {A B} (m : M A) (k : A -> M B) st e st' :
  m st = (Throw e, st') -> bind m k st = (Throw e, st').
Proof. intros H. unfold bind. rewrite H. reflexivity. Qed.

Lemma loadFeedData_run env sourceUrl st :
  loadFeedData env sourceUrl st =
  (Ret match files st !! getSourceFilePath env sourceUrl with
       | Some (Document data) => Some data
       | _ => None
       end, st).
Proof.
  unfold loadFeedData, catch, bind, get, ret, throw.
  destruct (files st !! getSourceFilePath env sourceUrl) as [[| |]|]; reflexivity.
Qed.

Lemma fetchRssFeed_ok env url st feed :
  parseURL env url = Some feed ->
  fetchRssFeed env url st =
  (Ret {| Feed.title := JS.orStr (RawFeed.title feed) EmptyString;
          Feed.description := JS.orStr (RawFeed.description feed) EmptyString;
          Feed.link := JS.orStr (RawFeed.link feed) EmptyString;
          Feed.items := map serializeItem (RawFeed.items feed) |}, st).
Proof. intros H. unfold fetchRssFeed, catch. rewrite H. reflexivity. Qed.

Lemma fetchRssFeed_fail env url st :
  parseURL env url = None ->
  fetchRssFeed env url st = (Throw (Err "获取RSS源失败"), st).
Proof. intros H. unfold fetchRssFeed, catch. rewrite H. reflexivity. Qed.

Lemma saveFeedData_ok env sourceUrl data st :
  writeFails env (getSourceFilePath env sourceUrl) = false ->
  saveFeedData env sourceUrl data st =
  (Ret tt, setFile (getSourceFilePath env sourceUrl) (Document data) st).
Proof. intros H. unfold saveFeedData, catch. rewrite H. reflexivity. Qed.

Lemma saveFeedData_fail env sourceUrl data st :
  writeFails env (getSourceFilePath env sourceUrl) = true ->
  saveFeedData env sourceUrl data st
  = (Throw (Err "保存源数据失败"), afterFailedSave env sourceUrl st).
Proof. intros H. unfold saveFeedData, catch. rewrite H. reflexivity. Qed.

(** [updateFeed]: entry, then the load and the rest under the outer
    [try]. *)
Lemma updateFeed_run env sourceUrl st :
  updateFeed env sourceUrl st =
  match bind (loadFeedData env sourceUrl) (updateFrom env sourceUrl)
          (enterUpdate env sourceUrl st) with
  | (Ret data, st') => (Ret data, st')
  | (Throw e, st') => (Throw e, addLog (LogUpdateError sourceUrl) st')
  end.
Proof.
  unfold updateFeed, enterUpdate.
  unfold bind at 1. unfold log at 1. unfold modify at 1.
  unfold catch at 1. unfold bind at 1. unfold dateNow at 1.
  unfold bind at 1. unfold get at 1. cbn [clockReads addLog countClockRead lastResetTime].
  destruct (clock env (clockReads st) - lastResetTime st >? 60 * 1000).
  - unfold bind at 1. unfold bind at 1. unfold modify.
    match goal with
    | |- match ?a with _ => _ end = match ?b with _ => _ end =>
        change a with b; destruct b as [[d|e] st']; reflexivity
    end.
  - unfold bind at 1. unfold ret at 1.
    match goal with
    | |- match ?a with _ => _ end = match ?b with _ => _ end =>
        change a with b; destruct b as [[d|e] st']; reflexivity
    end.
Qed.

Lemma enterUpdate_files env sourceUrl st :
  files (enterUpdate env sourceUrl st) = files st.
Proof.
  unfold enterUpdate.
  destruct (clock env (clockReads st) - lastResetTime st >? 60 * 1000); reflexivity.
Qed.

Lemma enterUpdate_tokens env sourceUrl st :
  currentMinuteTokens (enterUpdate env sourceUrl st) = 0
  \/ currentMinuteTokens (enterUpdate env sourceUrl st) = currentMinuteTokens st.
Proof.
  unfold enterUpdate.
  destruct (clock env (clockReads st) - lastResetTime st >? 60 * 1000);
    [left|right]; reflexivity.
Qed.

Lemma enterUpdate_console env sourceUrl st :
  console (enterUpdate env sourceUrl st) = console st ++ [LogUpdate sourceUrl].
Proof.
  unfold enterUpdate.
  destruct (clock env (clockReads st) - lastResetTime st >? 60 * 1000); reflexivity.
Qed.

(** The load and the rest, once the feed is fetched. *)
Lemma load_update_run env sourceUrl st feed :
  parseURL env sourceUrl = Some feed ->
  bind (loadFeedData env sourceUrl) (updateFrom env sourceUrl) st =
  let merged :=
    Merge.mergeFeedItems (previousItems env sourceUrl st)
      (map serializeItem (RawFeed.items feed))
      (Config.maxItemsPerFeed (config env)) in
  bind (summarizeLoop env (Merge.newItemsForSummary merged) (Merge.mergedItems merged) [])
    (fun itemsWithSummaries =>
       bind (dateNow env)
         (fun now =>
            let updatedData :=
              {| FeedData.sourceUrl := sourceUrl;
                 FeedData.title := JS.orStr (RawFeed.title feed) EmptyString;
                 FeedData.description := JS.orStr (RawFeed.description feed) EmptyString;
                 FeedData.link := JS.orStr (RawFeed.link feed) EmptyString;
                 FeedData.items := itemsWithSummaries;
                 FeedData.lastUpdated := now |} in
            bind (saveFeedData env sourceUrl updatedData) (fun _ => ret updatedData)))
    st.
Proof.
  intros Hfeed.
  rewrite (bind_Ret _ _ _ _ _ (loadFeedData_run env sourceUrl st)).
  unfold updateFrom.
  rewrite (bind_Ret _ _ _ _ _ (fetchRssFeed_ok env sourceUrl st feed Hfeed)).
  unfold previousItems. cbn [Feed.items Feed.title Feed.description Feed.link].
  destruct (files st !! getSourceFilePath env sourceUrl) as [[| |]|]; reflexivity.
Qed.

Lemma previousItems_enter env sourceUrl st :
  previousItems env sourceUrl (enterUpdate env sourceUrl st)
  = previousItems env sourceUrl st.
Proof. unfold previousItems. rewrite enterUpdate_files. reflexivity. Qed.

(** C6: when the feed is fetched, the snapshot can be written and the
    token budget is not reached, [updateFeed] returns a snapshot,
    whatever the service answers; its entries are the merged entries in
    order, and every entry to be summarised whose retried request ends
    with an error (retries exhausted, or abort) is in the snapshot, at
    its place, with the placeholder summary. *)
Theorem summary_failure_not_fatal env sourceUrl st feed :
  parseURL env sourceUrl = Some feed ->
  writeFails env (getSourceFilePath env sourceUrl) = false ->
  0 <= currentMinuteTokens st ->
  let merged :=
    Merge.mergeFeedItems (previousItems env sourceUrl st)
      (map serializeItem (RawFeed.items feed))
      (Config.maxItemsPerFeed (config env)) in
  currentMinuteTokens st
  + pendingTokens (Merge.newItemsForSummary merged) (Merge.mergedItems merged)
  <= 900000 ->
  exists data st',
    updateFeed env sourceUrl st = (Ret data, st')
    /\ map link (FeedData.items data) = map link (Merge.mergedItems merged)
    /\ forall i m e, Merge.mergedItems merged !! i = Some m ->
         needsSummary (Merge.newItemsForSummary merged) m = true ->
         (retry (fun _ => generateSummaryWithLimit env (title m) (content m))
            RETRY_CONFIG
            (summarizeLoop env (Merge.newItemsForSummary merged)
               (take i (Merge.mergedItems merged)) []
               (enterUpdate env sourceUrl st)).2).1 = Throw e ->
         FeedData.items data !! i = Some (withSummary m (Some SUMMARY_FAILED)).
Proof.
  intros Hfeed Hwrite Hpos merged Hfit.
  rewrite updateFeed_run, (load_update_run _ _ _ feed Hfeed). cbv zeta.
  rewrite previousItems_enter. fold merged.
  destruct (summarizeLoop_within env (Merge.newItemsForSummary merged)
              (Merge.mergedItems merged) (enterUpdate env sourceUrl st))
    as (xs & st1 & Hloop & Hlinks & Hfail).
  { pose proof (pendingTokens_nonneg (Merge.newItemsForSummary merged)
                  (Merge.mergedItems merged)).
    destruct (enterUpdate_tokens env sourceUrl st) as [-> | ->]; lia. }
  rewrite (bind_Ret _ _ _ _ _ Hloop).
  unfold bind at 1. unfold dateNow at 1.
  erewrite bind_Ret by (apply saveFeedData_ok; exact Hwrite).
  unfold ret. eexists _, _. split; [reflexivity|]. split; assumption.
Qed.

Lemma summary_failure_not_fatal_witness :
  exists data st',
    updateFeed (singleSource [rawEntry "a" "t1" "c1"; rawEntry "b" "t2" "c2"] serviceDown)
      "u" (initialState
             (singleSource [rawEntry "a" "t1" "c1"; rawEntry "b" "t2" "c2"] serviceDown) ∅)
    = (Ret data, st')
    /\ FeedData.items data !! 1%nat
       = Some (withSummary (serializeItem (rawEntry "b" "t2" "c2")) (Some SUMMARY_FAILED)).
Proof.
  destruct (summary_failure_not_fatal
              (singleSource [rawEntry "a" "t1" "c1"; rawEntry "b" "t2" "c2"] serviceDown)
              "u"
              (initialState
                 (singleSource [rawEntry "a" "t1" "c1"; rawEntry "b" "t2" "c2"] serviceDown) ∅)
              (sampleFeed [rawEntry "a" "t1" "c1"; rawEntry "b" "t2" "c2"]))
    as (data & st' & Hrun & _ & Hfail).
  - reflexivity.
  - reflexivity.
  - simpl. lia.
  - vm_compute. discriminate.
  - exists data, st'. split; [exact Hrun|].
    apply (Hfail 1%nat _ (Err "API错误")).
    + reflexivity.
    + reflexivity.
    + vm_compute. reflexivity.
Defined.

(** *** The token pause *)

(** When the first merged entry is to be summarised and its estimate
    alone exceeds the ceiling, the pause is reached, [delay] is not
    defined, and the update of the source fails. *)
Lemma updateFeed_pause env sourceUrl st feed item rest :
  parseURL env sourceUrl = Some feed ->
  0 <= currentMinuteTokens st ->
  let merged :=
    Merge.mergeFeedItems (previousItems env sourceUrl st)
      (map serializeItem (RawFeed.items feed))
      (Config.maxItemsPerFeed (config env)) in
  Merge.mergedItems merged = item :: rest ->
  needsSummary (Merge.newItemsForSummary merged) item = true ->
  900000 < estimatedTokens item ->
  updateFeed env sourceUrl st =
  (Throw (ReferenceError "delay"),
   addLog (LogUpdateError sourceUrl)
     (addLog LogTokenPause (enterUpdate env sourceUrl st))).
Proof.
  intros Hfeed Hpos merged Hmerged Hneeds Hest.
  rewrite updateFeed_run, (load_update_run _ _ _ feed Hfeed). cbv zeta.
  rewrite previousItems_enter. fold merged. rewrite Hmerged.
  erewrite bind_Throw; [reflexivity|].
  rewrite summarizeLoop_cons, summarizeItem_pause; [reflexivity|exact Hneeds|].
  destruct (enterUpdate_tokens env sourceUrl st) as [-> | ->]; lia.
Qed.

End UpdateProps.

(** ** The run-level driver *)

Module DriverProps.
Import JSFacts RetryProps LoopProps UpdateProps.

(** *** Which computations start an update *)

Lemma quiet_ret {A} (a : A) : quiet (ret a).
Proof. intros st. reflexivity. Qed.

Lemma quiet_throw {A} e : quiet (@throw A e).
Proof. intros st. reflexivity. Qed.

Lemma quiet_get : quiet get.
Proof. intros st. reflexivity. Qed.

Lemma quiet_bind {A B} (m : M A) (k : A -> M B) :
  quiet m -> (forall a, quiet (k a)) -> quiet (bind m k).
Proof.
  intros Hm Hk st. unfold bind. specialize (Hm st).
  destruct (m st) as [[a|e] st1]; simpl in *; [|exact Hm].
  rewrite (Hk a st1). exact Hm.
Qed.

Lemma quiet_catch {A} (m : M A) (h : Error -> M A) :
  quiet m -> (forall e, quiet (h e)) -> quiet (catch m h).
Proof.
  intros Hm Hh st. unfold catch. specialize (Hm st).
  destruct (m st) as [[a|e] st1]; simpl in *; [exact Hm|].
  rewrite (Hh e st1). exact Hm.
Qed.

Lemma quiet_modify (f : State -> State) :
  (forall st, console (f st) = console st) -> quiet (modify f).
Proof. intros Hf st. simpl. rewrite Hf. reflexivity. Qed.

Lemma updatesStarted_app l1 l2 :
  updatesStarted (l1 ++ l2) = updatesStarted l1 ++ updatesStarted l2.
Proof. apply flat_map_app. Qed.

Lemma quiet_log l :
  (forall u, l <> LogUpdate u) -> quiet (log l).
Proof.
  intros Hl st. simpl. rewrite updatesStarted_app.
  destruct l; simpl; try apply app_nil_r. exfalso. eapply Hl. reflexivity.
Qed.

Lemma quiet_dateNow env : quiet (dateNow env).
Proof. intros st. reflexivity. Qed.

Lemma quiet_delay env : quiet (delay env).
Proof. intros st. rewrite delay_throws. reflexivity. Qed.

Lemma quiet_retry env title content :
  quiet (retry (fun _ => generateSummaryWithLimit env title content) RETRY_CONFIG).
Proof.
  intros st. unfold retry.
  pose proof (attempts_state env title content (retries RETRY_CONFIG) 1 st) as H.
  cbv zeta in H. rewrite H. reflexivity.
Qed.

Lemma quiet_summarizeItem env newItems item : quiet (summarizeItem env newItems item).
Proof.
  unfold summarizeItem. destruct (needsSummary newItems item); [|apply quiet_ret].
  apply quiet_bind; [apply quiet_get|]. intros st0.
  apply quiet_bind.
  - destruct (_ >? _); [|apply quiet_ret].
    apply quiet_bind; [apply quiet_log; discriminate|]. intros _.
    apply quiet_bind; [apply quiet_delay|]. intros _.
    apply quiet_bind; [apply quiet_modify; reflexivity|]. intros _.
    apply quiet_bind; [apply quiet_dateNow|]. intros now.
    apply quiet_modify. reflexivity.
  - intros _. apply quiet_catch.
    + apply quiet_bind; [apply quiet_retry|]. intros s.
      apply quiet_bind; [apply quiet_get|]. intros st1.
      apply quiet_bind; [apply quiet_modify; reflexivity|]. intros _.
      apply quiet_ret.
    + intros e. apply quiet_bind; [apply quiet_log; discriminate|]. intros _.
      apply quiet_ret.
Qed.

Lemma quiet_summarizeLoop env newItems : forall items acc,
  quiet (summarizeLoop env newItems items acc).
Proof.
  induction items as [|x l IH]; intros acc; simpl; [apply quiet_ret|].
  apply quiet_bind; [apply quiet_summarizeItem|]. intros p. apply IH.
Qed.

Lemma quiet_loadFeedData env sourceUrl : quiet (loadFeedData env sourceUrl).
Proof. intros st. rewrite loadFeedData_run. reflexivity. Qed.

Lemma quiet_fetchRssFeed env url : quiet (fetchRssFeed env url).
Proof.
  intros st. destruct (parseURL env url) as [feed|] eqn:H.
  - rewrite (fetchRssFeed_ok _ _ _ _ H). reflexivity.
  - rewrite (fetchRssFeed_fail _ _ _ H). reflexivity.
Qed.

Lemma quiet_saveFeedData env sourceUrl data : quiet (saveFeedData env sourceUrl data).
Proof.
  intros st. destruct (writeFails env (getSourceFilePath env sourceUrl)) eqn:H.
  - rewrite (saveFeedData_fail _ _ _ _ H). reflexivity.
  - rewrite (saveFeedData_ok _ _ _ _ H). reflexivity.
Qed.

Lemma quiet_updateFrom env sourceUrl existingData :
  quiet (updateFrom env sourceUrl existingData).
Proof.
  unfold updateFrom.
  apply quiet_bind; [apply quiet_fetchRssFeed|]. intros newFeed.
  apply quiet_bind; [apply quiet_summarizeLoop|]. intros xs.
  apply quiet_bind; [apply quiet_dateNow|]. intros now.
  apply quiet_bind; [apply quiet_saveFeedData|]. intros _.
  apply quiet_ret.
Qed.

(** [updateFeed] logs the start of exactly one update, its own. *)
Lemma updateFeed_started env sourceUrl st :
  updatesStarted (console (updateFeed env sourceUrl st).2)
  = updatesStarted (console st) ++ [sourceUrl].
Proof.
  rewrite updateFeed_run.
  pose proof (quiet_bind _ _ (quiet_loadFeedData env sourceUrl)
                (quiet_updateFrom env sourceUrl) (enterUpdate env sourceUrl st)) as H.
  rewrite enterUpdate_console, updatesStarted_app in H. simpl in H.
  destruct (bind _ _ (enterUpdate env sourceUrl st)) as [[d|e] st1]; simpl in *.
  - exact H.
  - rewrite updatesStarted_app, H. simpl. apply app_nil_r.
Qed.

(** *** The loop over the sources *)

Lemma forSources_cons env source rest results st :
  forSources env (source :: rest) results st =
  forSources env rest
    (<[Source.url source := isRet (updateFeed env (Source.url source) st).1]> results)
    (afterSource (Source.url source) (updateFeed env (Source.url source) st).1
       (updateFeed env (Source.url source) st).2).
Proof.
  simpl. unfold bind at 1. unfold catch at 1. unfold bind at 1.
  destruct (updateFeed env (Source.url source) st) as [[d|e] st1]; reflexivity.
Qed.

Lemma afterSource_started sourceUrl {A} (r : Res A) st :
  updatesStarted (console (afterSource sourceUrl r st)) = updatesStarted (console st).
Proof.
  unfold afterSource. destruct (isRet r); [reflexivity|].
  simpl. rewrite updatesStarted_app. apply app_nil_r.
Qed.

(** The loop never throws; it starts the update of every source, in
    order, and leaves a flag for every source. *)
Lemma forSources_returns env : forall sources results st,
  exists results' st',
    forSources env sources results st = (Ret results', st')
    /\ updatesStarted (console st')
       = updatesStarted (console st) ++ map Source.url sources
    /\ (forall u, In u (map Source.url sources) -> is_Some (results' !! u))
    /\ (forall u, ~ In u (map Source.url sources) -> results' !! u = results !! u).
Proof.
  induction sources as [|s l IH]; intros results st.
  - exists results, st. simpl. rewrite app_nil_r. repeat split; tauto.
  - rewrite forSources_cons.
    set (r := (updateFeed env (Source.url s) st).1).
    set (st1 := afterSource _ _ _).
    destruct (IH (<[Source.url s := isRet r]> results) st1)
      as (results' & st' & Hrun & Hstarted & Hdom & Hother).
    exists results', st'. split; [exact Hrun|]. split; [|split].
    + rewrite Hstarted. subst st1. rewrite afterSource_started, updateFeed_started.
      simpl. rewrite <- app_assoc. reflexivity.
    + intros u [<-|Hu].
      * destruct (in_dec String.string_dec (Source.url s) (map Source.url l)) as [Hin|Hnin].
        -- apply Hdom. exact Hin.
        -- rewrite (Hother _ Hnin), lookup_insert_eq. eexists. reflexivity.
      * apply Hdom. exact Hu.
    + intros u Hu. simpl in Hu. rewrite (Hother u) by tauto.
      apply lookup_insert_ne. tauto.
Qed.

Lemma forSources_app env : forall l1 l2 results st,
  forSources env (l1 ++ l2) results st =
  bind (forSources env l1 results) (fun results1 => forSources env l2 results1) st.
Proof.
  induction l1 as [|s l IH]; intros l2 results st.
  - reflexivity.
  - rewrite <- app_comm_cons, forSources_cons, IH.
    unfold bind. rewrite (forSources_cons env s l). reflexivity.
Qed.

(** C8: [main] exits with 0 when [updateAllFeeds] returns and with 1
    when it throws, and it throws only for want of a list of sources;
    given the list, [updateAllFeeds] returns whatever happens to the
    single sources: the update of every source is started, in order,
    and the flag recorded for a source is the success of its update
    (of the last one, should its address occur twice). *)
Theorem sources_isolated env st :
  (main env st).1 = Ret (if isRet (updateAllFeeds env st).1 then 0 else 1)
  /\ (isRet (updateAllFeeds env st).1 = false <-> Config.sources (config env) = None)
  /\ forall sources, Config.sources (config env) = Some sources ->
       exists results st',
         updateAllFeeds env st = (Ret results, st')
         /\ main env st = (Ret 0, st')
         /\ updatesStarted (console st')
            = updatesStarted (console st) ++ map Source.url sources
         /\ forall l1 s l2, sources = l1 ++ s :: l2 ->
              ~ In (Source.url s) (map Source.url l2) ->
              exists results1 st1,
                forSources env l1 ∅ st = (Ret results1, st1)
                /\ results !! Source.url s
                   = Some (isRet (updateFeed env (Source.url s) st1).1).
Proof.
  split; [|split].
  - unfold main, catch, bind.
    destruct (updateAllFeeds env st) as [[r|e] st']; reflexivity.
  - unfold updateAllFeeds. destruct (Config.sources (config env)) as [sources|].
    + destruct (forSources_returns env sources ∅ st) as (r & st' & -> & _).
      simpl. split; discriminate.
    + simpl. split; reflexivity.
  - intros sources Hsources. unfold main, catch, bind, updateAllFeeds.
    rewrite Hsources.
    destruct (forSources_returns env sources ∅ st) as (results & st' & Hrun & Hstarted & _).
    exists results, st'. rewrite Hrun.
    split; [reflexivity|]. split; [reflexivity|]. split; [exact Hstarted|].
    intros l1 s l2 -> Hlast.
    rewrite forSources_app in Hrun.
    destruct (forSources_returns env l1 ∅ st) as (results1 & st1 & Hrun1 & _).
    exists results1, st1. split; [exact Hrun1|].
    rewrite (bind_Ret _ _ _ _ _ Hrun1), forSources_cons in Hrun.
    match type of Hrun with
    | forSources _ _ ?r ?s0 = _ =>
        destruct (forSources_returns env l2 r s0) as (results2 & st2 & Hrun2 & _ & _ & Hother)
    end.
    rewrite Hrun2 in Hrun. injection Hrun as <- _.
    rewrite (Hother _ Hlast). apply lookup_insert_eq.
Qed.

Lemma sources_isolated_witness :
  exists results st',
    updateAllFeeds threeSources (initialState threeSources ∅) = (Ret results, st')
    /\ main threeSources (initialState threeSources ∅) = (Ret 0, st')
    /\ updatesStarted (console st') = ["a"; "b"; "c"]%string.
Proof.
  destruct (proj2 (proj2 (sources_isolated threeSources (initialState threeSources ∅)))
              (map (Source.mk "source") ["a"; "b"; "c"]%string))
    as (results & st' & Hrun & Hmain & Hstarted & _).
  - reflexivity.
  - exists results, st'. split; [exact Hrun|]. split; [exact Hmain|exact Hstarted].
Defined.

(** The second of three sources fails, the third is updated all the
    same, and the run exits with 0. *)
Example three_sources_run :
  (updateAllFeeds threeSources (initialState threeSources ∅)).1
  = Ret {[ "a"%string := true; "b"%string := false; "c"%string := true ]}
  /\ (main threeSources (initialState threeSources ∅)).1 = Ret 0.
Proof. split; vm_compute; reflexivity. Qed.

(** Without a list of sources the driver throws and the exit code is 1. *)
Example no_sources_run :
  (main (mkEnv (Config.mk None 10 "data") (fun u => u) (fun _ => 0) (fun _ => None)
           serviceUp (fun _ => false) (fun _ previous => previous))
     (mkState 0 0 ∅ [] 0 1)).1 = Ret 1.
Proof. reflexivity. Qed.

End DriverProps.

(** ** A snapshot that cannot be loaded *)

Module LoadProps.
Import Merge MergeInv JSFacts MergeFacts MergeProps UpdateProps.




(** With the corrupted file in place the source is updated and its
    entry is summarised as a new one. *)
Example corrupted_snapshot_run :
  (updateFeed (oneEntryEnv "c") "u" (mkState 0 0 corruptedFiles [] 0 1)).1
  = Ret (FeedData.mk "u" "feed" EmptyString EmptyString
           [withSummary (serializeItem (rawEntry "a" "t" "c")) (Some "ok"%string)]
           2000).
Proof. vm_compute. reflexivity. Qed.

End LoadProps.

(** ** The token pause *)

Module PauseProps.
Import Merge MergeInv JSFacts MergeFacts MergeProps LoopProps UpdateProps DriverProps.

Lemma pad_succ n : pad (N.succ n) = String "x"%char (pad n).
Proof. unfold pad. apply N.iter_succ. Qed.

Lemma length_pad n : String.length (pad n) = N.to_nat n.
Proof.
  induction n as [|n IH] using N.peano_ind; [reflexivity|].
  rewrite pad_succ, N2Nat.inj_succ. simpl. rewrite IH. reflexivity.
Qed.

(** The token count never passes the ceiling in one turn of the loop. *)
Lemma tokens_below_ceiling env newItems item st :
  currentMinuteTokens st <= 900000 ->
  currentMinuteTokens (summarizeItem env newItems item st).2 <= 900000.
Proof.
  intros Hst. destruct (needsSummary newItems item) eqn:Hn.
  - destruct (Z.le_gt_cases (currentMinuteTokens st + estimatedTokens item) 900000)
      as [Hfit|Hover].
    + rewrite (summarizeItem_ok _ _ _ _ Hn Hfit).
      pose proof (retry_tokens env (title item) (content item) st) as Htok.
      destruct (retry _ RETRY_CONFIG st) as [[s|e] st1]; simpl in *; lia.
    + rewrite summarizeItem_pause by (assumption || lia). simpl. exact Hst.
  - rewrite (summarizeItem_skip _ _ _ _ Hn). exact Hst.
Qed.

Lemma one_entry_pause content :
  900000 < estimatedTokens (serializeItem (rawEntry "a" "t" content)) ->
  (updateFeed (oneEntryEnv content) "u" (initialState (oneEntryEnv content) ∅)).1
  = Throw (ReferenceError "delay").
Proof.
  intros Hest.
  rewrite (updateFeed_pause (oneEntryEnv content) "u" _
             (sampleFeed [rawEntry "a" "t" content])
             (serializeItem (rawEntry "a" "t" content)) []).
  - reflexivity.
  - reflexivity.
  - simpl. lia.
  - vm_compute. reflexivity.
  - vm_compute. reflexivity.
  - exact Hest.
Qed.

Lemma estimate_nonempty c rest :
  estimatedTokens (serializeItem (rawEntry "a" "t" (String c rest)))
  = estimateTokens (S (S (String.length rest))).
Proof. reflexivity. Qed.

Lemma estimate_huge :
  estimatedTokens (serializeItem (rawEntry "a" "t" (pad (N.succ 2250001)))) = 900001.
Proof.
  rewrite pad_succ, estimate_nonempty, length_pad.
  unfold estimateTokens. rewrite !Nat2Z.inj_succ, N_nat_Z. reflexivity.
Qed.

(** C5 (the pause is not taken): a fresh entry whose title and content
    have 2,250,003 characters is estimated at 900,001 tokens; the
    reservation passes the ceiling, the wait calls [delay], which is not
    defined, and instead of being suspended the update of the source
    fails with a [ReferenceError]; the run records the source as
    failed. *)
Theorem token_pause_throws :
  (updateFeed (oneEntryEnv (pad 2250002)) "u"
     (initialState (oneEntryEnv (pad 2250002)) ∅)).1
  = Throw (ReferenceError "delay")
  /\ exists results,
       (updateAllFeeds (oneEntryEnv (pad 2250002))
          (initialState (oneEntryEnv (pad 2250002)) ∅)).1 = Ret results
       /\ results !! "u"%string = Some false.
Proof.
  assert (Hrun : (updateFeed (oneEntryEnv (pad 2250002)) "u"
                    (initialState (oneEntryEnv (pad 2250002)) ∅)).1
                 = Throw (ReferenceError "delay")).
  { apply one_entry_pause. change 2250002%N with (N.succ 2250001).
    rewrite estimate_huge. lia. }
  split; [exact Hrun|].
  unfold updateAllFeeds.
  change (Config.sources (config (oneEntryEnv (pad 2250002))))
    with (Some [Source.mk "source" "u"]).
  cbv beta iota. rewrite forSources_cons.
  change (Source.url (Source.mk "source" "u")) with "u"%string.
  rewrite Hrun. eexists. split; [reflexivity|]. apply lookup_insert_eq.
Qed.

End PauseProps.

(** ** Further properties of [mergeFeedItems] *)

Module MergeExtra.
Import Merge MergeInv JSFacts MergeFacts MergeProps.

(** *** The keys of the lookup *)

Lemma addOld_keys m item k :
  is_Some (addOld m item !! k) <->
  is_Some (m !! k) \/ (hasLink item = true /\ link item = k).
Proof.
  unfold addOld. destruct (hasLink item) eqn:Hl.
  - destruct (decide (link item = k)) as [<-|Hne].
    + rewrite lookup_insert_eq. split; [intros _; right; auto|intros _; eexists; reflexivity].
    + rewrite lookup_insert_ne by exact Hne. split; [auto|intros [H|[_ H]]; [exact H|contradiction]].
  - split; [auto|intros [H|[H _]]; [exact H|discriminate H]].
Qed.

Lemma fold_addOld_keys l : forall m k,
  is_Some (fold_left addOld l m !! k) <->
  is_Some (m !! k) \/ exists o, In o l /\ hasLink o = true /\ link o = k.
Proof.
  induction l as [|x l IH]; intros m k; simpl.
  - split; [auto|intros [H|(o & [] & _)]; exact H].
  - rewrite IH, addOld_keys. split.
    + intros [[H|[Hl Hk]]|(o & Ho & Hol & Hok)].
      * left. exact H.
      * right. exists x. auto.
      * right. exists o. auto.
    + intros [H|(o & [<-|Ho] & Hol & Hok)].
      * left. left. exact H.
      * left. right. auto.
      * right. exists o. auto.
Qed.

(** The lookup has a key exactly for the links of the previous entries
    that have one. *)
Lemma oldMap_keys oldItems k :
  is_Some (oldMap oldItems !! k) <->
  exists o, In o oldItems /\ hasLink o = true /\ link o = k.
Proof.
  unfold oldMap. rewrite fold_addOld_keys. split.
  - intros [H|H]; [|exact H]. rewrite lookup_empty in H. destruct H as [? H]. discriminate H.
  - intros H. right. exact H.
Qed.

Lemma oldMap_None oldItems k :
  oldMap oldItems !! k = None <->
  forall o, In o oldItems -> hasLink o = true -> link o <> k.
Proof.
  rewrite eq_None_not_Some, oldMap_keys. split.
  - intros H o Ho Hl Hk. apply H. exists o. auto.
  - intros H (o & Ho & Hl & Hk). exact (H o Ho Hl Hk).
Qed.

(** *** The entries reported as new *)

Section NewItems.
Variable m0 : gmap string Item.

Lemma addNew_tracks m acc item :
  tracks m0 m acc -> tracks m0 (addNew (m, acc) item).1 (addNew (m, acc) item).2.
Proof.
  intros (Ha & Hb & Hc & Hd). unfold addNew.
  destruct (hasLink item) eqn:Hl; [|split; [|split; [|split]]; assumption].
  assert (Hkeep : forall k, is_Some (m !! k) ->
            forall v, is_Some (<[link item := v]> m !! k)).
  { intros k Hk v. destruct (decide (link item = k)) as [<-|Hne].
    - rewrite lookup_insert_eq. eexists. reflexivity.
    - rewrite lookup_insert_ne by exact Hne. exact Hk. }
  destruct (m !! link item) as [e|] eqn:He; simpl.
  - split; [|split; [|split]].
    + intros k Hk. apply Hkeep, Ha, Hk.
    + intros k Hk. destruct (decide (link item = k)) as [<-|Hne].
      * apply Hb. rewrite He. eexists. reflexivity.
      * rewrite lookup_insert_ne in Hk by exact Hne. apply Hb, Hk.
    + intros x Hx. destruct (Hc x Hx) as (H1 & H2 & H3).
      split; [exact H1|]. split; [exact H2|]. apply Hkeep, H3.
    + exact Hd.
  - assert (Hnew : m0 !! link item = None).
    { apply eq_None_not_Some. intros H. apply Ha in H. rewrite He in H.
      destruct H as [? H]. discriminate H. }
    split; [|split; [|split]].
    + intros k Hk. apply Hkeep, Ha, Hk.
    + intros k Hk. destruct (decide (link item = k)) as [<-|Hne].
      * right. exists item. split; [apply in_or_app; right; left|]; reflexivity.
      * rewrite lookup_insert_ne in Hk by exact Hne.
        destruct (Hb k Hk) as [H|(x & Hx & Hxk)]; [left; exact H|].
        right. exists x. split; [apply in_or_app; left; exact Hx|exact Hxk].
    + intros x Hx. apply in_app_or in Hx as [Hx|[<-|[]]].
      * destruct (Hc x Hx) as (H1 & H2 & H3).
        split; [exact H1|]. split; [exact H2|]. apply Hkeep, H3.
      * split; [exact Hl|]. split; [exact Hnew|].
        rewrite lookup_insert_eq. eexists. reflexivity.
    + rewrite map_app. simpl. apply NoDup_app. split; [exact Hd|]. split.
      * intros k Hk Hk'. apply list_elem_of_In in Hk.
        apply in_map_iff in Hk as (x & <- & Hx).
        apply list_elem_of_In in Hk'. destruct Hk' as [Heq|[]].
        destruct (Hc x Hx) as (_ & _ & [v Hv]). rewrite <- Heq, He in Hv. discriminate Hv.
      * apply NoDup_singleton.
Qed.

Lemma fold_addNew_tracks l : forall m acc,
  tracks m0 m acc ->
  tracks m0 (fold_left addNew l (m, acc)).1 (fold_left addNew l (m, acc)).2.
Proof.
  induction l as [|item l IH]; intros m acc H; cbn [fold_left]; [exact H|].
  pose proof (addNew_tracks m acc item H) as Hstep.
  destruct (addNew (m, acc) item) as [m' acc']. apply IH. exact Hstep.
Qed.

End NewItems.

Lemma fold_addNew_from l : forall m acc x,
  In x (fold_left addNew l (m, acc)).2 -> In x acc \/ In x l.
Proof.
  induction l as [|item l IH]; intros m acc x; cbn [fold_left]; [auto|].
  intros H.
  destruct (addNew (m, acc) item) as [m' acc'] eqn:E.
  destruct (IH m' acc' x H) as [Hx|Hx]; [|right; right; exact Hx].
  unfold addNew in E. destruct (hasLink item).
  - destruct (m !! link item); injection E as <- <-; [left; exact Hx|].
    apply in_app_or in Hx as [Hx|[<-|[]]]; [left; exact Hx|right; left; reflexivity].
  - injection E as <- <-. left. exact Hx.
Qed.

Lemma tracks_start m0 : tracks m0 m0 [].
Proof.
  split; [|split; [|split]].
  - auto.
  - intros k Hk. left. exact Hk.
  - intros x [].
  - constructor.
Qed.

Lemma merge_tracks oldItems newItems maxItems :
  tracks (oldMap oldItems) (finalMap oldItems newItems)
    (newItemsForSummary (mergeFeedItems oldItems newItems maxItems)).
Proof.
  rewrite newItemsForSummary_unfold. unfold finalMap.
  rewrite <- (fold_addNew_fst newItems (oldMap oldItems) []).
  apply fold_addNew_tracks, tracks_start.
Qed.

(** X1: the links of [mergedItems] are the links of the fresh entries
    that have one, in the order of the fresh list, cut by
    [slice(0, maxItems)]; the previous list has no influence on which
    links appear, nor on their order. *)
Theorem merged_follow_fresh oldItems newItems maxItems :
  map link (mergedItems (mergeFeedItems oldItems newItems maxItems))
  = JS.slice0 maxItems (map link (List.filter hasLink newItems)).
Proof. apply mergedItems_links. Qed.

(** X2: the entries reported in [newItemsForSummary] are fresh entries
    that have a link, their links are pairwise distinct (a link repeated
    in the fresh list is reported once), and none of them is the link of
    a previous entry. *)
Theorem new_items_distinct_unknown oldItems newItems maxItems :
  NoDup (map link (newItemsForSummary (mergeFeedItems oldItems newItems maxItems)))
  /\ forall x, In x (newItemsForSummary (mergeFeedItems oldItems newItems maxItems)) ->
       In x newItems /\ hasLink x = true
       /\ forall o, In o oldItems -> hasLink o = true -> link o <> link x.
Proof.
  destruct (merge_tracks oldItems newItems maxItems) as (_ & _ & Hc & Hd).
  split; [exact Hd|]. intros x Hx.
  destruct (Hc x Hx) as (Hl & Hnone & _). split; [|split; [exact Hl|]].
  - rewrite newItemsForSummary_unfold in Hx.
    destruct (fold_addNew_from _ _ _ _ Hx) as [[]|H]. exact H.
  - apply oldMap_None. exact Hnone.
Qed.

Lemma new_items_distinct_unknown_witness :
  In (entry "b" None) [entry "a" None; entry "b" None; entry "b" None]
  /\ hasLink (entry "b" None) = true
  /\ forall o, In o [entry "a" (Some "S"%string)] -> hasLink o = true ->
       link o <> link (entry "b" None).
Proof.
  apply (proj2 (new_items_distinct_unknown [entry "a" (Some "S"%string)]
                  [entry "a" None; entry "b" None; entry "b" None] 10)
           (entry "b" None)).
  vm_compute. left. reflexivity.
Defined.

Lemma isNewItem_unknown oldItems newItems maxItems f :
  In f newItems -> hasLink f = true ->
  isNewItem (newItemsForSummary (mergeFeedItems oldItems newItems maxItems)) f = true
  <-> forall o, In o oldItems -> hasLink o = true -> link o <> link f.
Proof.
  intros Hin Hl.
  destruct (merge_tracks oldItems newItems maxItems) as (_ & Hb & Hc & _).
  unfold isNewItem. rewrite existsb_exists. split.
  - intros (x & Hx & Heq). apply String.eqb_eq in Heq.
    destruct (Hc x Hx) as (_ & Hnone & _). rewrite Heq in Hnone.
    apply oldMap_None. exact Hnone.
  - intros Hold. apply oldMap_None in Hold.
    destruct (fold_nextMap_In newItems (oldMap oldItems) f Hin Hl) as (e & He & _).
    destruct (Hb (link f)) as [[v Hv]|(x & Hx & Hxk)].
    + unfold finalMap. rewrite He. eexists. reflexivity.
    + rewrite Hold in Hv. discriminate Hv.
    + exists x. split; [exact Hx|]. apply String.eqb_eq. exact Hxk.
Qed.

(** X3: a fresh entry with a link counts as new, for the loop of
    [updateFeed], exactly when no previous entry with a link carries its
    link. *)
Theorem isNewItem_iff_unknown oldItems newItems maxItems f :
  In f newItems -> hasLink f = true ->
  isNewItem (newItemsForSummary (mergeFeedItems oldItems newItems maxItems)) f = true
  <-> forall o, In o oldItems -> hasLink o = true -> link o <> link f.
Proof. apply isNewItem_unknown. Qed.

Lemma isNewItem_iff_unknown_witness :
  isNewItem
    (newItemsForSummary
       (mergeFeedItems [entry "a" (Some "S")] [entry "a" None; entry "b" None] 10))
    (entry "b" None) = true
  <-> forall o, In o [entry "a" (Some "S")] -> hasLink o = true -> link o <> "b"%string.
Proof.
  apply (isNewItem_iff_unknown [entry "a" (Some "S")] [entry "a" None; entry "b" None]
           10 (entry "b" None)).
  - right. left. reflexivity.
  - reflexivity.
Defined.

(** *** The fields and the summary of a merged entry *)

Lemma fold_nextMap_other l : forall m k,
  Forall (fun x => link x <> k) l -> fold_left nextMap l m !! k = m !! k.
Proof.
  induction l as [|x l IH]; intros m k Hl; simpl; [reflexivity|].
  inversion Hl; subst. rewrite IH by assumption. apply nextMap_other. assumption.
Qed.

Lemma last_with_link (l : list Item) : forall f0,
  In f0 l ->
  exists l1 f l2, l = l1 ++ f :: l2 /\ link f = link f0
                  /\ Forall (fun x => link x <> link f) l2.
Proof.
  induction l as [|x l IH] using rev_ind; intros f0 Hin; [destruct Hin|].
  destruct (decide (link x = link f0)) as [Heq|Hne].
  - exists l, x, []. split; [reflexivity|]. split; [exact Heq|constructor].
  - apply in_app_or in Hin as [Hin|[->|[]]]; [|contradiction].
    destruct (IH f0 Hin) as (l1 & f & l2 & -> & Hk & Hl2).
    exists l1, f, (l2 ++ [x]). split; [rewrite <- app_assoc; reflexivity|].
    split; [exact Hk|]. apply Forall_app. split; [exact Hl2|].
    constructor; [congruence|constructor].
Qed.

(** X4: every merged entry has the fields of a fresh entry, its summary
    apart: of the last fresh entry that carries its link. *)
Theorem merged_fields_from_fresh oldItems newItems maxItems m :
  In m (mergedItems (mergeFeedItems oldItems newItems maxItems)) ->
  exists l1 f l2,
    newItems = l1 ++ f :: l2
    /\ Forall (fun x => link x <> link f) l2
    /\ hasLink f = true
    /\ m = withSummary f (summary m).
Proof.
  rewrite mergedItems_pick. intros Hm.
  apply in_map_iff in Hm as (f0 & <- & Hf0).
  destruct (In_sliced_filter _ _ _ Hf0) as [Hin Hl].
  destruct (last_with_link newItems f0 Hin) as (l1 & f & l2 & Hsplit & Hk & Hl2).
  assert (Hfl : hasLink f = true) by (unfold hasLink in *; rewrite Hk; exact Hl).
  exists l1, f, l2. split; [exact Hsplit|]. split; [exact Hl2|]. split; [exact Hfl|].
  assert (He : finalMap oldItems newItems !! link f0 =
               Some (withSummary f
                       (JS.or (summaryOf (fold_left nextMap l1 (oldMap oldItems) !! link f))
                          (summary f)))).
  { unfold finalMap. rewrite Hsplit, fold_left_app. simpl.
    rewrite <- Hk, fold_nextMap_other by exact Hl2.
    apply nextMap_self. exact Hfl. }
  rewrite (pick_lookup _ _ _ Hl He). reflexivity.
Qed.

Lemma merged_fields_from_fresh_witness :
  exists l1 f l2,
    [mkItem "old title" "a" "p" "i" "c" "s" "x" None None;
     mkItem "new title" "a" "p" "i" "c" "s" "x" None (Some "T")]
    = l1 ++ f :: l2
    /\ Forall (fun x => link x <> link f) l2
    /\ hasLink f = true
    /\ mkItem "new title" "a" "p" "i" "c" "s" "x" None (Some "T")
       = withSummary f (Some "T"%string).
Proof.
  apply (merged_fields_from_fresh []
           [mkItem "old title" "a" "p" "i" "c" "s" "x" None None;
            mkItem "new title" "a" "p" "i" "c" "s" "x" None (Some "T")]
           10 (mkItem "new title" "a" "p" "i" "c" "s" "x" None (Some "T"))).
  vm_compute. left. reflexivity.
Defined.

Lemma fold_nextMap_summary l : forall m k,
  JS.truthyStr k = true ->
  summaryOf (fold_left nextMap l m !! k) =
  fold_left JS.or
    (map summary (List.filter (fun f => String.eqb (link f) k) l))
    (summaryOf (m !! k)).
Proof.
  induction l as [|x l IH]; intros m k Hk; simpl; [reflexivity|].
  rewrite IH by exact Hk.
  destruct (String.eqb_spec (link x) k) as [Heq|Hne].
  - simpl. f_equal. subst k. rewrite nextMap_self by exact Hk. reflexivity.
  - rewrite nextMap_other by exact Hne. reflexivity.
Qed.

Lemma merged_summary_fold oldItems newItems maxItems m :
  In m (mergedItems (mergeFeedItems oldItems newItems maxItems)) ->
  summary m =
  fold_left JS.or
    (map summary (List.filter (fun f => String.eqb (link f) (link m)) newItems))
    (summaryOf (oldMap oldItems !! link m)).
Proof.
  intros Hm. pose proof (merged_hasLink _ _ _ _ Hm) as Hml.
  rewrite mergedItems_pick in Hm.
  apply in_map_iff in Hm as (f & Hpick & Hf).
  destruct (In_sliced_filter _ _ _ Hf) as [Hin Hl].
  destruct (fold_nextMap_In newItems (oldMap oldItems) f Hin Hl) as (e & He & Hk).
  assert (Hme : m = e) by (rewrite <- Hpick; apply pick_lookup; assumption).
  subst e. rewrite <- (fold_nextMap_summary newItems (oldMap oldItems) (link m) Hml).
  rewrite <- Hk in He. rewrite He. reflexivity.
Qed.

(** X5: the summary of a merged entry is the first non-empty one among
    the summary of the previous entry looked up for its link and the
    summaries of the fresh entries with its link, in order; when none is
    non-empty it is the summary of the last of these fresh entries. In
    the words of the code: the chain of [||] over them. *)
Theorem merged_summary_chain oldItems newItems maxItems m :
  In m (mergedItems (mergeFeedItems oldItems newItems maxItems)) ->
  summary m =
  fold_left JS.or
    (map summary (List.filter (fun f => String.eqb (link f) (link m)) newItems))
    (summaryOf (oldMap oldItems !! link m)).
Proof. apply merged_summary_fold. Qed.

Lemma merged_summary_chain_witness :
  summary (entry "a" (Some "T1")) =
  fold_left JS.or
    (map summary
       (List.filter (fun f => String.eqb (link f) (link (entry "a" (Some "T1"))))
          [entry "a" None; entry "a" (Some "T1"); entry "a" (Some "T2")]))
    (summaryOf (oldMap [entry "a" (Some EmptyString)] !! link (entry "a" (Some "T1")))).
Proof.
  apply (merged_summary_chain [entry "a" (Some EmptyString)]
           [entry "a" None; entry "a" (Some "T1"); entry "a" (Some "T2")] 1).
  vm_compute. left. reflexivity.
Defined.

(** *** Entries without a link, and the cut *)

Lemma fold_addOld_filter l : forall m,
  fold_left addOld (List.filter hasLink l) m = fold_left addOld l m.
Proof.
  induction l as [|x l IH]; intros m; simpl; [reflexivity|].
  destruct (hasLink x) eqn:Hl; simpl; rewrite IH; [reflexivity|].
  unfold addOld. rewrite Hl. reflexivity.
Qed.

Lemma fold_addNew_filter l : forall st,
  fold_left addNew (List.filter hasLink l) st = fold_left addNew l st.
Proof.
  induction l as [|x l IH]; intros st; simpl; [reflexivity|].
  destruct (hasLink x) eqn:Hl; simpl; rewrite IH; [reflexivity|].
  unfold addNew. destruct st as [m acc]. rewrite Hl. reflexivity.
Qed.

Lemma filter_within {A} (p q : A -> bool) (l : list A) :
  (forall x, q x = true -> p x = true) ->
  List.filter q (List.filter p l) = List.filter q l.
Proof.
  intros Hqp. induction l as [|x l IH]; simpl; [reflexivity|].
  destruct (p x) eqn:Hp; simpl; rewrite IH; [reflexivity|].
  destruct (q x) eqn:Hq; [|reflexivity].
  rewrite (Hqp x Hq) in Hp. discriminate Hp.
Qed.

(** X6: entries without a link are inert: removing them from the
    previous list and from the fresh list changes nothing of the
    result. *)
Theorem linkless_inert oldItems newItems maxItems :
  mergeFeedItems (List.filter hasLink oldItems) (List.filter hasLink newItems) maxItems
  = mergeFeedItems oldItems newItems maxItems.
Proof.
  unfold mergeFeedItems. rewrite fold_addOld_filter, fold_addNew_filter.
  destruct (fold_left addNew newItems (fold_left addOld oldItems ∅, [])) as [m acc].
  f_equal. f_equal. f_equal. apply filter_within.
  intros x Hx. apply andb_true_iff in Hx. tauto.
Qed.

(** For every integer [maxItems] the length of [mergedItems] is the
    one [slice(0, maxItems)] leaves of the [n] fresh entries that have a
    link: [min maxItems n] for a count, and [max (n + maxItems) 0] for a
    negative [maxItems], which drops entries from the end. *)
Lemma merged_length_slice oldItems newItems maxItems :
  Z.of_nat (length (mergedItems (mergeFeedItems oldItems newItems maxItems))) =
  let n := Z.of_nat (length (List.filter hasLink newItems)) in
  if maxItems <? 0 then Z.max (n + maxItems) 0 else Z.min maxItems n.
Proof.
  rewrite mergedItems_pick, length_map. unfold JS.slice0.
  rewrite length_firstn. cbv zeta.
  destruct (maxItems <? 0) eqn:Hneg; lia.
Qed.

End MergeExtra.

(** ** Further properties of the retrying *)

Module RetryExtra.
Import JSFacts RetryProps.

Local Open Scope nat_scope.

Lemma generate_succeeds env title content st :
  succeeds (api env (apiCalls st) title content) = true ->
  generateSummaryWithLimit env title content st =
  (Ret (textOf (api env (apiCalls st) title content)), countApiCall st).
Proof.
  intros H. rewrite generateSummaryWithLimit_run. unfold succeeds, textOf in *.
  destruct (api env (apiCalls st) title content) as [message|status text|status message];
    [discriminate H| |discriminate H].
  apply andb_true_iff in H as [H1 H2]. apply negb_true_iff in H1.
  rewrite H1, H2. reflexivity.
Qed.

Lemma orStr_nonempty text d : d <> EmptyString -> JS.orStr text d <> EmptyString.
Proof.
  intros Hd. unfold JS.orStr, JS.or. destruct text as [s|]; simpl; [|exact Hd].
  destruct (JS.truthyStr s) eqn:Hs; simpl; [|exact Hd].
  apply truthyStr_true. exact Hs.
Qed.

Lemma textOf_nonempty r : textOf r <> EmptyString.
Proof.
  destruct r as [message|status text|status message]; simpl;
    [|apply orStr_nonempty|]; discriminate.
Qed.

(** Whatever the retrying returns is a non-empty text. *)
Lemma attempts_nonempty env title content r : forall n st s st',
  attempts (fun _ => generateSummaryWithLimit env title content) r n st = (Ret s, st') ->
  s <> EmptyString.
Proof.
  induction r as [|r IH]; intros n st s st'; rewrite attempts_step;
    rewrite generateSummaryWithLimit_run;
    destruct (api env (apiCalls st) title content) as [message|status text|status message];
    try (destruct (status =? 429)%Z; [|destruct (negb (responseOk status))]);
    cbn [notRetried]; try destruct (negb (isNetworkError message));
    try discriminate;
    try (intros H; injection H as <- _; apply orStr_nonempty; discriminate);
    apply IH.
Qed.

Lemma attempts_success env title content : forall k r n st,
  k <= r ->
  (forall j, j < k -> failed (api env (apiCalls st + j) title content) = true) ->
  succeeds (api env (apiCalls st + k) title content) = true ->
  attempts (fun _ => generateSummaryWithLimit env title content) r n st =
  (Ret (textOf (api env (apiCalls st + k) title content)),
   withApiCalls (apiCalls st + k + 1) st).
Proof.
  induction k as [|k IH]; intros r n st Hk Hfail Hok; rewrite attempts_step.
  - rewrite Nat.add_0_r in Hok |- *. rewrite (generate_succeeds _ _ _ _ Hok).
    unfold countApiCall, withApiCalls. do 2 f_equal. lia.
  - destruct r as [|r]; [lia|].
    rewrite (generate_failed env title content st)
      by (rewrite <- (Nat.add_0_r (apiCalls st)); apply Hfail; lia).
    cbn [notRetried].
    rewrite (IH r (S n) (countApiCall st)).
    + simpl. unfold withApiCalls. simpl.
      replace (S (apiCalls st + k)) with (apiCalls st + S k) by lia.
      do 3 f_equal. lia.
    + lia.
    + intros j Hj. simpl. replace (S (apiCalls st + j)) with (apiCalls st + S j) by lia.
      apply Hfail. lia.
    + simpl. replace (S (apiCalls st + k)) with (apiCalls st + S k) by lia.
      exact Hok.
Qed.

Lemma attempts_exhausted env title content : forall r n st,
  (forall j, j <= r -> failed (api env (apiCalls st + j) title content) = true) ->
  exists e,
    attempts (fun _ => generateSummaryWithLimit env title content) r n st =
    (Throw e, withApiCalls (apiCalls st + r + 1) st).
Proof.
  induction r as [|r IH]; intros n st Hfail; rewrite attempts_step;
    rewrite (generate_failed env title content st)
      by (rewrite <- (Nat.add_0_r (apiCalls st)); apply Hfail; lia);
    cbn [notRetried].
  - eexists. unfold countApiCall, withApiCalls. do 2 f_equal. lia.
  - destruct (IH (S n) (countApiCall st)) as (e' & He').
    { intros j Hj. simpl. replace (S (apiCalls st + j)) with (apiCalls st + S j) by lia.
      apply Hfail. lia. }
    exists e'. rewrite He'. unfold withApiCalls. simpl. do 2 f_equal. lia.
Qed.

(** X7: the retrying returns the text of the first attempt that
    succeeds: when the first [k] requests fail with a status that is
    retried and request [k + 1 <= 4] succeeds, the result is its text,
    a non-empty one, after exactly [k + 1] requests, and nothing else of
    the state has changed. *)
Theorem retry_first_success env title content st k :
  k <= retries RETRY_CONFIG ->
  (forall j, j < k -> failed (api env (apiCalls st + j) title content) = true) ->
  succeeds (api env (apiCalls st + k) title content) = true ->
  retry (fun _ => generateSummaryWithLimit env title content) RETRY_CONFIG st =
  (Ret (textOf (api env (apiCalls st + k) title content)),
   withApiCalls (apiCalls st + k + 1) st)
  /\ textOf (api env (apiCalls st + k) title content) <> EmptyString.
Proof.
  intros Hk Hfail Hok. split; [|apply textOf_nonempty].
  unfold retry. apply attempts_success; assumption.
Qed.

Lemma retry_first_success_witness :
  retry (fun _ => generateSummaryWithLimit
                    (sampleEnv [] (fun _ => None)
                       (fun i _ _ => if (i <? 2)%nat then Response 503 None
                                     else Response 200 (Some "text"%string)))
                    "title" "content") RETRY_CONFIG (mkState 0 0 ∅ [] 0 1)
  = (Ret "text"%string, mkState 0 0 ∅ [] 3 1)
  /\ "text"%string <> EmptyString.
Proof.
  apply (retry_first_success
           (sampleEnv [] (fun _ => None)
              (fun i _ _ => if (i <? 2)%nat then Response 503 None
                            else Response 200 (Some "text"%string)))
           "title" "content" (mkState 0 0 ∅ [] 0 1) 2).
  - simpl. lia.
  - intros j Hj. destruct j as [|[|j]]; [reflexivity|reflexivity|lia].
  - reflexivity.
Defined.

(** X8: when four requests in a row fail with a status that is retried,
    the retrying gives up with an error after exactly four requests
    ([retries + 1]); nothing else of the state has changed. *)
Theorem retry_exhausted env title content st :
  (forall j, j <= retries RETRY_CONFIG ->
             failed (api env (apiCalls st + j) title content) = true) ->
  exists e,
    retry (fun _ => generateSummaryWithLimit env title content) RETRY_CONFIG st =
    (Throw e, withApiCalls (apiCalls st + 4) st).
Proof.
  intros Hfail. unfold retry.
  destruct (attempts_exhausted env title content (retries RETRY_CONFIG) 1 st Hfail)
    as (e & He).
  exists e. rewrite He. f_equal. f_equal. simpl. lia.
Qed.

Lemma retry_exhausted_witness :
  exists e,
    retry (fun _ => generateSummaryWithLimit (sampleEnv [] (fun _ => None) serviceDown)
                      "title" "content") RETRY_CONFIG (mkState 0 0 ∅ [] 0 1)
    = (Throw e, mkState 0 0 ∅ [] 4 1).
Proof.
  apply (retry_exhausted (sampleEnv [] (fun _ => None) serviceDown) "title" "content"
           (mkState 0 0 ∅ [] 0 1)).
  intros j Hj. reflexivity.
Defined.

End RetryExtra.

(** ** Further properties of the update of a source *)

Module UpdateExtra.
Import Merge MergeInv JSFacts MergeFacts MergeProps RetryProps LoopProps UpdateProps
  DriverProps PauseProps MergeExtra RetryExtra.

(** *** Relations kept by every run *)

Section Respects.
Variable R : State -> State -> Prop.
Hypothesis R_refl : forall st, R st st.
Hypothesis R_trans : forall a b c, R a b -> R b c -> R a c.

Lemma respects_ret {A} (a : A) : respects R (ret a).
Proof. intros st. apply R_refl. Qed.

Lemma respects_throw {A} e : respects R (@throw A e).
Proof. intros st. apply R_refl. Qed.

Lemma respects_get : respects R get.
Proof. intros st. apply R_refl. Qed.

Lemma respects_modify (f : State -> State) :
  (forall st, R st (f st)) -> respects R (modify f).
Proof. intros Hf st. apply Hf. Qed.

Lemma respects_bind {A B} (m : M A) (k : A -> M B) :
  respects R m -> (forall a, respects R (k a)) -> respects R (bind m k).
Proof.
  intros Hm Hk st. unfold bind. specialize (Hm st).
  destruct (m st) as [[a|e] st1]; simpl in *; [|exact Hm].
  eapply R_trans; [exact Hm|apply Hk].
Qed.

Lemma respects_catch {A} (m : M A) (h : Error -> M A) :
  respects R m -> (forall e, respects R (h e)) -> respects R (catch m h).
Proof.
  intros Hm Hh st. unfold catch. specialize (Hm st).
  destruct (m st) as [[a|e] st1]; simpl in *; [exact Hm|].
  eapply R_trans; [exact Hm|apply Hh].
Qed.

Lemma respects_summarizeLoop env newItems :
  (forall item, respects R (summarizeItem env newItems item)) ->
  forall items acc, respects R (summarizeLoop env newItems items acc).
Proof.
  intros Hitem. induction items as [|x l IH]; intros acc; simpl.
  - apply respects_ret.
  - apply respects_bind; [apply Hitem|]. intros p. apply IH.
Qed.

End Respects.

(** *** The data directory *)

Lemma sameFiles_refl st : sameFiles st st.
Proof. reflexivity. Qed.

Lemma sameFiles_trans a b c : sameFiles a b -> sameFiles b c -> sameFiles a c.
Proof. unfold sameFiles. congruence. Qed.

Lemma sameFiles_retry env title content :
  respects sameFiles
    (retry (fun _ => generateSummaryWithLimit env title content) RETRY_CONFIG).
Proof.
  intros st. unfold sameFiles, retry.
  pose proof (attempts_state env title content (retries RETRY_CONFIG) 1 st) as H.
  cbv zeta in H. rewrite H. reflexivity.
Qed.

Lemma sameFiles_summarizeItem env newItems item :
  respects sameFiles (summarizeItem env newItems item).
Proof.
  pose proof sameFiles_refl as Hr. pose proof sameFiles_trans as Ht.
  unfold summarizeItem. destruct (needsSummary newItems item);
    [|exact (respects_ret _ Hr item)].
  apply (respects_bind _ Ht); [exact (respects_get _ Hr)|]. intros st0.
  apply (respects_bind _ Ht).
  - destruct (_ >? _); [|exact (respects_ret _ Hr tt)].
    apply (respects_bind _ Ht); [intros st; reflexivity|]. intros _.
    apply (respects_bind _ Ht); [intros st; reflexivity|]. intros _.
    apply (respects_bind _ Ht); [intros st; reflexivity|]. intros _.
    apply (respects_bind _ Ht); [intros st; reflexivity|]. intros now.
    intros st. reflexivity.
  - intros _. apply (respects_catch _ Ht).
    + apply (respects_bind _ Ht); [apply sameFiles_retry|]. intros s.
      apply (respects_bind _ Ht); [exact (respects_get _ Hr)|]. intros st1.
      apply (respects_bind _ Ht); [intros st; reflexivity|]. intros _.
      apply (respects_ret _ Hr).
    + intros e. apply (respects_bind _ Ht); [intros st; reflexivity|].
      intros _. apply (respects_ret _ Hr).
Qed.

Lemma sameFiles_summarizeLoop env newItems items acc :
  respects sameFiles (summarizeLoop env newItems items acc).
Proof.
  apply respects_summarizeLoop;
    [apply sameFiles_refl|apply sameFiles_trans|apply sameFiles_summarizeItem].
Qed.

(** [updateFrom] by cases: the feed cannot be fetched; the loop throws;
    the snapshot cannot be written; the snapshot is written. *)
Lemma updateFrom_cases env sourceUrl existingData st :
  updateFrom env sourceUrl existingData st =
  match parseURL env sourceUrl with
  | None => (Throw (Err "获取RSS源失败"), st)
  | Some feed =>
      let merged :=
        mergeFeedItems
          (match existingData with Some data => FeedData.items data | None => [] end)
          (map serializeItem (RawFeed.items feed))
          (Config.maxItemsPerFeed (config env)) in
      match summarizeLoop env (newItemsForSummary merged) (mergedItems merged) [] st with
      | (Throw e, st1) => (Throw e, st1)
      | (Ret itemsWithSummaries, st1) =>
          let updatedData :=
            {| FeedData.sourceUrl := sourceUrl;
               FeedData.title := JS.orStr (RawFeed.title feed) EmptyString;
               FeedData.description := JS.orStr (RawFeed.description feed) EmptyString;
               FeedData.link := JS.orStr (RawFeed.link feed) EmptyString;
               FeedData.items := itemsWithSummaries;
               FeedData.lastUpdated := clock env (clockReads st1) |} in
          if writeFails env (getSourceFilePath env sourceUrl)
          then (Throw (Err "保存源数据失败"),
                afterFailedSave env sourceUrl (countClockRead st1))
          else (Ret updatedData,
                setFile (getSourceFilePath env sourceUrl) (Document updatedData)
                  (countClockRead st1))
      end
  end.
Proof.
  unfold updateFrom. destruct (parseURL env sourceUrl) as [feed|] eqn:Hfeed.
  - rewrite (bind_Ret _ _ _ _ _ (fetchRssFeed_ok env sourceUrl st feed Hfeed)).
    cbn [Feed.items Feed.title Feed.description Feed.link]. cbv zeta.
    unfold bind at 1.
    destruct (summarizeLoop env _ _ [] st) as [[xs|e] st1]; [|reflexivity].
    unfold bind at 1. unfold dateNow at 1.
    destruct (writeFails env (getSourceFilePath env sourceUrl)) eqn:Hw.
    + erewrite bind_Throw by (apply saveFeedData_fail; exact Hw). reflexivity.
    + erewrite bind_Ret by (apply saveFeedData_ok; exact Hw). reflexivity.
  - apply bind_Throw, fetchRssFeed_fail, Hfeed.
Qed.

Lemma load_update_state env sourceUrl st :
  bind (loadFeedData env sourceUrl) (updateFrom env sourceUrl) st =
  updateFrom env sourceUrl
    match files st !! getSourceFilePath env sourceUrl with
    | Some (Document data) => Some data
    | _ => None
    end st.
Proof. apply bind_Ret, loadFeedData_run. Qed.

Lemma loaded_items env sourceUrl st :
  match
    match files st !! getSourceFilePath env sourceUrl with
    | Some (Document data) => Some data
    | _ => None
    end
  with
  | Some data => FeedData.items data
  | None => []
  end = previousItems env sourceUrl st.
Proof.
  unfold previousItems.
  destruct (files st !! getSourceFilePath env sourceUrl) as [[| |]|]; reflexivity.
Qed.

(** [updateFeed] by cases. *)
Lemma updateFeed_cases env sourceUrl st :
  updateFeed env sourceUrl st =
  let st0 := enterUpdate env sourceUrl st in
  match parseURL env sourceUrl with
  | None => (Throw (Err "获取RSS源失败"), addLog (LogUpdateError sourceUrl) st0)
  | Some feed =>
      let merged :=
        mergeFeedItems (previousItems env sourceUrl st)
          (map serializeItem (RawFeed.items feed))
          (Config.maxItemsPerFeed (config env)) in
      match summarizeLoop env (newItemsForSummary merged) (mergedItems merged) [] st0 with
      | (Throw e, st1) => (Throw e, addLog (LogUpdateError sourceUrl) st1)
      | (Ret itemsWithSummaries, st1) =>
          let updatedData :=
            {| FeedData.sourceUrl := sourceUrl;
               FeedData.title := JS.orStr (RawFeed.title feed) EmptyString;
               FeedData.description := JS.orStr (RawFeed.description feed) EmptyString;
               FeedData.link := JS.orStr (RawFeed.link feed) EmptyString;
               FeedData.items := itemsWithSummaries;
               FeedData.lastUpdated := clock env (clockReads st1) |} in
          if writeFails env (getSourceFilePath env sourceUrl)
          then (Throw (Err "保存源数据失败"),
                addLog (LogUpdateError sourceUrl)
                  (afterFailedSave env sourceUrl (countClockRead st1)))
          else (Ret updatedData,
                setFile (getSourceFilePath env sourceUrl) (Document updatedData)
                  (countClockRead st1))
      end
  end.
Proof.
  rewrite updateFeed_run, load_update_state, updateFrom_cases. cbv zeta.
  rewrite loaded_items, previousItems_enter.
  destruct (parseURL env sourceUrl) as [feed|]; [|reflexivity].
  destruct (summarizeLoop env _ _ [] (enterUpdate env sourceUrl st)) as [[xs|e] st1];
    [|reflexivity].
  destruct (writeFails env (getSourceFilePath env sourceUrl)); reflexivity.
Qed.





(** X10: when the feed cannot be fetched, [updateFeed] throws the fetch
    error without sending a request to the service and without touching
    the token count or the files. *)
Theorem fetch_failure_aborts env sourceUrl st :
  parseURL env sourceUrl = None ->
  updateFeed env sourceUrl st =
  (Throw (Err "获取RSS源失败"),
   addLog (LogUpdateError sourceUrl) (enterUpdate env sourceUrl st))
  /\ apiCalls (updateFeed env sourceUrl st).2 = apiCalls st
  /\ files (updateFeed env sourceUrl st).2 = files st.
Proof.
  intros Hfeed.
  assert (Hrun : updateFeed env sourceUrl st =
                 (Throw (Err "获取RSS源失败"),
                  addLog (LogUpdateError sourceUrl) (enterUpdate env sourceUrl st))).
  { rewrite updateFeed_run, load_update_state, updateFrom_cases, Hfeed. reflexivity. }
  rewrite Hrun. split; [reflexivity|]. split.
  - simpl. unfold enterUpdate. destruct (_ >? _); reflexivity.
  - simpl. apply enterUpdate_files.
Qed.

Lemma fetch_failure_aborts_witness :
  (updateFeed (sampleEnv ["u"%string] (fun _ => None) serviceUp) "u"
     (mkState 0 0 ∅ [] 0 1)).1
  = Throw (Err "获取RSS源失败").
Proof.
  rewrite (proj1 (fetch_failure_aborts (sampleEnv ["u"%string] (fun _ => None) serviceUp)
                    "u" (mkState 0 0 ∅ [] 0 1) eq_refl)).
  reflexivity.
Defined.

Lemma updateFeed_saved env sourceUrl st data st' :
  updateFeed env sourceUrl st = (Ret data, st') ->
  files st' = <[getSourceFilePath env sourceUrl := Document data]> (files st)
  /\ FeedData.sourceUrl data = sourceUrl.
Proof.
  rewrite updateFeed_run, load_update_state, updateFrom_cases.
  destruct (parseURL env sourceUrl) as [feed|]; [|discriminate]. cbv zeta.
  match goal with
  | |- context [summarizeLoop env ?n ?i [] ?s] =>
      pose proof (sameFiles_summarizeLoop env n i [] s) as Hloop;
      destruct (summarizeLoop env n i [] s) as [[xs|e] st1]
  end; unfold sameFiles in Hloop; simpl in Hloop; [|discriminate].
  destruct (writeFails env (getSourceFilePath env sourceUrl)); [discriminate|].
  intros H. injection H as <- <-.
  assert (Hfiles : files (setFile (getSourceFilePath env sourceUrl)
                            (Document
                               {| FeedData.sourceUrl := sourceUrl;
                                  FeedData.title := JS.orStr (RawFeed.title feed) EmptyString;
                                  FeedData.description :=
                                    JS.orStr (RawFeed.description feed) EmptyString;
                                  FeedData.link := JS.orStr (RawFeed.link feed) EmptyString;
                                  FeedData.items := xs;
                                  FeedData.lastUpdated := clock env (clockReads st1) |})
                            (countClockRead st1))
                   = <[getSourceFilePath env sourceUrl :=
                         Document
                           {| FeedData.sourceUrl := sourceUrl;
                              FeedData.title := JS.orStr (RawFeed.title feed) EmptyString;
                              FeedData.description :=
                                JS.orStr (RawFeed.description feed) EmptyString;
                              FeedData.link := JS.orStr (RawFeed.link feed) EmptyString;
                              FeedData.items := xs;
                              FeedData.lastUpdated := clock env (clockReads st1) |}]>
                      (files st)).
  { simpl. rewrite Hloop, enterUpdate_files. reflexivity. }
  split; [exact Hfiles|reflexivity].
Qed.

(** X11: a successful update writes exactly the snapshot it returns, to
    the file of the source and to no other file; the snapshot carries
    the address of the source, and loading the source afterwards yields
    that snapshot. *)
Theorem update_saves_what_it_returns env sourceUrl st data st' :
  updateFeed env sourceUrl st = (Ret data, st') ->
  files st' = <[getSourceFilePath env sourceUrl := Document data]> (files st)
  /\ FeedData.sourceUrl data = sourceUrl
  /\ loadFeedData env sourceUrl st' = (Ret (Some data), st').
Proof.
  intros H. destruct (updateFeed_saved _ _ _ _ _ H) as [Hfiles Hurl].
  split; [exact Hfiles|]. split; [exact Hurl|].
  rewrite loadFeedData_run, Hfiles, lookup_insert_eq. reflexivity.
Qed.

Lemma update_saves_what_it_returns_witness :
  files (updateFeed (oneEntryEnv "c") "u" (mkState 0 0 ∅ [] 0 1)).2
  = <["u"%string :=
        Document
          (FeedData.mk "u" "feed" EmptyString EmptyString
             [withSummary (serializeItem (rawEntry "a" "t" "c")) (Some "ok"%string)]
             2000)]> ∅.
Proof.
  apply (update_saves_what_it_returns (oneEntryEnv "c") "u" (mkState 0 0 ∅ [] 0 1)
           (FeedData.mk "u" "feed" EmptyString EmptyString
              [withSummary (serializeItem (rawEntry "a" "t" "c")) (Some "ok"%string)]
              2000)
           (updateFeed (oneEntryEnv "c") "u" (mkState 0 0 ∅ [] 0 1)).2).
  vm_compute. reflexivity.
Defined.

(** *** Entries the snapshot already knows *)

Lemma isNewItem_known oldItems newItems maxItems m :
  (exists o, In o oldItems /\ hasLink o = true /\ link o = link m) ->
  isNewItem (newItemsForSummary (mergeFeedItems oldItems newItems maxItems)) m = false.
Proof.
  intros Hknown. apply oldMap_keys in Hknown as [v Hv].
  destruct (merge_tracks oldItems newItems maxItems) as (_ & _ & Hc & _).
  unfold isNewItem. apply not_true_is_false. intros H.
  apply existsb_exists in H as (x & Hx & Heq). apply String.eqb_eq in Heq.
  destruct (Hc x Hx) as (_ & Hnone & _). rewrite Heq, Hv in Hnone. discriminate Hnone.
Qed.

(** X12: an entry whose link a previous entry carries is never
    summarised again: the loop of [updateFeed] passes it on as it is,
    sending no request and changing nothing, whatever its summary is,
    be it empty or the placeholder of a failed summary. *)
Theorem known_entry_untouched env oldItems newItems maxItems m st :
  (exists o, In o oldItems /\ hasLink o = true /\ link o = link m) ->
  summarizeItem env (newItemsForSummary (mergeFeedItems oldItems newItems maxItems)) m st
  = (Ret m, st).
Proof.
  intros Hknown. apply summarizeItem_skip. unfold needsSummary.
  rewrite (isNewItem_known _ _ _ _ Hknown). reflexivity.
Qed.

Lemma known_entry_untouched_witness :
  summarizeItem (oneEntryEnv "c")
    (newItemsForSummary
       (mergeFeedItems [entry "a" (Some SUMMARY_FAILED)] [entry "a" None; entry "b" None] 10))
    (entry "a" (Some SUMMARY_FAILED)) (mkState 0 0 ∅ [] 0 1)
  = (Ret (entry "a" (Some SUMMARY_FAILED)), mkState 0 0 ∅ [] 0 1).
Proof.
  apply (known_entry_untouched (oneEntryEnv "c") [entry "a" (Some SUMMARY_FAILED)]
           [entry "a" None; entry "b" None] 10 (entry "a" (Some SUMMARY_FAILED))
           (mkState 0 0 ∅ [] 0 1)).
  exists (entry "a" (Some SUMMARY_FAILED)).
  split; [left; reflexivity|split; reflexivity].
Defined.

Lemma summarizeLoop_all_skip env newItems : forall items st,
  (forall m, In m items -> needsSummary newItems m = false) ->
  summarizeLoop env newItems items [] st = (Ret items, st).
Proof.
  induction items as [|x l IH]; intros st Hall; [reflexivity|].
  rewrite summarizeLoop_cons, summarizeItem_skip by (apply Hall; left; reflexivity).
  rewrite IH by (intros m Hm; apply Hall; right; exact Hm). reflexivity.
Qed.

(** X13: when every fresh entry that has a link is already known to the
    snapshot of the source, the update sends no request to the service;
    and when the snapshot can be written it returns the merged entries
    unchanged. *)
Theorem known_feed_sends_nothing env sourceUrl st feed :
  parseURL env sourceUrl = Some feed ->
  (forall f, In f (map serializeItem (RawFeed.items feed)) -> hasLink f = true ->
     exists o, In o (previousItems env sourceUrl st) /\ hasLink o = true
               /\ link o = link f) ->
  apiCalls (updateFeed env sourceUrl st).2 = apiCalls st
  /\ (writeFails env (getSourceFilePath env sourceUrl) = false ->
      exists data st',
        updateFeed env sourceUrl st = (Ret data, st')
        /\ FeedData.items data =
           mergedItems
             (mergeFeedItems (previousItems env sourceUrl st)
                (map serializeItem (RawFeed.items feed))
                (Config.maxItemsPerFeed (config env)))).
Proof.
  intros Hfeed Hknown.
  rewrite updateFeed_cases, Hfeed. cbv zeta.
  rewrite summarizeLoop_all_skip.
  2:{ intros m Hm. unfold needsSummary.
      rewrite isNewItem_known; [reflexivity|].
      rewrite mergedItems_pick in Hm.
      apply in_map_iff in Hm as (f & <- & Hf).
      destruct (In_sliced_filter _ _ _ Hf) as [Hin Hl].
      rewrite (pick_link _ _ _ Hin). apply Hknown; assumption. }
  assert (Hcalls : apiCalls (enterUpdate env sourceUrl st) = apiCalls st).
  { unfold enterUpdate. destruct (_ >? _); reflexivity. }
  destruct (writeFails env (getSourceFilePath env sourceUrl)); simpl.
  - split; [exact Hcalls|discriminate].
  - split; [exact Hcalls|]. intros _. eexists _, _. split; reflexivity.
Qed.

Lemma known_feed_sends_nothing_witness :
  apiCalls
    (updateFeed (oneEntryEnv "c") "u"
       (mkState 0 0
          {[ "u"%string :=
               Document (FeedData.mk "u" "feed" EmptyString EmptyString
                           [entry "a" (Some SUMMARY_FAILED)] 0) ]} [] 7 1)).2
  = 7%nat.
Proof.
  apply (known_feed_sends_nothing (oneEntryEnv "c") "u"
           (mkState 0 0
              {[ "u"%string :=
                   Document (FeedData.mk "u" "feed" EmptyString EmptyString
                               [entry "a" (Some SUMMARY_FAILED)] 0) ]} [] 7 1)
           (sampleFeed [rawEntry "a" "t" "c"])).
  - reflexivity.
  - intros f [<-|[]] _. exists (entry "a" (Some SUMMARY_FAILED)).
    split; [left; reflexivity|split; reflexivity].
Defined.

(** *** Summaries of a snapshot *)

Lemma fold_addOld_value l : forall m k o,
  fold_left addOld l m !! k = Some o ->
  m !! k = Some o \/ (In o l /\ hasLink o = true /\ link o = k).
Proof.
  induction l as [|x l IH]; intros m k o H; simpl in H; [left; exact H|].
  destruct (IH _ _ _ H) as [Hm|(Ho & Hl & Hk)].
  - unfold addOld in Hm. destruct (hasLink x) eqn:Hx; [|left; exact Hm].
    destruct (decide (link x = k)) as [Heq|Hne].
    + subst k. rewrite lookup_insert_eq in Hm. injection Hm as <-.
      right. split; [left; reflexivity|]. split; [exact Hx|reflexivity].
    + rewrite lookup_insert_ne in Hm by exact Hne. left. exact Hm.
  - right. split; [right; exact Ho|]. split; assumption.
Qed.

Lemma oldMap_value oldItems k o :
  oldMap oldItems !! k = Some o ->
  In o oldItems /\ hasLink o = true /\ link o = k.
Proof.
  intros H. destruct (fold_addOld_value _ _ _ _ H) as [Hm|Ho]; [|exact Ho].
  rewrite lookup_empty in Hm. discriminate Hm.
Qed.

Lemma fold_or_truthy l : forall a,
  JS.truthy a = true -> fold_left JS.or l a = a.
Proof.
  induction l as [|x l IH]; intros a Ha; simpl; [reflexivity|].
  rewrite (or_truthy a x Ha). apply IH. exact Ha.
Qed.

(** A merged entry that does not count as new has the summary of the
    previous entry looked up for its link, when that one is not empty. *)
Lemma merged_known_summary oldItems newItems maxItems m :
  (forall o, In o oldItems -> hasLink o = true -> JS.truthy (summary o) = true) ->
  In m (mergedItems (mergeFeedItems oldItems newItems maxItems)) ->
  isNewItem (newItemsForSummary (mergeFeedItems oldItems newItems maxItems)) m = false ->
  JS.truthy (summary m) = true.
Proof.
  intros Hold Hm Hnew.
  rewrite (merged_summary_fold _ _ _ _ Hm).
  destruct (oldMap oldItems !! link m) as [o|] eqn:Ho.
  - destruct (oldMap_value _ _ _ Ho) as (Hin & Hl & _). simpl.
    rewrite fold_or_truthy; apply Hold; assumption.
  - exfalso. rewrite mergedItems_pick in Hm.
    apply in_map_iff in Hm as (f & Hpick & Hf).
    destruct (In_sliced_filter _ _ _ Hf) as [Hin Hl].
    assert (Hlink : link m = link f) by (rewrite <- Hpick; apply pick_link; exact Hin).
    assert (Htrue : isNewItem
                      (newItemsForSummary (mergeFeedItems oldItems newItems maxItems)) f
                    = true).
    { apply isNewItem_unknown; [exact Hin|exact Hl|].
      apply oldMap_None. rewrite <- Hlink. exact Ho. }
    unfold isNewItem in *. rewrite Hlink in Hnew. rewrite Hnew in Htrue.
    discriminate Htrue.
Qed.

Lemma summarizeItem_ret_shape env newItems item st p st' :
  summarizeItem env newItems item st = (Ret p, st') ->
  (needsSummary newItems item = true -> JS.truthy (summary p) = true)
  /\ (needsSummary newItems item = false -> p = item).
Proof.
  destruct (needsSummary newItems item) eqn:Hn.
  - intros H. split; [intros _|discriminate].
    destruct (Z.le_gt_cases (currentMinuteTokens st + estimatedTokens item) 900000)
      as [Hfit|Hover].
    + rewrite (summarizeItem_ok _ _ _ _ Hn Hfit) in H.
      destruct (retry _ RETRY_CONFIG st) as [[s|e] st1] eqn:Hrun.
      * injection H as <- _. simpl. apply truthyStr_true.
        unfold retry in Hrun. eapply attempts_nonempty. exact Hrun.
      * injection H as <- _. reflexivity.
    + rewrite summarizeItem_pause in H by (assumption || lia). discriminate H.
  - rewrite (summarizeItem_skip _ _ _ _ Hn). intros H. injection H as <- _.
    split; [discriminate|reflexivity].
Qed.

Lemma summarizeLoop_ret_shape env newItems : forall items st xs st',
  summarizeLoop env newItems items [] st = (Ret xs, st') ->
  Forall2
    (fun item p =>
       (needsSummary newItems item = true -> JS.truthy (summary p) = true)
       /\ (needsSummary newItems item = false -> p = item))
    items xs.
Proof.
  induction items as [|x l IH]; intros st xs st' H.
  - injection H as <- _. constructor.
  - rewrite summarizeLoop_cons in H.
    destruct (summarizeItem env newItems x st) as [[p|e] st1] eqn:Hx; [|discriminate H].
    destruct (summarizeLoop env newItems l [] st1) as [[ys|e] st2] eqn:Hl;
      [|discriminate H].
    injection H as <- _. constructor.
    + eapply summarizeItem_ret_shape. exact Hx.
    + eapply IH. exact Hl.
Qed.

(** X14: snapshots keep their summaries complete: when every previous
    entry with a link has a non-empty summary (as when there is no
    previous snapshot), every entry of the snapshot a successful update
    returns has a non-empty summary, generated, kept, or the
    placeholder. *)
Theorem snapshot_summaries_nonempty env sourceUrl st data st' :
  updateFeed env sourceUrl st = (Ret data, st') ->
  (forall o, In o (previousItems env sourceUrl st) -> hasLink o = true ->
             JS.truthy (summary o) = true) ->
  Forall (fun x => JS.truthy (summary x) = true) (FeedData.items data).
Proof.
  rewrite updateFeed_cases. cbv zeta.
  destruct (parseURL env sourceUrl) as [feed|]; [|discriminate].
  set (merged := mergeFeedItems _ _ _).
  destruct (summarizeLoop env _ _ [] _) as [[xs|e] st1] eqn:Hloop; [|discriminate].
  destruct (writeFails env (getSourceFilePath env sourceUrl)); [discriminate|].
  intros H Hold. injection H as <- _. simpl.
  pose proof (summarizeLoop_ret_shape _ _ _ _ _ _ Hloop) as Hshape.
  assert (Hmerged : forall m, In m (mergedItems merged) ->
            needsSummary (newItemsForSummary merged) m = false ->
            JS.truthy (summary m) = true).
  { intros m Hm Hn. unfold needsSummary in Hn.
    apply andb_false_iff in Hn as [Hn|Hn].
    - subst merged. eapply merged_known_summary; eassumption.
    - apply negb_false_iff in Hn. exact Hn. }
  clear Hloop. revert Hmerged. induction Hshape as [|m p l ps [Hyes Hno] _ IH];
    intros Hmerged; constructor.
  - destruct (needsSummary (newItemsForSummary merged) m) eqn:Hn.
    + apply Hyes. reflexivity.
    + rewrite (Hno eq_refl). apply Hmerged; [left; reflexivity|exact Hn].
  - apply IH. intros m' Hm'. apply Hmerged. right. exact Hm'.
Qed.

Lemma snapshot_summaries_nonempty_witness :
  Forall (fun x => JS.truthy (summary x) = true)
    [withSummary (serializeItem (rawEntry "a" "t" "c")) (Some "ok"%string)].
Proof.
  apply (snapshot_summaries_nonempty (oneEntryEnv "c") "u" (mkState 0 0 ∅ [] 0 1)
           (FeedData.mk "u" "feed" EmptyString EmptyString
              [withSummary (serializeItem (rawEntry "a" "t" "c")) (Some "ok"%string)]
              2000)
           (updateFeed (oneEntryEnv "c") "u" (mkState 0 0 ∅ [] 0 1)).2).
  - vm_compute. reflexivity.
  - intros o Ho. vm_compute in Ho. destruct Ho.
Defined.

(** *** The token count *)

Lemma keepsTokens_refl st : keepsTokensInBounds st st.
Proof. intros H. exact H. Qed.

Lemma keepsTokens_trans a b c :
  keepsTokensInBounds a b -> keepsTokensInBounds b c -> keepsTokensInBounds a c.
Proof. unfold keepsTokensInBounds. auto. Qed.

Lemma keepsTokens_summarizeItem env newItems item :
  respects keepsTokensInBounds (summarizeItem env newItems item).
Proof.
  intros st [Hlo Hhi]. unfold tokensInBounds.
  destruct (needsSummary newItems item) eqn:Hn.
  - destruct (Z.le_gt_cases (currentMinuteTokens st + estimatedTokens item) 900000)
      as [Hfit|Hover].
    + rewrite (summarizeItem_ok _ _ _ _ Hn Hfit).
      pose proof (retry_tokens env (title item) (content item) st) as Htok.
      pose proof (estimatedTokens_nonneg item) as Hpos.
      destruct (retry _ RETRY_CONFIG st) as [[s|e] st1]; simpl in *; lia.
    + rewrite summarizeItem_pause by (assumption || lia). simpl. lia.
  - rewrite (summarizeItem_skip _ _ _ _ Hn). simpl. lia.
Qed.

Lemma keepsTokens_updateFeed env sourceUrl :
  respects keepsTokensInBounds (updateFeed env sourceUrl).
Proof.
  intros st Hst. rewrite updateFeed_cases. cbv zeta.
  assert (H0 : tokensInBounds (enterUpdate env sourceUrl st)).
  { unfold tokensInBounds in *.
    destruct (enterUpdate_tokens env sourceUrl st) as [-> | ->]; lia. }
  destruct (parseURL env sourceUrl) as [feed|]; [|exact H0].
  match goal with
  | |- context [summarizeLoop env ?n ?i [] ?s] =>
      pose proof (respects_summarizeLoop _ keepsTokens_refl keepsTokens_trans env n
                    (keepsTokens_summarizeItem env n) i [] s H0) as Hloop;
      destruct (summarizeLoop env n i [] s) as [[xs|e] st1]
  end; simpl in Hloop; [|exact Hloop].
  destruct (writeFails env (getSourceFilePath env sourceUrl)); exact Hloop.
Qed.

Lemma keepsTokens_forSources env : forall sources results,
  respects keepsTokensInBounds (forSources env sources results).
Proof.
  induction sources as [|s l IH]; intros results st Hst; [exact Hst|].
  rewrite forSources_cons. apply IH.
  pose proof (keepsTokens_updateFeed env (Source.url s) st Hst) as H.
  unfold afterSource. destruct (isRet _); exact H.
Qed.

(** X15: the token count stays within its bounds throughout a run: from
    a state in which it lies between 0 and 900000, [main] ends, however
    the sources fare, in a state in which it still does. *)
Theorem tokens_stay_in_bounds env st :
  0 <= currentMinuteTokens st <= 900000 ->
  0 <= currentMinuteTokens (main env st).2 <= 900000.
Proof.
  intros Hst. unfold main, catch, bind, updateAllFeeds.
  destruct (Config.sources (config env)) as [sources|]; [|exact Hst].
  pose proof (keepsTokens_forSources env sources ∅ st Hst) as H.
  destruct (forSources env sources ∅ st) as [[r|e] st']; exact H.
Qed.

Lemma tokens_stay_in_bounds_witness :
  0 <= currentMinuteTokens (main threeSources (initialState threeSources ∅)).2 <= 900000.
Proof.
  apply (tokens_stay_in_bounds threeSources (initialState threeSources ∅)).
  simpl. lia.
Defined.

(** *** The number of requests *)

Local Open Scope nat_scope.

Lemma calls_summarizeItem env newItems item st :
  atMostCalls 4 st (summarizeItem env newItems item st).2.
Proof.
  unfold atMostCalls. destruct (needsSummary newItems item) eqn:Hn.
  - destruct (Z.le_gt_cases (currentMinuteTokens st + estimatedTokens item) 900000)
      as [Hfit|Hover].
    + rewrite (summarizeItem_ok _ _ _ _ Hn Hfit).
      pose proof (attempts_calls env (title item) (content item) (retries RETRY_CONFIG) 1 st)
        as Hcalls.
      cbv zeta in Hcalls. fold (retry (fun _ => generateSummaryWithLimit env (title item)
                                                  (content item)) RETRY_CONFIG) in Hcalls.
      destruct (retry _ RETRY_CONFIG st) as [[s|e] st1]; simpl in *; lia.
    + rewrite summarizeItem_pause by (assumption || lia). simpl. lia.
  - rewrite (summarizeItem_skip _ _ _ _ Hn). simpl. lia.
Qed.

Lemma calls_summarizeLoop env newItems : forall items acc st,
  atMostCalls (4 * length items) st (summarizeLoop env newItems items acc st).2.
Proof.
  unfold atMostCalls. induction items as [|x l IH]; intros acc st; simpl; [lia|].
  unfold bind. pose proof (calls_summarizeItem env newItems x st) as Hx.
  unfold atMostCalls in Hx.
  destruct (summarizeItem env newItems x st) as [[p|e] st1]; simpl in *; [|lia].
  specialize (IH (acc ++ [p]) st1). lia.
Qed.

Lemma merged_at_most oldItems newItems maxItems :
  (0 <= maxItems)%Z ->
  length (mergedItems (mergeFeedItems oldItems newItems maxItems)) <= Z.to_nat maxItems.
Proof.
  intros Hmax. rewrite mergedItems_pick, length_map.
  pose proof (slice0_length maxItems (List.filter hasLink newItems) Hmax). lia.
Qed.

Lemma calls_updateFeed env sourceUrl st :
  (0 <= Config.maxItemsPerFeed (config env))%Z ->
  atMostCalls (4 * Z.to_nat (Config.maxItemsPerFeed (config env))) st
    (updateFeed env sourceUrl st).2.
Proof.
  intros Hmax. rewrite updateFeed_cases. cbv zeta. unfold atMostCalls.
  assert (H0 : apiCalls (enterUpdate env sourceUrl st) = apiCalls st).
  { unfold enterUpdate. destruct (_ >? _)%Z; reflexivity. }
  destruct (parseURL env sourceUrl) as [feed|]; [|simpl; lia].
  match goal with
  | |- context [summarizeLoop env ?n (mergedItems (mergeFeedItems ?o ?f ?k)) [] ?s] =>
      pose proof (calls_summarizeLoop env n (mergedItems (mergeFeedItems o f k)) [] s)
        as Hloop;
      pose proof (merged_at_most o f k Hmax) as Hlen;
      destruct (summarizeLoop env n (mergedItems (mergeFeedItems o f k)) [] s)
        as [[xs|e] st1]
  end; unfold atMostCalls in Hloop; simpl in Hloop.
  - destruct (writeFails env (getSourceFilePath env sourceUrl)); simpl; lia.
  - simpl. lia.
Qed.

Lemma calls_forSources env : forall sources results st,
  (0 <= Config.maxItemsPerFeed (config env))%Z ->
  atMostCalls (length sources * (4 * Z.to_nat (Config.maxItemsPerFeed (config env)))) st
    (forSources env sources results st).2.
Proof.
  unfold atMostCalls. induction sources as [|s l IH]; intros results st Hmax; [simpl; lia|].
  rewrite forSources_cons.
  pose proof (calls_updateFeed env (Source.url s) st Hmax) as Hs. unfold atMostCalls in Hs.
  match goal with
  | |- context [forSources env l ?r ?s1] => specialize (IH r s1 Hmax)
  end.
  assert (Hafter : apiCalls (afterSource (Source.url s) (updateFeed env (Source.url s) st).1
                               (updateFeed env (Source.url s) st).2)
                   = apiCalls (updateFeed env (Source.url s) st).2).
  { unfold afterSource. destruct (isRet _); reflexivity. }
  rewrite Hafter in IH. simpl. lia.
Qed.

(** X16: for a count [maxItemsPerFeed], the update of a source sends at
    most [4 * maxItemsPerFeed] requests to the service, whatever its
    outcome, and a run over [n] sources at most [n * 4 * maxItemsPerFeed]. *)
Theorem requests_bounded env st :
  (0 <= Config.maxItemsPerFeed (config env))%Z ->
  (forall sourceUrl,
     callsOf (updateFeed env sourceUrl) st
     <= 4 * Z.to_nat (Config.maxItemsPerFeed (config env)))
  /\ forall sources, Config.sources (config env) = Some sources ->
       callsOf (main env) st
       <= length sources * (4 * Z.to_nat (Config.maxItemsPerFeed (config env))).
Proof.
  intros Hmax. split.
  - intros sourceUrl. pose proof (calls_updateFeed env sourceUrl st Hmax) as H.
    unfold atMostCalls, callsOf in *. lia.
  - intros sources Hsources. unfold callsOf, main, catch, bind, updateAllFeeds.
    rewrite Hsources.
    pose proof (calls_forSources env sources ∅ st Hmax) as H. unfold atMostCalls in H.
    destruct (forSources env sources ∅ st) as [[r|e] st']; simpl in *; lia.
Qed.

Lemma requests_bounded_witness :
  callsOf (main threeSources) (initialState threeSources ∅) <= 3 * (4 * 10).
Proof.
  apply (proj2 (requests_bounded threeSources (initialState threeSources ∅)
                  ltac:(simpl; lia))
           (map (Source.mk "source") ["a"; "b"; "c"]%string)).
  reflexivity.
Defined.

End UpdateExtra.

(** ** A snapshot that cannot be loaded: the update *)

Module SnapshotProps.
Import Merge MergeInv JSFacts MergeFacts MergeProps RetryProps LoopProps UpdateProps
  LoadProps MergeExtra UpdateExtra.

(** *** Code that does not touch the data directory *)















(** *** Entries merged with no previous ones *)






End SnapshotProps.

(** ** The name of the file of a source *)

Module FileNameProps.
Import FileName.

Lemma list_ind3 {A} (P : list A -> Prop) :
  P [] -> (forall a, P [a]) -> (forall a b, P [a; b]) ->
  (forall a b c l, P l -> P (a :: b :: c :: l)) ->
  forall l, P l.
Proof.
  intros H0 H1 H2 H3 l.
  assert (H : P l /\ (forall a, P (a :: l)) /\ (forall a b, P (a :: b :: l))).
  { induction l as [|c l (IH0 & IH1 & IH2)].
    - split; [exact H0|]. split; [exact H1|exact H2].
    - split; [apply IH1|]. split; [intros a; apply IH2|].
      intros a b. apply H3, IH0. }
  apply H.
Qed.

Lemma length_to_list s : length (String.list_ascii_of_string s) = String.length s.
Proof. induction s as [|c s IH]; simpl; [reflexivity|]. rewrite IH. reflexivity. Qed.

Lemma length_of_list l : String.length (String.string_of_list_ascii l) = length l.
Proof. induction l as [|c l IH]; simpl; [reflexivity|]. rewrite IH. reflexivity. Qed.

Lemma to_list_app s t :
  String.list_ascii_of_string (s ++ t)
  = String.list_ascii_of_string s ++ String.list_ascii_of_string t.
Proof. induction s as [|c s IH]; simpl; [reflexivity|]. rewrite IH. reflexivity. Qed.

Lemma byte_range c : 0 <= byte c < 256.
Proof.
  unfold byte. pose proof (N_ascii_bounded c) as H. lia.
Qed.

Lemma byte_inj a b : byte a = byte b -> a = b.
Proof.
  unfold byte. intros H. apply N2Z.inj in H.
  rewrite <- (ascii_N_embedding a), <- (ascii_N_embedding b), H. reflexivity.
Qed.

(** *** The table of digits *)

Lemma get_out_of_range s : forall n,
  (String.length s <= n)%nat -> String.get n s = None.
Proof.
  induction s as [|c s IH]; intros n Hn; [destruct n; reflexivity|].
  destruct n as [|n]; simpl in *; [lia|]. apply IH. lia.
Qed.

Lemma table_word_chars :
  forallb (fun n => isWordChar (sanitize (digitAt n))) (seq 0 64) = true.
Proof. vm_compute. reflexivity. Qed.

Lemma table_distinct :
  forallb
    (fun n =>
       forallb
         (fun m => implb (Ascii.eqb (sanitize (digitAt n)) (sanitize (digitAt m)))
                     (Nat.eqb n m))
         (seq 0 64))
    (seq 0 62) = true.
Proof. vm_compute. reflexivity. Qed.

Lemma table_no_underscore :
  forallb (fun n => negb (Ascii.eqb (sanitize (digitAt n)) "_")) (seq 0 62) = true.
Proof. vm_compute. reflexivity. Qed.

Lemma digit_word_char i : isWordChar (sanitize (digit i)) = true.
Proof.
  unfold digit. destruct (Nat.lt_ge_cases (Z.to_nat i) 64) as [Hlt|Hge].
  - apply (proj1 (forallb_forall _ _) table_word_chars). apply in_seq. lia.
  - unfold digitAt. rewrite get_out_of_range by exact Hge. reflexivity.
Qed.

Lemma digit_inj i j :
  0 <= i < 62 -> 0 <= j < 64 ->
  sanitize (digit i) = sanitize (digit j) -> i = j.
Proof.
  intros Hi Hj H. unfold digit in H.
  pose proof (proj1 (forallb_forall _ _) table_distinct (Z.to_nat i)) as Hrow.
  rewrite in_seq in Hrow. specialize (Hrow ltac:(lia)).
  pose proof (proj1 (forallb_forall _ _) Hrow (Z.to_nat j)) as Hcell.
  rewrite in_seq in Hcell. specialize (Hcell ltac:(lia)).
  rewrite H, Ascii.eqb_refl in Hcell. simpl in Hcell.
  apply Nat.eqb_eq in Hcell. lia.
Qed.

Lemma digit_no_underscore i :
  0 <= i < 62 -> sanitize (digit i) <> "_"%char.
Proof.
  intros Hi H. unfold digit in H.
  pose proof (proj1 (forallb_forall _ _) table_no_underscore (Z.to_nat i)) as Hrow.
  rewrite in_seq in Hrow. specialize (Hrow ltac:(lia)).
  rewrite H in Hrow. discriminate Hrow.
Qed.

(** *** Alphabet and length *)

Lemma encode_word_chars : forall l c,
  In c (map sanitize (encode l)) -> isWordChar c = true.
Proof.
  induction l as [| | |a b c0 l IH] using list_ind3; intros c Hc; simpl in Hc.
  - destruct Hc.
  - destruct Hc as [<-|[<-|[<-|[<-|[]]]]];
      first [apply digit_word_char|reflexivity].
  - destruct Hc as [<-|[<-|[<-|[<-|[]]]]];
      first [apply digit_word_char|reflexivity].
  - destruct Hc as [<-|[<-|[<-|[<-|Hc]]]]; try apply digit_word_char.
    apply IH. exact Hc.
Qed.

Lemma encode_length : forall l,
  Z.of_nat (length (encode l)) = 4 * ((Z.of_nat (length l) + 2) / 3).
Proof.
  induction l as [| | |a b c0 l IH] using list_ind3; try reflexivity.
  cbn [encode length]. rewrite !Nat2Z.inj_succ, IH.
  Z.div_mod_to_equations. lia.
Qed.

(** X17: the name of the file of a source consists of letters, digits
    and underscores, followed by [.json], whatever the address of the
    source contains; before [.json] it has four characters for every
    three bytes of the address, rounded up. *)
Theorem file_name_shape sourceUrl :
  (forall c, occurs c (sourceFileName sourceUrl) ->
             isWordChar c = true \/ c = "."%char)
  /\ Z.of_nat (String.length (sourceFileName sourceUrl))
     = 4 * ((Z.of_nat (String.length sourceUrl) + 2) / 3) + 5.
Proof.
  unfold sourceFileName, sourceHash, occurs. split.
  - intros c. rewrite to_list_app, String.list_ascii_of_string_of_list_ascii.
    intros Hc. apply in_app_or in Hc as [Hc|Hc].
    + left. eapply encode_word_chars. exact Hc.
    + simpl in Hc. destruct Hc as [<-|[<-|[<-|[<-|[<-|[]]]]]];
        first [right; reflexivity|left; reflexivity].
  - rewrite <- length_to_list, to_list_app, length_app,
      String.list_ascii_of_string_of_list_ascii, length_map, Nat2Z.inj_add,
      encode_length, length_to_list.
    reflexivity.
Qed.

Lemma file_name_shape_witness :
  isWordChar "_" = true \/ "_"%char = "."%char.
Proof.
  apply (proj1 (file_name_shape "ab") "_"%char).
  unfold occurs. vm_compute. auto 10.
Defined.

(** *** Addresses that share a file *)

Lemma encode_question : forall l,
  Z.of_nat (length l) mod 3 = 2 ->
  map sanitize (encode (l ++ ["?"%char])) = map sanitize (encode l).
Proof.
  induction l as [| | |a b c0 l IH] using list_ind3; intros Hlen.
  - discriminate Hlen.
  - discriminate Hlen.
  - cbn [app encode map]. change (byte "?") with 63.
    change (63 / 64) with 0. change (63 mod 64) with 63.
    rewrite Z.add_0_r. reflexivity.
  - cbn [app encode map]. rewrite IH; [reflexivity|].
    cbn [length] in Hlen. rewrite !Nat2Z.inj_succ in Hlen.
    revert Hlen. Z.div_mod_to_equations. lia.
Qed.

(** X18: the names of the files are not one per address: an address
    whose number of bytes leaves the remainder 2 when divided by 3, and
    the same address followed by a question mark, are given the same
    file. *)
Theorem file_name_collision sourceUrl :
  Z.of_nat (String.length sourceUrl) mod 3 = 2 ->
  sourceFileName (sourceUrl ++ "?") = sourceFileName sourceUrl
  /\ (sourceUrl ++ "?")%string <> sourceUrl.
Proof.
  intros Hlen. split.
  - unfold sourceFileName, sourceHash. rewrite to_list_app.
    change (String.list_ascii_of_string "?") with ["?"%char].
    rewrite encode_question by (rewrite length_to_list; exact Hlen). reflexivity.
  - intros H. apply (f_equal String.length) in H.
    rewrite <- !length_to_list, to_list_app, length_app in H. simpl in H. lia.
Qed.

Lemma file_name_collision_witness :
  sourceFileName "https://a.com/rss?" = sourceFileName "https://a.com/rss"
  /\ "https://a.com/rss?"%string <> "https://a.com/rss"%string.
Proof.
  apply (file_name_collision "https://a.com/rss"). reflexivity.
Defined.

(** *** Addresses that do not share a file *)

Lemma encode_empty l : map sanitize (encode l) = [] -> l = [].
Proof. destruct l as [|a [|b [|c r]]]; simpl; [reflexivity|discriminate..]. Qed.

Lemma padding_not_digit i :
  0 <= i < 62 -> sanitize padding = sanitize (digit i) -> False.
Proof. intros Hi H. apply (digit_no_underscore i Hi). rewrite <- H. reflexivity. Qed.

Ltac index_eq H :=
  apply digit_inj in H; [|Z.div_mod_to_equations; lia|Z.div_mod_to_equations; lia].

Lemma group_of_one a a' :
  plainChar a -> plainChar a' ->
  sanitize (digit (byte a / 4)) = sanitize (digit (byte a' / 4)) ->
  sanitize (digit (byte a mod 4 * 16)) = sanitize (digit (byte a' mod 4 * 16)) ->
  a = a'.
Proof.
  intros (Ha & _) (Ha' & _) H1 H2. index_eq H1. index_eq H2.
  apply byte_inj. revert H1 H2. Z.div_mod_to_equations. lia.
Qed.

Lemma group_of_two a b a' b' :
  plainChar a -> plainChar b -> plainChar a' -> plainChar b' ->
  sanitize (digit (byte a / 4)) = sanitize (digit (byte a' / 4)) ->
  sanitize (digit (byte a mod 4 * 16 + byte b / 16))
  = sanitize (digit (byte a' mod 4 * 16 + byte b' / 16)) ->
  sanitize (digit (byte b mod 16 * 4)) = sanitize (digit (byte b' mod 16 * 4)) ->
  a = a' /\ b = b'.
Proof.
  intros (Ha & _) (Hb & _) (Ha' & _) (Hb' & _) H1 H2 H3.
  index_eq H1. index_eq H2. index_eq H3.
  split; apply byte_inj; revert H1 H2 H3; Z.div_mod_to_equations; lia.
Qed.

Lemma group_of_three a b c a' b' c' :
  plainChar a -> plainChar b -> plainChar c ->
  plainChar a' -> plainChar b' -> plainChar c' ->
  sanitize (digit (byte a / 4)) = sanitize (digit (byte a' / 4)) ->
  sanitize (digit (byte a mod 4 * 16 + byte b / 16))
  = sanitize (digit (byte a' mod 4 * 16 + byte b' / 16)) ->
  sanitize (digit (byte b mod 16 * 4 + byte c / 64))
  = sanitize (digit (byte b' mod 16 * 4 + byte c' / 64)) ->
  sanitize (digit (byte c mod 64)) = sanitize (digit (byte c' mod 64)) ->
  a = a' /\ b = b' /\ c = c'.
Proof.
  intros (Ha & _) (Hb & _) (Hc & Hc1 & Hc2) (Ha' & _) (Hb' & _) (Hc' & Hc1' & Hc2')
    H1 H2 H3 H4.
  index_eq H1. index_eq H2. index_eq H3.
  assert (H4' : byte c mod 64 = byte c' mod 64
                \/ (62 <= byte c mod 64 /\ 62 <= byte c' mod 64)).
  { destruct (Z.lt_ge_cases (byte c mod 64) 62) as [Hlt|Hge].
    - left. index_eq H4. exact H4.
    - destruct (Z.lt_ge_cases (byte c' mod 64) 62) as [Hlt'|Hge'].
      + symmetry in H4. index_eq H4. left. symmetry. exact H4.
      + right. split; assumption. }
  repeat split; apply byte_inj; revert H1 H2 H3 H4'; Z.div_mod_to_equations; lia.
Qed.

Lemma group_of_two_three a b a' b' c' :
  plainChar a -> plainChar b -> plainChar a' -> plainChar b' -> plainChar c' ->
  sanitize (digit (byte a / 4)) = sanitize (digit (byte a' / 4)) ->
  sanitize (digit (byte a mod 4 * 16 + byte b / 16))
  = sanitize (digit (byte a' mod 4 * 16 + byte b' / 16)) ->
  sanitize (digit (byte b mod 16 * 4))
  = sanitize (digit (byte b' mod 16 * 4 + byte c' / 64)) ->
  sanitize padding = sanitize (digit (byte c' mod 64)) ->
  a = a' /\ b = b' /\ c' = "?"%char.
Proof.
  intros (Ha & _) (Hb & _) (Ha' & _) (Hb' & _) (Hc' & Hc1' & Hc2') H1 H2 H3 H4.
  index_eq H1. index_eq H2. index_eq H3.
  assert (H4' : 62 <= byte c' mod 64).
  { destruct (Z.lt_ge_cases (byte c' mod 64) 62) as [Hlt|Hge]; [|assumption].
    exfalso. eapply (padding_not_digit (byte c' mod 64)); [|exact H4].
    Z.div_mod_to_equations. lia. }
  assert (Hq : byte c' = byte "?").
  { change (byte "?") with 63. revert H3 H4'. Z.div_mod_to_equations. lia. }
  repeat split; [apply byte_inj|apply byte_inj|apply byte_inj; exact Hq];
    revert H1 H2 H3 H4'; Z.div_mod_to_equations; lia.
Qed.

Lemma encode_injective : forall l1 l2,
  Forall plainChar l1 -> Forall plainChar l2 ->
  map sanitize (encode l1) = map sanitize (encode l2) ->
  l1 = l2 \/ l1 = l2 ++ ["?"%char] \/ l2 = l1 ++ ["?"%char].
Proof.
  induction l1 as [| a | a b | a b c l1 IH] using list_ind3;
    intros l2 Hp1 Hp2 H.
  - left. symmetry. apply encode_empty. symmetry. exact H.
  - destruct l2 as [|a' [|b' [|c' r2]]]; cbn [encode map] in H.
    + discriminate H.
    + injection H as H1 H2. inversion Hp1; inversion Hp2; subst.
      left. f_equal. eapply group_of_one; eassumption.
    + injection H as _ _ H3. exfalso.
      inversion Hp2 as [|? ? _ Hp2']; inversion Hp2' as [|? ? [Hb' _] _]; subst.
      eapply (padding_not_digit (byte b' mod 16 * 4)); [|exact H3].
      Z.div_mod_to_equations. lia.
    + injection H as _ _ H3 _. exfalso.
      inversion Hp2 as [|? ? _ Hp2']; inversion Hp2' as [|? ? [Hb' _] Hp2''];
        inversion Hp2'' as [|? ? [Hc' _] _]; subst.
      eapply (padding_not_digit (byte b' mod 16 * 4 + byte c' / 64)); [|exact H3].
      Z.div_mod_to_equations. lia.
  - destruct l2 as [|a' [|b' [|c' r2]]]; cbn [encode map] in H.
    + discriminate H.
    + injection H as _ _ H3. exfalso.
      inversion Hp1 as [|? ? _ Hp1']; inversion Hp1' as [|? ? [Hb _] _]; subst.
      eapply (padding_not_digit (byte b mod 16 * 4)); [|symmetry; exact H3].
      Z.div_mod_to_equations. lia.
    + injection H as H1 H2 H3.
      inversion Hp1 as [|? ? ? Hp1']; inversion Hp1'; subst.
      inversion Hp2 as [|? ? ? Hp2']; inversion Hp2'; subst.
      left. destruct (group_of_two a b a' b') as [E1 E2]; auto.
      subst. reflexivity.
    + injection H as H1 H2 H3 H4 H5.
      symmetry in H5. apply encode_empty in H5. subst r2.
      inversion Hp1 as [|? ? ? Hp1']; inversion Hp1'; subst.
      inversion Hp2 as [|? ? ? Hp2']; inversion Hp2' as [|? ? ? Hp2''];
        inversion Hp2''; subst.
      right. right.
      destruct (group_of_two_three a b a' b' c') as (E1 & E2 & E3); auto.
      subst. reflexivity.
  - destruct l2 as [|a' [|b' [|c' r2]]]; cbn [encode map] in H.
    + discriminate H.
    + injection H as _ _ H3 _. exfalso.
      inversion Hp1 as [|? ? _ Hp1']; inversion Hp1' as [|? ? [Hb _] Hp1''];
        inversion Hp1'' as [|? ? [Hc _] _]; subst.
      eapply (padding_not_digit (byte b mod 16 * 4 + byte c / 64));
        [|symmetry; exact H3].
      Z.div_mod_to_equations. lia.
    + injection H as H1 H2 H3 H4 H5.
      apply encode_empty in H5. subst l1.
      inversion Hp1 as [|? ? ? Hp1']; inversion Hp1' as [|? ? ? Hp1''];
        inversion Hp1''; subst.
      inversion Hp2 as [|? ? ? Hp2']; inversion Hp2'; subst.
      right. left. symmetry in H1, H2, H3, H4.
      destruct (group_of_two_three a' b' a b c) as (E1 & E2 & E3); auto.
      subst. reflexivity.
    + injection H as H1 H2 H3 H4 H5.
      inversion Hp1 as [|? ? ? Hp1']; inversion Hp1' as [|? ? ? Hp1''];
        inversion Hp1''; subst.
      inversion Hp2 as [|? ? ? Hp2']; inversion Hp2' as [|? ? ? Hp2''];
        inversion Hp2''; subst.
      destruct (group_of_three a b c a' b' c') as (E1 & E2 & E3); auto.
      subst. destruct (IH r2) as [E|[E|E]]; auto; subst; auto.
Qed.

Lemma to_list_inj u v :
  String.list_ascii_of_string u = String.list_ascii_of_string v -> u = v.
Proof.
  intros H. rewrite <- (String.string_of_list_ascii_of_string u),
    <- (String.string_of_list_ascii_of_string v), H. reflexivity.
Qed.

(** X19: these are the only addresses that share a file, among the
    addresses made of ASCII characters other than [>] and DEL: two such
    addresses with the same file name are equal, or one is the other
    followed by a question mark. *)
Theorem file_names_differ u v :
  Forall plainChar (String.list_ascii_of_string u) ->
  Forall plainChar (String.list_ascii_of_string v) ->
  sourceFileName u = sourceFileName v ->
  u = v \/ u = (v ++ "?")%string \/ v = (u ++ "?")%string.
Proof.
  intros Hu Hv H. unfold sourceFileName, sourceHash in H.
  apply (f_equal String.list_ascii_of_string) in H.
  rewrite !to_list_app, !String.list_ascii_of_string_of_list_ascii in H.
  apply app_inv_tail in H.
  destruct (encode_injective _ _ Hu Hv H) as [E|[E|E]].
  - left. apply to_list_inj. exact E.
  - right. left. apply to_list_inj. rewrite to_list_app. exact E.
  - right. right. apply to_list_inj. rewrite to_list_app. exact E.
Qed.

Lemma file_names_differ_witness :
  "ab?"%string = "ab"%string \/ "ab?"%string = ("ab" ++ "?")%string
  \/ "ab"%string = ("ab?" ++ "?")%string.
Proof.
  apply (file_names_differ "ab?" "ab").
  - repeat (apply List.Forall_cons; [unfold plainChar, byte; simpl; lia|]).
    apply List.Forall_nil.
  - repeat (apply List.Forall_cons; [unfold plainChar, byte; simpl; lia|]).
    apply List.Forall_nil.
  - vm_compute. reflexivity.
Defined.

End FileNameProps.

(** ** The content sent to the service *)

Module CleanProps.
Import Clean FileNameProps.

(** *** Cutting *)

Lemma substring_length : forall n s,
  (String.length (String.substring 0 n s) <= n)%nat.
Proof.
  induction n as [|n IH]; intros s; destruct s as [|c s]; simpl; try lia.
  specialize (IH s). lia.
Qed.

Lemma substring_all : forall n s,
  (String.length s <= n)%nat -> String.substring 0 n s = s.
Proof.
  induction n as [|n IH]; intros s Hs; destruct s as [|c s]; simpl in *;
    try reflexivity; try lia.
  rewrite IH by lia. reflexivity.
Qed.

Lemma substring_occurs : forall n s c,
  occurs c (String.substring 0 n s) -> occurs c s.
Proof.
  unfold occurs. induction n as [|n IH]; intros s c; destruct s as [|d s]; simpl;
    try tauto.
  intros [H|H]; [left; exact H|right; apply IH; exact H].
Qed.

Lemma substring_noDoubleSpace : forall n s,
  noDoubleSpace s -> noDoubleSpace (String.substring 0 n s).
Proof.
  induction n as [|n IH]; intros s Hs; destruct s as [|c s]; simpl; try exact I.
  specialize (IH s). destruct s as [|d s]; [destruct n; exact I|].
  destruct Hs as [Hcd Hs]. specialize (IH Hs).
  destruct n as [|n]; [exact I|]. simpl in *. split; [exact Hcd|exact IH].
Qed.

(** *** Tags *)

Lemma stripFrom_no_open : forall s inTag, ~ occurs "<" (stripFrom inTag s).
Proof.
  unfold occurs. induction s as [|c s IH]; intros inTag; simpl; [tauto|].
  destruct inTag.
  - destruct (Ascii.eqb c ">"); apply IH.
  - destruct (Ascii.eqb_spec c "<") as [Heq|Hne]; [apply IH|].
    simpl. intros [H|H]; [congruence|exact (IH false H)].
Qed.

Lemma stripTags_clean : forall s, ~ occurs "<" s -> stripTags s = s.
Proof.
  unfold occurs, stripTags. induction s as [|c s IH]; intros Hs; simpl; [reflexivity|].
  destruct (Ascii.eqb_spec c "<") as [Heq|Hne].
  - exfalso. apply Hs. left. exact Heq.
  - rewrite IH; [reflexivity|]. intros H. apply Hs. right. exact H.
Qed.

(** *** White space *)

Lemma collapseFrom_occurs : forall s run c,
  occurs c (collapseFrom run s) ->
  c = " "%char \/ occurs c s \/ run = One c.
Proof.
  unfold occurs. induction s as [|d s IH]; intros run c; simpl.
  - destruct run; simpl; try tauto. intros [->|[]]. right. right. reflexivity.
  - destruct (isSpace d).
    + destruct run; simpl.
      * intros H. destruct (IH _ _ H) as [H1|[H1|H1]]; [tauto|tauto|].
        injection H1 as ->. tauto.
      * intros [H|H]; [left; symmetry; exact H|].
        destruct (IH _ _ H) as [H1|[H1|H1]]; [tauto|tauto|discriminate H1].
      * intros H. destruct (IH _ _ H) as [H1|[H1|H1]]; [tauto|tauto|discriminate H1].
    + destruct run; simpl.
      * intros [H|H]; [tauto|].
        destruct (IH _ _ H) as [H1|[H1|H1]]; [tauto|tauto|discriminate H1].
      * intros [H|[H|H]]; [right; right; rewrite H; reflexivity|tauto|].
        destruct (IH _ _ H) as [H1|[H1|H1]]; [tauto|tauto|discriminate H1].
      * intros [H|H]; [tauto|].
        destruct (IH _ _ H) as [H1|[H1|H1]]; [tauto|tauto|discriminate H1].
Qed.

Lemma noDoubleSpace_cons c s :
  isSpace c = false -> noDoubleSpace s -> noDoubleSpace (String c s).
Proof.
  intros Hc Hs. destruct s as [|d s]; [exact I|].
  split; [intros H; rewrite H in Hc; discriminate Hc|exact Hs].
Qed.

Lemma collapseFrom_single : forall s,
  noDoubleSpace (collapseFrom Outside s)
  /\ (forall p, noDoubleSpace (collapseFrom (One p) s))
  /\ noDoubleSpace (collapseFrom Many s)
  /\ match collapseFrom Many s with
     | String c _ => isSpace c = false
     | EmptyString => True
     end.
Proof.
  induction s as [|c s (IHa & IHb & IHc & IHd)]; simpl.
  - repeat split.
  - destruct (isSpace c) eqn:Hc.
    + split; [apply IHb|]. split; [|split; assumption].
      intros p. destruct (collapseFrom Many s) as [|d t] eqn:E; [exact I|].
      split; [intros _; exact IHd|exact IHc].
    + assert (H : noDoubleSpace (String c (collapseFrom Outside s)))
        by (apply noDoubleSpace_cons; assumption).
      split; [exact H|]. split; [|split; [exact H|exact Hc]].
      intros p. split; [intros _; exact Hc|exact H].
Qed.

Lemma collapseFrom_clean : forall s,
  noDoubleSpace s ->
  collapseFrom Outside s = s
  /\ forall p, match s with
               | String c _ => isSpace c = false
               | EmptyString => True
               end ->
               collapseFrom (One p) s = String p s.
Proof.
  induction s as [|c s IH]; intros Hs; simpl; [split; reflexivity|].
  assert (Hrest : noDoubleSpace s) by (destruct s; [exact I|apply Hs]).
  destruct (IH Hrest) as [IHa IHb].
  destruct (isSpace c) eqn:Hc.
  - split; [|intros p Hp; discriminate Hp].
    apply IHb. destruct s as [|d s]; [exact I|]. apply Hs. exact Hc.
  - rewrite IHa. split; reflexivity.
Qed.

Lemma clean_content_length_aux content :
  (String.length (cleanContent content) <= Z.to_nat 3000)%nat.
Proof. apply substring_length. Qed.

Lemma clean_content_no_tag_aux content : ~ occurs "<" (cleanContent content).
Proof.
  unfold cleanContent, sliceTo, collapseSpaces. intros H.
  apply substring_occurs in H.
  apply collapseFrom_occurs in H as [H|[H|H]]; [discriminate H| |discriminate H].
  exact (stripFrom_no_open _ _ H).
Qed.

Lemma clean_content_single_aux content : noDoubleSpace (cleanContent content).
Proof.
  unfold cleanContent, sliceTo, collapseSpaces.
  apply substring_noDoubleSpace, collapseFrom_single.
Qed.

(** X20: the content sent to the service has at most 3000 characters;
    the later [slice(0, 5000)] of the prompt cuts nothing. *)
Theorem clean_content_bounded content :
  Z.of_nat (String.length (cleanContent content)) <= 3000
  /\ promptContent content = cleanContent content.
Proof.
  pose proof (clean_content_length_aux content) as H.
  split; [lia|]. unfold promptContent, sliceTo. apply substring_all. lia.
Qed.

(** *** What the cleaning removes and what it keeps *)

Ltac app_step := unfold String.append; fold String.append.

Lemma string_app_nil_r s : (s ++ EmptyString)%string = s.
Proof.
  induction s as [|c s IH]; app_step; [reflexivity|]. rewrite IH. reflexivity.
Qed.

Lemma string_app_assoc a b c : ((a ++ b) ++ c)%string = (a ++ (b ++ c))%string.
Proof.
  induction a as [|x a IH]; app_step; [reflexivity|]. rewrite IH. reflexivity.
Qed.

Lemma occurs_app c a b : occurs c (a ++ b) <-> occurs c a \/ occurs c b.
Proof. unfold occurs. rewrite to_list_app. apply in_app_iff. Qed.

Lemma occurs_cons c d s : occurs c (String d s) <-> d = c \/ occurs c s.
Proof. unfold occurs. simpl. tauto. Qed.

Lemma stripFrom_plain : forall a rest,
  ~ occurs "<" a -> stripFrom false (a ++ rest) = (a ++ stripFrom false rest)%string.
Proof.
  induction a as [|c a IH]; intros rest Ha; app_step; [reflexivity|].
  simpl. destruct (Ascii.eqb_spec c "<") as [->|Hne].
  - exfalso. apply Ha. apply occurs_cons. left. reflexivity.
  - rewrite IH; [reflexivity|]. intros H. apply Ha. apply occurs_cons. right. exact H.
Qed.

Lemma stripFrom_tag : forall tag rest,
  ~ occurs ">" tag -> stripFrom true (tag ++ String ">" rest) = stripFrom false rest.
Proof.
  induction tag as [|c tag IH]; intros rest Ht; app_step; [reflexivity|].
  simpl. destruct (Ascii.eqb_spec c ">") as [->|Hne].
  - exfalso. apply Ht. apply occurs_cons. left. reflexivity.
  - apply IH. intros H. apply Ht. apply occurs_cons. right. exact H.
Qed.

Lemma stripFrom_open : forall tag, ~ occurs ">" tag -> stripFrom true tag = EmptyString.
Proof.
  induction tag as [|c tag IH]; intros Ht; [reflexivity|].
  simpl. destruct (Ascii.eqb_spec c ">") as [->|Hne].
  - exfalso. apply Ht. apply occurs_cons. left. reflexivity.
  - apply IH. intros H. apply Ht. apply occurs_cons. right. exact H.
Qed.

Lemma stripTags_closed before tag after :
  ~ occurs "<" before -> ~ occurs ">" tag ->
  stripTags (before ++ String "<" (tag ++ String ">" after))
  = stripTags (before ++ after).
Proof.
  intros Hb Ht. unfold stripTags. rewrite !stripFrom_plain by exact Hb.
  f_equal. simpl. apply stripFrom_tag, Ht.
Qed.

Lemma stripTags_unclosed before tag :
  ~ occurs "<" before -> ~ occurs ">" tag ->
  stripTags (before ++ String "<" tag) = stripTags before.
Proof.
  intros Hb Ht. unfold stripTags. rewrite stripFrom_plain by exact Hb.
  simpl. rewrite (stripFrom_open _ Ht), string_app_nil_r.
  symmetry. apply stripTags_clean, Hb.
Qed.

Lemma space_not_open c : isSpace c = true -> c <> "<"%char.
Proof. intros H ->. discriminate H. Qed.

Lemma allSpace_no_open : forall w, allSpace w = true -> ~ occurs "<" w.
Proof.
  induction w as [|c w IH]; intros Hw H; [exact H|].
  simpl in Hw. apply andb_true_iff in Hw as [Hc Hw].
  apply occurs_cons in H as [H|H]; [exact (space_not_open _ Hc H)|exact (IH Hw H)].
Qed.

(** The text a step of the collapsing emits, and the state it goes on
    in. *)
Lemma collapseFrom_step run c :
  exists emitted run',
    (forall tail, collapseFrom run (String c tail)
                  = (emitted ++ collapseFrom run' tail)%string)
    /\ (isSpace c = false -> run' = Outside).
Proof.
  destruct (isSpace c) eqn:Hc; destruct run as [|p|].
  - exists EmptyString, (One c). split; [|discriminate].
    intros tail. simpl. rewrite Hc. reflexivity.
  - exists (String " " EmptyString), Many. split; [|discriminate].
    intros tail. simpl. rewrite Hc. reflexivity.
  - exists EmptyString, Many. split; [|discriminate].
    intros tail. simpl. rewrite Hc. reflexivity.
  - exists (String c EmptyString), Outside. split; [|reflexivity].
    intros tail. simpl. rewrite Hc. reflexivity.
  - exists (String p (String c EmptyString)), Outside. split; [|reflexivity].
    intros tail. simpl. rewrite Hc. reflexivity.
  - exists (String c EmptyString), Outside. split; [|reflexivity].
    intros tail. simpl. rewrite Hc. reflexivity.
Qed.

Lemma collapseFrom_prefix : forall a run rest,
  a <> EmptyString -> endsInSpace a = false ->
  collapseFrom run (a ++ rest)
  = (collapseFrom run a ++ collapseFrom Outside rest)%string.
Proof.
  induction a as [|c a IH]; intros run rest Hne Hend; [congruence|].
  app_step.
  destruct (collapseFrom_step run c) as (emitted & run' & Hstep & Hout).
  rewrite !Hstep. destruct a as [|d a].
  - simpl in Hend. rewrite (Hout Hend). simpl.
    rewrite string_app_assoc. reflexivity.
  - rewrite IH; [|discriminate|exact Hend].
    rewrite string_app_assoc. reflexivity.
Qed.

Lemma collapse_prefix a rest :
  endsInSpace a = false ->
  collapseSpaces (a ++ rest) = (collapseSpaces a ++ collapseSpaces rest)%string.
Proof.
  intros Hend. unfold collapseSpaces. destruct a as [|c a]; [reflexivity|].
  apply collapseFrom_prefix; [discriminate|exact Hend].
Qed.

Lemma collapseFrom_many : forall w b,
  allSpace w = true -> startsWithSpace b = false ->
  collapseFrom Many (w ++ b) = collapseFrom Outside b.
Proof.
  induction w as [|c w IH]; intros b Hw Hb; app_step.
  - destruct b as [|d b]; [reflexivity|]. simpl in *. rewrite Hb. reflexivity.
  - simpl in Hw. apply andb_true_iff in Hw as [Hc Hw]. simpl. rewrite Hc.
    apply IH; assumption.
Qed.

Lemma collapse_run c d w b :
  isSpace c = true -> isSpace d = true -> allSpace w = true ->
  startsWithSpace b = false ->
  collapseSpaces (String c (String d w) ++ b) = String " " (collapseSpaces b).
Proof.
  intros Hc Hd Hw Hb. unfold collapseSpaces. app_step. simpl. rewrite Hc.
  app_step. simpl. rewrite Hd. f_equal. apply collapseFrom_many; assumption.
Qed.

Lemma collapse_blank b :
  startsWithSpace b = false ->
  collapseSpaces (String " " b) = String " " (collapseSpaces b).
Proof.
  intros Hb. unfold collapseSpaces. simpl.
  destruct b as [|d b]; [reflexivity|]. simpl in *. rewrite Hb. reflexivity.
Qed.

Lemma cleanContent_plain text :
  ~ occurs "<" text -> cleanContent text = sliceTo 3000 (collapseSpaces text).
Proof. intros H. unfold cleanContent. rewrite stripTags_clean by exact H. reflexivity. Qed.

Lemma cleanContent_clean text :
  ~ occurs "<" text -> noDoubleSpace text ->
  Z.of_nat (String.length text) <= 3000 ->
  cleanContent text = text.
Proof.
  intros Ht Hs Hlen. rewrite cleanContent_plain by exact Ht.
  unfold collapseSpaces. rewrite (proj1 (collapseFrom_clean _ Hs)).
  unfold sliceTo. apply substring_all. lia.
Qed.

(** X21: every tag, closed or not, is removed from the content sent to
    the service, with all it contains: cleaned content, whatever the
    content was, has no [<]; content with a closed tag, from a [<] to
    the next [>], is cleaned to what the content without that tag is
    cleaned to; so is content that ends in an unclosed tag, from a [<]
    to the end. *)
Theorem clean_content_no_tag content before tag after :
  ~ occurs "<" before -> ~ occurs ">" tag ->
  ~ occurs "<" (cleanContent content)
  /\ cleanContent (before ++ String "<" (tag ++ String ">" after))
     = cleanContent (before ++ after)
  /\ cleanContent (before ++ String "<" tag) = cleanContent before.
Proof.
  intros Hb Ht. split; [apply clean_content_no_tag_aux|]. split.
  - unfold cleanContent. rewrite stripTags_closed by assumption. reflexivity.
  - unfold cleanContent. rewrite stripTags_unclosed by assumption. reflexivity.
Qed.

Lemma clean_content_no_tag_witness :
  ~ occurs "<" (cleanContent "1 < 2")
  /\ cleanContent ("a " ++ String "<" ("b x=1" ++ String ">" " c"))
     = cleanContent ("a " ++ " c")
  /\ cleanContent ("a " ++ String "<" "b x=1") = cleanContent "a ".
Proof.
  apply (clean_content_no_tag "1 < 2" "a " "b x=1" " c").
  - unfold occurs. simpl. intros [H|[H|[]]]; discriminate H.
  - unfold occurs. simpl. intros [H|[H|[H|[H|[H|[]]]]]]; discriminate H.
Defined.

(** X22: in the content sent to the service a run of two or more
    white-space characters has become one blank, and a single
    white-space character is kept as it is. For content without tags:
    content with such a run between a text that does not end and a
    text that does not start with white space is cleaned to what the
    content with one blank in its place is cleaned to; content of at
    most 3000 characters without such runs is left as it is; and no
    two neighbouring characters of cleaned content, whatever the
    content was, are both white space. *)
Theorem clean_content_single_spaces content before first second run after :
  ~ occurs "<" before -> ~ occurs "<" after ->
  endsInSpace before = false -> startsWithSpace after = false ->
  isSpace first = true -> isSpace second = true -> allSpace run = true ->
  cleanContent (before ++ String first (String second run) ++ after)
  = cleanContent (before ++ String " " after)
  /\ noDoubleSpace (cleanContent content)
  /\ forall text,
       ~ occurs "<" text -> noDoubleSpace text ->
       Z.of_nat (String.length text) <= 3000 ->
       cleanContent text = text.
Proof.
  intros Hb Ha Hend Hstart Hf Hs Hrun.
  split; [|split; [apply clean_content_single_aux|apply cleanContent_clean]].
  rewrite !cleanContent_plain.
  - rewrite (collapse_prefix before (String first (String second run) ++ after) Hend).
    rewrite (collapse_prefix before (String " " after) Hend).
    rewrite collapse_run by assumption. rewrite collapse_blank by exact Hstart.
    reflexivity.
  - intros H. apply occurs_app in H as [H|H]; [exact (Hb H)|].
    apply occurs_cons in H as [H|H]; [discriminate H|exact (Ha H)].
  - intros H. apply occurs_app in H as [H|H]; [exact (Hb H)|].
    apply occurs_app in H as [H|H]; [|exact (Ha H)].
    apply (allSpace_no_open (String first (String second run))); [|exact H].
    simpl. rewrite Hf, Hs, Hrun. reflexivity.
Qed.

Lemma clean_content_single_spaces_witness :
  cleanContent ("a" ++ String " " (String "009" " ") ++ "b")
  = cleanContent ("a" ++ String " " "b")
  /\ noDoubleSpace (cleanContent "a  b   c")
  /\ forall text,
       ~ occurs "<" text -> noDoubleSpace text ->
       Z.of_nat (String.length text) <= 3000 ->
       cleanContent text = text.
Proof.
  apply (clean_content_single_spaces "a  b   c" "a" " " "009" " " "b"); try reflexivity.
  - unfold occurs. simpl. intros [H|[]]. discriminate H.
  - unfold occurs. simpl. intros [H|[]]. discriminate H.
Defined.

(** X23: cleaning is idempotent: cleaned content is left as it is when
    cleaned again. *)
Theorem clean_content_idempotent content :
  cleanContent (cleanContent content) = cleanContent content.
Proof.
  unfold cleanContent at 1.
  rewrite (stripTags_clean _ (clean_content_no_tag_aux content)).
  unfold collapseSpaces.
  rewrite (proj1 (collapseFrom_clean _ (clean_content_single_aux content))).
  unfold sliceTo. apply substring_all.
  pose proof (clean_content_length_aux content). lia.
Qed.

End CleanProps.

(** ** Sources that share a file *)

Module SharedProps.
Import FileName FileNameProps UpdateProps UpdateExtra.

Lemma question_same_path dataDir sourceUrl :
  Z.of_nat (String.length sourceUrl) mod 3 = 2 ->
  sourceFilePath dataDir (sourceUrl ++ "?") = sourceFilePath dataDir sourceUrl.
Proof.
  intros Hlen. unfold sourceFilePath, sourceFileName, sourceHash.
  rewrite to_list_app.
  change (String.list_ascii_of_string "?") with ["?"%char].
  rewrite encode_question by (rewrite length_to_list; exact Hlen). reflexivity.
Qed.

(** X24: two configured sources can share a snapshot: after a successful
    update of a source whose address has a number of bytes that leaves
    the remainder 2 when divided by 3, loading the source with that
    address followed by a question mark yields the snapshot just
    written, which carries the address of the first source. *)
Theorem colliding_sources_share_snapshot dataDir env sourceUrl st data st' :
  Z.of_nat (String.length sourceUrl) mod 3 = 2 ->
  updateFeed (onDisk dataDir env) sourceUrl st = (Ret data, st') ->
  loadFeedData (onDisk dataDir env) (sourceUrl ++ "?") st' = (Ret (Some data), st')
  /\ FeedData.sourceUrl data = sourceUrl.
Proof.
  intros Hlen Hrun.
  destruct (updateFeed_saved _ _ _ _ _ Hrun) as [Hfiles Hurl].
  split; [|exact Hurl].
  rewrite loadFeedData_run, Hfiles.
  change (getSourceFilePath (onDisk dataDir env)) with (sourceFilePath dataDir).
  rewrite (question_same_path _ _ Hlen), lookup_insert_eq. reflexivity.
Qed.

Lemma colliding_sources_share_snapshot_witness :
  loadFeedData (onDisk "data" (sampleEnv ["u1"; "u1?"]%string
                                 (oneFeed "u1" [rawEntry "a" "t" "c"]) serviceUp)) "u1?"
    (updateFeed (onDisk "data" (sampleEnv ["u1"; "u1?"]%string
                                  (oneFeed "u1" [rawEntry "a" "t" "c"]) serviceUp))
       "u1" (mkState 0 0 ∅ [] 0 1)).2
  = (Ret (Some (FeedData.mk "u1" "feed" EmptyString EmptyString
                  [withSummary (serializeItem (rawEntry "a" "t" "c")) (Some "ok"%string)]
                  2000)),
     (updateFeed (onDisk "data" (sampleEnv ["u1"; "u1?"]%string
                                   (oneFeed "u1" [rawEntry "a" "t" "c"]) serviceUp))
        "u1" (mkState 0 0 ∅ [] 0 1)).2)
  /\ "u1"%string = "u1"%string.
Proof.
  apply (colliding_sources_share_snapshot "data"
           (sampleEnv ["u1"; "u1?"]%string (oneFeed "u1" [rawEntry "a" "t" "c"]) serviceUp)
           "u1" (mkState 0 0 ∅ [] 0 1)).
  - reflexivity.
  - vm_compute. reflexivity.
Defined.

End SharedProps.

(** ** The settings *)

Module SettingsProps.
Import Settings.

Lemma orStr_truthy text d : JS.truthyStr d = true -> JS.truthyStr (JS.orStr text d) = true.
Proof.
  intros Hd. unfold JS.orStr, JS.or. destruct text as [s|]; simpl; [|exact Hd].
  destruct (JS.truthyStr s) eqn:Hs; simpl; [exact Hs|exact Hd].
Qed.

Lemma checkSettings_key processEnv :
  checkSettings processEnv
  = if JS.truthy (processEnv !! "LLM_API_KEY"%string) then None else Some 1.
Proof.
  unfold checkSettings, GEMINI_API_KEY, GEMINI_API_BASE, GEMINI_MODEL_NAME.
  rewrite !orStr_truthy by reflexivity.
  destruct (JS.truthy (processEnv !! "LLM_API_KEY"%string)); reflexivity.
Qed.

Lemma main_exit env st :
  (main env st).1
  = Ret match Config.sources (config env) with Some _ => 0 | None => 1 end.
Proof.
  unfold main, updateAllFeeds, catch, bind, ret, throw.
  destruct (Config.sources (config env)) as [sources|]; [|reflexivity].
  destruct (DriverProps.forSources_returns env sources ∅ st) as (r & st' & Hrun & _).
  rewrite Hrun. reflexivity.
Qed.

(** X25: of the three checks of the settings only the one of
    [LLM_API_KEY] can end the process: the base address and the model
    name fall back to literals that are not empty, so their checks never
    fire, whatever the environment holds. *)
Theorem only_key_is_checked processEnv :
  checkSettings processEnv
  = if JS.truthy (processEnv !! "LLM_API_KEY"%string) then None else Some 1.
Proof. apply checkSettings_key. Qed.

(** X26: the script always ends with an exit code, which is 0 exactly
    when [LLM_API_KEY], after the environment file is loaded, is set to
    a text that is not empty and the configured sources can be
    iterated, and 1 otherwise; it does not depend on whether any source
    could be updated. *)
Theorem script_exit_code dotenv localEnv processEnv env st :
  (Dotenv.run dotenv localEnv processEnv env st).1
  = Ret (if JS.truthy (Dotenv.loadDotenv dotenv localEnv processEnv !! "LLM_API_KEY"%string)
         then match Config.sources (config env) with Some _ => 0 | None => 1 end
         else 1).
Proof.
  unfold Dotenv.run, script. rewrite checkSettings_key.
  destruct (JS.truthy (Dotenv.loadDotenv dotenv localEnv processEnv !! "LLM_API_KEY"%string));
    [|reflexivity].
  apply main_exit.
Qed.

End SettingsProps.

(** ** The environment file *)

Module DotenvProps.
Import Dotenv.

Ltac append_step := unfold String.append; fold String.append.

(** *** The pieces of the matcher *)

Section MatcherFacts.
Context {R : Type}.

Lemma star_sound cls : forall s (k : string -> string -> option R) x,
  star cls s k = Some x ->
  exists m r, s = (m ++ r)%string /\ allChars cls m = true /\ k m r = Some x.
Proof.
  induction s as [|c s IH]; intros k x H; simpl in H.
  - exists EmptyString, EmptyString. auto.
  - destruct (cls c) eqn:Hc.
    + destruct (star cls s (fun matched => k (String c matched))) as [y|] eqn:E.
      * injection H as ->. apply IH in E as (m & r & -> & Hm & Hk).
        exists (String c m), r. simpl. rewrite Hc, Hm. auto.
      * exists EmptyString, (String c s). auto.
    + exists EmptyString, (String c s). auto.
Qed.

Lemma star_greedy cls : forall m r (k : string -> string -> option R) x,
  allChars cls m = true -> headIn cls r = false ->
  k m r = Some x -> star cls (m ++ r) k = Some x.
Proof.
  induction m as [|c m IH]; intros r k x Hm Hr Hk; append_step; simpl.
  - destruct r as [|d r]; simpl in *; [exact Hk|]. rewrite Hr. exact Hk.
  - simpl in Hm. apply andb_true_iff in Hm as [Hc Hm]. rewrite Hc.
    rewrite (IH r (fun matched => k (String c matched)) x Hm Hr Hk). reflexivity.
Qed.

Lemma plus_sound cls s (k : string -> string -> option R) x :
  plus cls s k = Some x ->
  exists m r, s = (m ++ r)%string /\ allChars cls m = true /\ m <> EmptyString
              /\ k m r = Some x.
Proof.
  destruct s as [|c s]; simpl; [discriminate|].
  destruct (cls c) eqn:Hc; [|discriminate]. intros H.
  apply star_sound in H as (m & r & -> & Hm & Hk).
  exists (String c m), r. simpl. rewrite Hc, Hm. repeat split; auto.
Qed.

Lemma plus_greedy cls m r (k : string -> string -> option R) x :
  m <> EmptyString -> allChars cls m = true -> headIn cls r = false ->
  k m r = Some x -> plus cls (m ++ r) k = Some x.
Proof.
  destruct m as [|c m]; [congruence|]. intros _ Hm Hr Hk. append_step. simpl in *.
  apply andb_true_iff in Hm as [Hc Hm]. rewrite Hc.
  apply (star_greedy cls m r (fun matched => k (String c matched))); assumption.
Qed.

Lemma chr_sound c s (k : string -> option R) x :
  chr c s k = Some x -> exists r, s = String c r /\ k r = Some x.
Proof.
  destruct s as [|d s]; simpl; [discriminate|].
  destruct (Ascii.eqb_spec d c) as [->|]; [|discriminate]. eauto.
Qed.

Lemma optional_sound cls s (k : option string -> string -> option R) x :
  optional (star cls) s k = Some x ->
  exists v r, s = (JS.orStr v EmptyString ++ r)%string
              /\ allChars cls (JS.orStr v EmptyString) = true
              /\ k v r = Some x.
Proof.
  unfold optional. intros H.
  destruct (star cls s _) as [y|] eqn:E.
  - injection H as ->. apply star_sound in E as (m & r & -> & Hm & Hk).
    destruct m as [|c m]; [discriminate|].
    exists (Some (String c m)), r. auto.
  - exists None, s. auto.
Qed.

Lemma eol_sound s (x y : R) : eol s x = Some y -> s = EmptyString /\ x = y.
Proof. destruct s; simpl; [|discriminate]. intros H. injection H as ->. auto. Qed.

End MatcherFacts.

(** *** Classes of characters *)

Lemma keyChar_not_space c : isKeyChar c = true -> Clean.isSpace c = false.
Proof. destruct c as [[] [] [] [] [] [] [] []]; vm_compute; congruence. Qed.

Lemma headIn_app cls m r :
  m <> EmptyString -> headIn cls (m ++ r) = headIn cls m.
Proof. destruct m; [congruence|reflexivity]. Qed.

Lemma head_of_key key :
  key <> EmptyString -> allChars isKeyChar key = true ->
  headIn Clean.isSpace key = false.
Proof.
  destruct key as [|c key]; [congruence|]. simpl. intros _ H.
  apply andb_true_iff in H as [Hc _]. apply keyChar_not_space. exact Hc.
Qed.

Lemma head_after_key w r :
  allChars Clean.isSpace w = true ->
  headIn isKeyChar (w ++ String "=" r) = false.
Proof.
  destruct w as [|c w]; append_step; simpl; [reflexivity|]. intros H.
  apply andb_true_iff in H as [Hc _].
  destruct (isKeyChar c) eqn:Hk; [|reflexivity].
  apply keyChar_not_space in Hk. congruence.
Qed.

Lemma allChars_app cls a b :
  allChars cls (a ++ b) = allChars cls a && allChars cls b.
Proof.
  induction a as [|c a IH]; append_step; simpl; [reflexivity|].
  rewrite IH, andb_assoc. reflexivity.
Qed.

Lemma append_nil_r s : (s ++ EmptyString)%string = s.
Proof.
  induction s as [|c s IH]; append_step; [reflexivity|]. rewrite IH. reflexivity.
Qed.

(** *** Quotes *)

Lemma dropLastQuote_chars cls : forall s,
  allChars cls s = true -> allChars cls (dropLastQuote s) = true.
Proof.
  induction s as [|c s IH]; simpl; [reflexivity|]. intros H.
  apply andb_true_iff in H as [Hc Hs].
  destruct s as [|d s].
  - destruct (Ascii.eqb c quote); simpl; [reflexivity|]. rewrite Hc. reflexivity.
  - change (allChars cls (String c (dropLastQuote (String d s))) = true).
    cbn [allChars]. rewrite Hc. exact (IH Hs).
Qed.

Lemma unquote_chars cls value :
  allChars cls value = true -> allChars cls (unquote value) = true.
Proof.
  intros H. unfold unquote.
  destruct (headIn _ value && endsWith quote value); [|exact H].
  unfold stripQuotes. destruct value as [|c s]; [reflexivity|].
  destruct (Ascii.eqb c quote).
  - simpl in H. apply andb_true_iff in H as [_ Hs]. apply dropLastQuote_chars, Hs.
  - apply dropLastQuote_chars, H.
Qed.

Lemma dropLastQuote_app : forall v, dropLastQuote (v ++ String quote EmptyString) = v.
Proof.
  induction v as [|c v IH]; [reflexivity|].
  change ((String c v ++ String quote EmptyString)%string)
    with (String c (v ++ String quote EmptyString)).
  destruct v as [|d v]; [reflexivity|].
  change (String c (dropLastQuote (String d v ++ String quote EmptyString)) = String c (String d v)).
  rewrite IH. reflexivity.
Qed.

Lemma endsWith_app : forall v, endsWith quote (v ++ String quote EmptyString) = true.
Proof.
  induction v as [|c v IH]; [reflexivity|].
  destruct v as [|d v]; [reflexivity|]. exact IH.
Qed.

(** *** Lines *)

Lemma matchLine_sound line key group2 :
  matchLine line = Some (key, group2) ->
  exists w1 w2 w3 w4,
    line = (w1 ++ key ++ w2 ++ String "=" (w3 ++ JS.orStr group2 EmptyString ++ w4))%string
    /\ allChars Clean.isSpace w1 = true /\ allChars Clean.isSpace w2 = true
    /\ allChars Clean.isSpace w3 = true /\ allChars Clean.isSpace w4 = true
    /\ key <> EmptyString /\ allChars isKeyChar key = true
    /\ allChars isDot (JS.orStr group2 EmptyString) = true.
Proof.
  unfold matchLine. intros H.
  apply star_sound in H as (w1 & s1 & -> & Hw1 & H).
  apply plus_sound in H as (k & s2 & -> & Hk & Hne & H).
  apply star_sound in H as (w2 & s3 & -> & Hw2 & H).
  apply chr_sound in H as (s4 & -> & H).
  apply star_sound in H as (w3 & s5 & -> & Hw3 & H).
  apply optional_sound in H as (v & s6 & -> & Hv & H).
  apply star_sound in H as (w4 & s7 & -> & Hw4 & H).
  apply eol_sound in H as [-> H]. injection H as -> ->.
  exists w1, w2, w3, w4. rewrite append_nil_r. auto 10.
Qed.

Lemma matchLine_complete w1 key w2 w3 value w4 :
  allChars Clean.isSpace w1 = true -> allChars Clean.isSpace w2 = true ->
  allChars Clean.isSpace w3 = true -> allChars Clean.isSpace w4 = true ->
  key <> EmptyString -> allChars isKeyChar key = true ->
  allChars isDot value = true -> headIn Clean.isSpace value = false ->
  headIn isDot w4 = false ->
  exists group2,
    matchLine (w1 ++ key ++ w2 ++ String "=" (w3 ++ value ++ w4)) = Some (key, group2)
    /\ JS.orStr group2 EmptyString = value.
Proof.
  intros Hw1 Hw2 Hw3 Hw4 Hne Hk Hv Hhead Htail.
  exists (match value with EmptyString => None | _ => Some value end).
  split; [|destruct value; reflexivity].
  unfold matchLine.
  apply star_greedy; [exact Hw1| |].
  { rewrite headIn_app by exact Hne. apply head_of_key; assumption. }
  apply plus_greedy; [exact Hne|exact Hk|apply head_after_key; exact Hw2|].
  apply star_greedy; [exact Hw2|reflexivity|].
  simpl chr.
  destruct value as [|c value].
  - change (EmptyString ++ w4)%string with w4.
    rewrite <- (append_nil_r (w3 ++ w4)).
    apply star_greedy; [rewrite allChars_app, Hw3, Hw4; reflexivity|reflexivity|].
    reflexivity.
  - apply star_greedy; [exact Hw3|exact Hhead|].
    unfold optional.
    rewrite (star_greedy isDot (String c value) w4 _ (key, Some (String c value)));
      [reflexivity|exact Hv|exact Htail|].
    rewrite <- (append_nil_r w4).
    apply star_greedy; [exact Hw4|reflexivity|reflexivity].
Qed.

(** X27: a line of the environment file assigns a variable only when it
    has the form: white space, key, white space, [=], rest; the key is
    not empty and made of letters, digits, [_], [.] and [-], and the
    value assigned contains no line terminator. *)
Theorem assignment_shape line key value :
  assignment line = Some (key, value) ->
  key <> EmptyString
  /\ allChars isKeyChar key = true
  /\ allChars isDot value = true
  /\ exists w1 w2 rest,
       line = (w1 ++ key ++ w2 ++ String "=" rest)%string
       /\ allChars Clean.isSpace w1 = true /\ allChars Clean.isSpace w2 = true.
Proof.
  unfold assignment. destruct (matchLine line) as [[k group2]|] eqn:H; [|discriminate].
  intros E. injection E as -> <-.
  apply matchLine_sound in H as (w1 & w2 & w3 & w4 & -> & Hw1 & Hw2 & _ & _ & Hne & Hk & Hv).
  split; [exact Hne|]. split; [exact Hk|]. split; [apply unquote_chars, Hv|].
  exists w1, w2, (w3 ++ JS.orStr group2 EmptyString ++ w4)%string. auto.
Qed.

Lemma assignment_shape_witness :
  "LLM_NAME"%string <> EmptyString
  /\ allChars isKeyChar "LLM_NAME" = true
  /\ allChars isDot "gemini" = true
  /\ exists w1 w2 rest,
       " LLM_NAME = gemini"%string = (w1 ++ "LLM_NAME" ++ w2 ++ String "=" rest)%string
       /\ allChars Clean.isSpace w1 = true /\ allChars Clean.isSpace w2 = true.
Proof.
  apply (assignment_shape " LLM_NAME = gemini" "LLM_NAME" "gemini"). reflexivity.
Defined.

(** X28: a line made of white space, a key, white space, [=], white
    space, a value without line terminators that does not start with
    white space, and white space that is empty or starts with a line
    terminator (the carriage return of a file with CR LF line ends),
    assigns the value to the key, the quotes around it removed. Blanks
    at the end of the value are part of the value: the white space the
    pattern allows at the end of the line never takes them. *)
Theorem plain_line_assigns w1 key w2 w3 value w4 :
  allChars Clean.isSpace w1 = true -> allChars Clean.isSpace w2 = true ->
  allChars Clean.isSpace w3 = true -> allChars Clean.isSpace w4 = true ->
  key <> EmptyString -> allChars isKeyChar key = true ->
  allChars isDot value = true -> headIn Clean.isSpace value = false ->
  headIn isDot w4 = false ->
  assignment (w1 ++ key ++ w2 ++ String "=" (w3 ++ value ++ w4))
  = Some (key, unquote value).
Proof.
  intros Hw1 Hw2 Hw3 Hw4 Hne Hk Hv Hhead Htail. unfold assignment.
  destruct (matchLine_complete w1 key w2 w3 value w4) as (g & -> & ->); auto.
Qed.

Lemma plain_line_assigns_witness :
  assignment ("LLM_NAME = gemini  " ++ String "013" EmptyString)
  = Some ("LLM_NAME"%string, "gemini  "%string).
Proof.
  apply (plain_line_assigns EmptyString "LLM_NAME" " " " " "gemini  "
           (String "013" EmptyString)); try reflexivity. discriminate.
Defined.

(** X29: quotes around a value are removed as a pair: a value written
    between two quotes is assigned as written, whatever it contains,
    and a value that does not start with a quote is left as it is. *)
Theorem unquote_quoted value :
  unquote (String quote (value ++ String quote EmptyString)) = value
  /\ forall other, headIn (Ascii.eqb quote) other = false -> unquote other = other.
Proof.
  split.
  - unfold unquote.
    change (headIn (Ascii.eqb quote) (String quote (value ++ String quote EmptyString)))
      with true.
    replace (endsWith quote (String quote (value ++ String quote EmptyString)))
      with true
      by (symmetry; exact (endsWith_app (String quote value))).
    simpl. apply dropLastQuote_app.
  - intros other H. unfold unquote. rewrite H. reflexivity.
Qed.

Lemma unquote_quoted_witness :
  unquote (String quote ("a b " ++ String quote EmptyString)) = "a b "%string
  /\ unquote "plain" = "plain"%string.
Proof.
  split.
  - apply (proj1 (unquote_quoted "a b ")).
  - apply (proj2 (unquote_quoted "a b ") "plain"). reflexivity.
Defined.

(** *** The file *)

Lemma setLine_other processEnv line key :
  ~ assigns key line -> setLine processEnv line !! key = processEnv !! key.
Proof.
  unfold setLine, assigns. intros H.
  destruct (assignment line) as [[k v]|]; [|reflexivity].
  apply lookup_insert_ne. intros ->. apply H. eauto.
Qed.

Lemma lines_other key : forall lines processEnv,
  Forall (fun line => ~ assigns key line) lines ->
  fold_left setLine lines processEnv !! key = processEnv !! key.
Proof.
  induction lines as [|l lines IH]; intros processEnv H; [reflexivity|].
  inversion H as [|? ? Hl Hrest]; subst. simpl.
  rewrite IH by exact Hrest. apply setLine_other, Hl.
Qed.

Lemma splitLines_nonempty s : splitLines s <> [].
Proof.
  destruct s as [|c s]; simpl; [discriminate|].
  destruct (Ascii.eqb c "010"); [discriminate|].
  destruct (splitLines s); discriminate.
Qed.

Lemma splitLines_app : forall a b,
  splitLines (a ++ String "010" b) = splitLines a ++ splitLines b.
Proof.
  induction a as [|c a IH]; intros b; [reflexivity|].
  change ((String c a ++ String "010" b)%string) with (String c (a ++ String "010" b)).
  simpl. rewrite IH.
  destruct (Ascii.eqb c "010"); [reflexivity|].
  pose proof (splitLines_nonempty a) as Hne.
  destruct (splitLines a) as [|l ls]; [congruence|reflexivity].
Qed.

(** X30: the environment file wins over the environment: after the
    file is loaded, a variable has the value of the last line that
    assigns it, whatever the environment held, and a variable that no
    line assigns keeps what the environment held. When [.env] exists,
    [.env.local] is not looked at. *)
Theorem last_assignment_wins content localEnv processEnv before line after key value :
  splitLines content = before ++ line :: after ->
  assignment line = Some (key, value) ->
  Forall (fun l => ~ assigns key l) after ->
  loadDotenv (Some content) localEnv processEnv !! key = Some value
  /\ forall other,
       Forall (fun l => ~ assigns other l) (splitLines content) ->
       loadDotenv (Some content) localEnv processEnv !! other = processEnv !! other.
Proof.
  intros Hsplit Hline Hafter. unfold loadDotenv, loadContent. split.
  - rewrite Hsplit, fold_left_app. simpl.
    rewrite lines_other by exact Hafter.
    unfold setLine. rewrite Hline. apply lookup_insert_eq.
  - intros other H. apply lines_other, H.
Qed.

Lemma last_assignment_wins_witness :
  loadDotenv (Some ("A=1" ++ String "010" ("A=3" ++ String "010" "B=2"))%string) None
    {[ "A"%string := "0"%string ]} !! "A"%string = Some "3"%string
  /\ forall other,
       Forall (fun l => ~ assigns other l)
         (splitLines ("A=1" ++ String "010" ("A=3" ++ String "010" "B=2"))) ->
       loadDotenv (Some ("A=1" ++ String "010" ("A=3" ++ String "010" "B=2"))%string) None
         {[ "A"%string := "0"%string ]} !! other
       = ({[ "A"%string := "0"%string ]} : gmap string string) !! other.
Proof.
  apply (last_assignment_wins ("A=1" ++ String "010" ("A=3" ++ String "010" "B=2")) None
           {[ "A"%string := "0"%string ]} ["A=1"%string] "A=3" ["B=2"%string] "A" "3").
  - reflexivity.
  - reflexivity.
  - apply List.Forall_cons; [|apply List.Forall_nil].
    intros [v H]. vm_compute in H. discriminate H.
Defined.

End DotenvProps.
